(** * study-korean: the Hangul syllable codec, word forms and conjugations

    A shallow embedding of [experiments/01-translation/main.py], and of the
    table of contents of [experiments/01-translation/tools/wiktionary_translator.py].

    Python values are modelled as follows.
    - A [str] is the list of its Unicode code points ([list Z]); [ord] of a
      one-character string is that code point, a character is a string of
      length one, exactly as in Python.
    - Objects ([Syllable], [WordForm], [Word]) live in a store, one typed
      region per class, and are named by their address.  Attribute
      assignment is an update of the store at that address, so aliasing and
      in-place mutation are those of the program.
    - A method is a computation [M A]: it takes the store and returns either
      a value or a raised exception, together with the store it leaves
      behind.  A raised exception keeps every mutation made before it.
*)

From Stdlib Require Import ZArith Lia String Ascii.
From stdpp Require Import base numbers list option.

Open Scope Z_scope.

(** ** Python strings *)

Abbreviation str := (list Z).

(** Source literals are written as UTF-8 text and decoded to code points, so
    that the tables below can be compared with the source character by
    character. *)
Fixpoint utf8_bytes (s : String.string) : list Z :=
  match s with
  | EmptyString => []
  | String a s' => Z.of_N (N_of_ascii a) :: utf8_bytes s'
  end.

Fixpoint utf8_points (bs : list Z) : str :=
  match bs with
  | [] => []
  | b0 :: r =>
    if b0 <? 128 then b0 :: utf8_points r
    else if b0 <? 224 then
      match r with
      | b1 :: r1 => ((b0 - 192) * 64 + (b1 - 128)) :: utf8_points r1
      | _ => []
      end
    else if b0 <? 240 then
      match r with
      | b1 :: b2 :: r2 =>
        ((b0 - 224) * 4096 + (b1 - 128) * 64 + (b2 - 128)) :: utf8_points r2
      | _ => []
      end
    else
      match r with
      | b1 :: b2 :: b3 :: r3 =>
        ((b0 - 240) * 262144 + (b1 - 128) * 4096 + (b2 - 128) * 64 + (b3 - 128))
          :: utf8_points r3
      | _ => []
      end
  end.

Definition u (s : String.string) : str := utf8_points (utf8_bytes s).

(** Exceptions the program can raise.  [SystemError] is never raised by the
    program itself: it is what the model answers when an address does not
    name an object, which no Python reference can do. *)
Inductive exn := IndexError | ValueError | TypeError | NameError | SystemError.

Inductive result (A : Type) :=
| Ok (a : A)
| Raise (e : exn).
Arguments Ok {A} a.
Arguments Raise {A} e.

Definition result_map {A B} (f : A → B) (r : result A) : result B :=
  match r with Ok a => Ok (f a) | Raise e => Raise e end.

(** [l[i]] with Python's negative indices. *)
Definition list_getitem {A} (l : list A) (i : Z) : result A :=
  let n := Z.of_nat (length l) in
  let k := if i <? 0 then i + n else i in
  if (k <? 0) || (n <=? k) then Raise IndexError
  else match l !! Z.to_nat k with
       | Some a => Ok a
       | None => Raise IndexError
       end.

Definition str_getitem (s : str) (i : Z) : result str :=
  result_map (λ c, [c]) (list_getitem s i).

Fixpoint startswith (s p : str) : bool :=
  match p, s with
  | [], _ => true
  | a :: p', b :: s' => (a =? b) && startswith s' p'
  | _ :: _, [] => false
  end.

(** [s.find(sub)]: position of the first occurrence of [sub] in [s]. *)
Fixpoint str_find (s sub : str) : option nat :=
  if startswith s sub then Some 0%nat
  else match s with
       | [] => None
       | _ :: s' => S <$> str_find s' sub
       end.

(** [s.index(sub)] *)
Definition str_index (s sub : str) : result Z :=
  match str_find s sub with
  | Some n => Ok (Z.of_nat n)
  | None => Raise ValueError
  end.

(** [sub in s] *)
Definition str_contains (sub s : str) : bool :=
  match str_find s sub with Some _ => true | None => false end.

(** [s.endswith(suffix)] and [s.endswith(tuple)] *)
Definition str_endswith (s suffix : str) : bool :=
  startswith (reverse s) (reverse suffix).

Definition endswith_any (s : str) (suffixes : list str) : bool :=
  existsb (str_endswith s) suffixes.

Definition ord (s : str) : result Z :=
  match s with
  | [c] => Ok c
  | _ => Raise TypeError
  end.

Definition chr (n : Z) : result str :=
  if (0 <=? n) && (n <? 1114112) then Ok [n] else Raise ValueError.

(** ['' .join(parts)] *)
Definition join (parts : list str) : str := concat parts.

(** ** The object store *)

Abbreviation ref := nat (only parsing).

Module Obj.

Record SyllableObj := mkSyllable {
  syllable : str;
  jamo_initial : str;
  jamo_medial : str;
  jamo_final : str
}.

(** [syllables] is the Python list owned by the word form.  The list object
    is created in [__init__] and never handed out, so it is stored inline;
    its elements are references to [Syllable] objects. *)
Record WordFormObj := mkWordForm {
  string : str;
  jamos : str;
  syllables : list ref
}.

(** The attributes of a [Word]; [Noun], [Topic], [Subject], [Object],
    [Adjective] and [Verb] add none. *)
Record WordObj := mkWord {
  lemma : ref;
  root : ref;
  inflection : ref
}.

(** A [Conjugation] object holds one attribute, assigned once in [__init__]. *)
Record Conjugation := mkConjugation { word : ref }.

End Obj.
Import Obj.

Record heap := mkHeap {
  syls : list SyllableObj;
  wfs : list WordFormObj;
  words : list WordObj
}.

Definition empty_heap : heap := mkHeap [] [] [].

Definition set_syllable (v : str) (s : SyllableObj) : SyllableObj :=
  mkSyllable v (jamo_initial s) (jamo_medial s) (jamo_final s).
Definition set_jamo_initial (v : str) (s : SyllableObj) : SyllableObj :=
  mkSyllable (syllable s) v (jamo_medial s) (jamo_final s).
Definition set_jamo_medial (v : str) (s : SyllableObj) : SyllableObj :=
  mkSyllable (syllable s) (jamo_initial s) v (jamo_final s).
Definition set_jamo_final (v : str) (s : SyllableObj) : SyllableObj :=
  mkSyllable (syllable s) (jamo_initial s) (jamo_medial s) v.

Definition set_string (v : str) (w : WordFormObj) : WordFormObj :=
  mkWordForm v (jamos w) (syllables w).
Definition set_jamos (v : str) (w : WordFormObj) : WordFormObj :=
  mkWordForm (string w) v (syllables w).
(** [self.syllables.extend(new)] *)
Definition extend_syllables (new : list ref) (w : WordFormObj) : WordFormObj :=
  mkWordForm (string w) (jamos w) (syllables w ++ new).

Definition set_root (v : ref) (w : WordObj) : WordObj :=
  mkWord (lemma w) v (inflection w).
Definition set_inflection (v : ref) (w : WordObj) : WordObj :=
  mkWord (lemma w) (root w) v.

(** ** The monad of methods *)

Definition M (A : Type) : Type := heap → result A * heap.

#[global] Instance M_ret : MRet M := λ A a h, (Ok a, h).
#[global] Instance M_bind : MBind M := λ A B f m h,
  match m h with
  | (Ok a, h') => f a h'
  | (Raise e, h') => (Raise e, h')
  end.

Definition raise {A} (e : exn) : M A := λ h, (Raise e, h).

Definition lift {A} (r : result A) : M A := λ h, (r, h).

Definition alloc_syl (s : SyllableObj) : M ref := λ h,
  (Ok (length (syls h)), mkHeap (syls h ++ [s]) (wfs h) (words h)).
Definition alloc_wf (w : WordFormObj) : M ref := λ h,
  (Ok (length (wfs h)), mkHeap (syls h) (wfs h ++ [w]) (words h)).
Definition alloc_word (w : WordObj) : M ref := λ h,
  (Ok (length (words h)), mkHeap (syls h) (wfs h) (words h ++ [w])).

Definition get_syl (r : ref) : M SyllableObj := λ h,
  match syls h !! r with
  | Some s => (Ok s, h)
  | None => (Raise SystemError, h)
  end.
Definition get_wf (r : ref) : M WordFormObj := λ h,
  match wfs h !! r with
  | Some w => (Ok w, h)
  | None => (Raise SystemError, h)
  end.
Definition get_word (r : ref) : M WordObj := λ h,
  match words h !! r with
  | Some w => (Ok w, h)
  | None => (Raise SystemError, h)
  end.

Definition mod_syl (r : ref) (f : SyllableObj → SyllableObj) : M unit := λ h,
  match syls h !! r with
  | Some s => (Ok tt, mkHeap (<[r := f s]> (syls h)) (wfs h) (words h))
  | None => (Raise SystemError, h)
  end.
Definition mod_wf (r : ref) (f : WordFormObj → WordFormObj) : M unit := λ h,
  match wfs h !! r with
  | Some w => (Ok tt, mkHeap (syls h) (<[r := f w]> (wfs h)) (words h))
  | None => (Raise SystemError, h)
  end.
Definition mod_word (r : ref) (f : WordObj → WordObj) : M unit := λ h,
  match words h !! r with
  | Some w => (Ok tt, mkHeap (syls h) (wfs h) (<[r := f w]> (words h)))
  | None => (Raise SystemError, h)
  end.

(** ** class Syllable *)

Module Syllable.

Definition INITIAL_JAMOS : str :=
  Eval vm_compute in u "ㄱㄲㄴㄷㄸㄹㅁㅂㅃㅅㅆㅇㅈㅉㅊㅋㅌㅍㅎ".
Definition MEDIAL_JAMOS : str :=
  Eval vm_compute in u "ㅏㅐㅑㅒㅓㅔㅕㅖㅗㅘㅙㅚㅛㅜㅝㅞㅟㅠㅡㅢㅣ".
Definition FINAL_JAMOS : str :=
  Eval vm_compute in u " ㄱㄲㄳㄴㄵㄶㄷㄹㄺㄻㄼㄽㄾㄿㅀㅁㅂㅄㅅㅆㅇㅈㅊㅋㅌㅍㅎ".
Definition JAMO_NONE : str := Eval vm_compute in u " ".
Definition UNICODE_HANGUL_SYLLABLE_OFFSET : Z := 44032.
Definition UNICODE_INITIAL_JAMO_FACTOR : Z := 588.
Definition UNICODE_MEDIAL_JAMO_FACTOR : Z := 28.

Definition __init__ : M ref := alloc_syl (mkSyllable [] [] [] []).

Definition _decompose (self : ref) : M unit :=
  s ← get_syl self;
  o ← lift (ord (syllable s));
  let num := o - UNICODE_HANGUL_SYLLABLE_OFFSET in
  let n_initial := num `div` UNICODE_INITIAL_JAMO_FACTOR in
  let n_medial :=
    (num `mod` UNICODE_INITIAL_JAMO_FACTOR) `div` UNICODE_MEDIAL_JAMO_FACTOR in
  let n_final :=
    (num `mod` UNICODE_INITIAL_JAMO_FACTOR) `mod` UNICODE_MEDIAL_JAMO_FACTOR in
  ji ← lift (str_getitem INITIAL_JAMOS n_initial);
  mod_syl self (set_jamo_initial ji);;
  jm ← lift (str_getitem MEDIAL_JAMOS n_medial);
  mod_syl self (set_jamo_medial jm);;
  jf ← lift (str_getitem FINAL_JAMOS n_final);
  mod_syl self (set_jamo_final jf).

Definition _compose (self : ref) : M unit :=
  s ← get_syl self;
  i ← lift (str_index INITIAL_JAMOS (jamo_initial s));
  let n_initial := i * UNICODE_INITIAL_JAMO_FACTOR in
  m ← lift (str_index MEDIAL_JAMOS (jamo_medial s));
  let n_medial := m * UNICODE_MEDIAL_JAMO_FACTOR in
  n_final ← lift (str_index FINAL_JAMOS (jamo_final s));
  c ← lift (chr (n_initial + n_medial + n_final + UNICODE_HANGUL_SYLLABLE_OFFSET));
  mod_syl self (set_syllable c).

Definition from_syllable (syllable : str) : M ref :=
  instance ← __init__;
  mod_syl instance (set_syllable syllable);;
  _decompose instance;;
  mret instance.

Definition from_jamos (jamo_initial jamo_medial jamo_final : str) : M ref :=
  instance ← __init__;
  mod_syl instance (set_jamo_initial jamo_initial);;
  mod_syl instance (set_jamo_medial jamo_medial);;
  mod_syl instance (set_jamo_final jamo_final);;
  _compose instance;;
  mret instance.

Definition append (self : ref) (jamo_final : str) : M unit :=
  s ← get_syl self;
  if bool_decide (Obj.jamo_final s ≠ JAMO_NONE) then raise ValueError
  else
    mod_syl self (set_jamo_final jamo_final);;
    _compose self.

Definition endswith (self : ref) (jamo : str) : M bool :=
  s ← get_syl self;
  if bool_decide (Obj.jamo_final s ≠ u " ") then
    mret (bool_decide (Obj.jamo_final s = jamo))
  else mret (bool_decide (Obj.jamo_medial s = jamo)).

(** The class of an object is not kept in the store: [cls] stands for
    [self.__class__.__name__], here and in the other [__repr__]. *)
Definition __repr__ (cls : str) (self : ref) : M str :=
  s ← get_syl self;
  mret (u "<" ++ cls ++ u " " ++ syllable s ++ u " (" ++ Obj.jamo_initial s
        ++ u "," ++ Obj.jamo_medial s ++ u "," ++ Obj.jamo_final s ++ u ")>").

End Syllable.

(** ** class WordForm *)

Module WordForm.

Definition _build_jamo_sequence (self : ref) : M unit :=
  w ← get_wf self;
  jamos ← mapM (λ r : ref,
                  syllable ← get_syl r;
                  mret ([jamo_initial syllable; jamo_medial syllable] ++
                        (if bool_decide
                              (jamo_final syllable ≠ Syllable.JAMO_NONE)
                         then [jamo_final syllable] else [])))
               (syllables w);
  mod_wf self (set_jamos (join (concat jamos))).

Definition _syllabes_to_word (self : ref) : M unit :=
  w ← get_wf self;
  parts ← mapM (λ r : ref, s ← get_syl r; mret (syllable s)) (syllables w);
  mod_wf self (set_string (join parts)).

(** [[Syllable.from_syllable(c) for c in text]] *)
Definition decode_each (text : str) : M (list ref) :=
  mapM (λ c : Z, Syllable.from_syllable [c]) text.

Definition __init__ (string : str) : M ref :=
  syllables ← decode_each string;
  self ← alloc_wf (mkWordForm string [] syllables);
  _build_jamo_sequence self;;
  mret self.

Definition copy (self : ref) : M ref :=
  w ← get_wf self;
  __init__ (string w).

Definition append (self : ref) (suffix : str) (merge_syllables : bool) : M ref :=
  (if merge_syllables then
     c0 ← lift (str_getitem suffix 0);
     (if negb (str_contains c0 Syllable.INITIAL_JAMOS) then raise ValueError
      else
        w ← get_wf self;
        last ← lift (list_getitem (syllables w) (-1));
        Syllable.append last c0;;
        new ← decode_each (drop 1 suffix);
        mod_wf self (extend_syllables new))
   else
     new ← decode_each suffix;
     mod_wf self (extend_syllables new));;
  _build_jamo_sequence self;;
  _syllabes_to_word self;;
  mret self.

Definition _repr_word (cls : str) (self : ref) : M str :=
  w ← get_wf self;
  mret (u "<" ++ cls ++ u " " ++ Obj.string w ++ u ">").

Definition _repr_jamo_sequence (cls : str) (self : ref) : M str :=
  w ← get_wf self;
  mret (u "<" ++ cls ++ u " " ++ jamos w ++ u ">").

(** The format is [<%s "%s" %s>]; 34 is the code point of the double
    quote. *)
Definition __repr__ (cls : str) (self : ref) : M str :=
  w ← get_wf self;
  mret (u "<" ++ cls ++ u " " ++ [34] ++ Obj.string w ++ [34] ++ u " "
        ++ jamos w ++ u ">").

End WordForm.

(** ** class Word and its subclasses *)

Module Word.

Definition __init__ (lemma : str) : M ref :=
  l ← WordForm.__init__ lemma;
  r ← WordForm.__init__ lemma;
  i ← WordForm.__init__ lemma;
  alloc_word (mkWord l r i).

Definition copy (self : ref) : M ref :=
  me ← get_word self;
  l ← get_wf (lemma me);
  word ← __init__ (string l);
  r ← WordForm.copy (root me);
  mod_word word (set_root r);;
  i ← WordForm.copy (inflection me);
  mod_word word (set_inflection i);;
  mret word.

End Word.

(** The two module-level tuples of the script. *)
Definition hangul_vowels : list str :=
  Eval vm_compute in map (λ c, [c]) (u "ㅏㅐㅑㅒㅓㅔㅕㅖㅗㅘㅙㅚㅛㅜㅝㅞㅟㅠㅡㅢㅣ").
Definition hangul_consonants : list str :=
  Eval vm_compute in map (λ c, [c]) (u "ㄱㄲㄳㄴㄵㄶㄷㄹㄺㄻㄼㄽㄾㄿㅀㅁㅂㅄㅅㅆㅇㅈㅊㅋㅌㅍㅎ").

Module Noun.
Definition __init__ (lemma : str) : M ref := Word.__init__ lemma.

(** [%s] of a word form is its [__repr__]; the forms of a word are
    instances of [WordForm] itself. *)
Definition __repr__ (cls : str) (self : ref) : M str :=
  me ← get_word self;
  l ← WordForm.__repr__ (u "WordForm") (Obj.lemma me);
  i ← WordForm.__repr__ (u "WordForm") (inflection me);
  mret (u "<" ++ cls ++ u " " ++ l ++ u " = " ++ i ++ u ">").
End Noun.

(** [Noun.__init__(self, word.lemma.string)] followed by the choice of the
    particle on [self.root.jamos]. *)
Definition particle_init (word : ref) (after_vowel otherwise : str) : M ref :=
  arg ← get_word word;
  l ← get_wf (lemma arg);
  self ← Noun.__init__ (string l);
  me ← get_word self;
  r ← get_wf (root me);
  (if endswith_any (jamos r) hangul_vowels
   then WordForm.append (inflection me) after_vowel false
   else WordForm.append (inflection me) otherwise false);;
  mret self.

Module Topic.
Definition __init__ (word : ref) : M ref := particle_init word (u "는") (u "은").
End Topic.

Module Subject.
Definition __init__ (word : ref) : M ref := particle_init word (u "가") (u "이").
End Subject.

Module Object.
Definition __init__ (word : ref) : M ref := particle_init word (u "를") (u "을").
End Object.

(** [Adjective.__init__] and [Verb.__init__] have the same body. *)
Definition predicate_init (lemma : str) : M ref :=
  self ← Word.__init__ lemma;
  me ← get_word self;
  l ← get_wf (Obj.lemma me);
  if str_endswith (string l) (u "다") then
    l ← get_wf (Obj.lemma me);
    r ← WordForm.__init__ (take (length (string l) - 1) (string l));
    mod_word self (set_root r);;
    mret self
  else raise ValueError.

(** [Adjective.__repr__] and [Verb.__repr__] have the same body too. *)
Definition predicate_repr (cls : str) (self : ref) : M str :=
  me ← get_word self;
  l ← get_wf (Obj.lemma me);
  r ← get_wf (root me);
  mret (u "<" ++ cls ++ u " " ++ string l ++ u " root(" ++ string r ++ u ")>").

Module Adjective.
Definition __init__ (lemma : str) : M ref := predicate_init lemma.
Definition __repr__ (cls : str) (self : ref) : M str := predicate_repr cls self.
End Adjective.

Module Verb.
Definition __init__ (lemma : str) : M ref := predicate_init lemma.
Definition __repr__ (cls : str) (self : ref) : M str := predicate_repr cls self.
End Verb.

(** ** Conjugations *)

Module Conjugation.

Definition __repr__ (cls : str) (self : Obj.Conjugation) : M str :=
  me ← get_word (word self);
  i ← get_wf (inflection me);
  l ← get_wf (lemma me);
  mret (u "<" ++ cls ++ u " " ++ string i ++ u " lemma(" ++ string l ++ u ")>").

End Conjugation.

Module PresentPolite.

Definition __init__ (word : ref) : M Conjugation :=
  w ← Word.copy word;
  me ← get_word w;
  i ← WordForm.copy (root me);
  mod_word w (set_inflection i);;
  me ← get_word w;
  r ← get_wf (root me);
  (if endswith_any (jamos r) hangul_vowels
   then WordForm.append (inflection me) (u "ㅂ니다") true
   else WordForm.append (inflection me) (u "습니다") false);;
  mret (mkConjugation w).

End PresentPolite.

Module PresentTense.

Definition __init__ (word : ref) : M Conjugation :=
  w ← Word.copy word;
  mret (mkConjugation w).

Definition informalLow (self : Conjugation) : M unit :=
  me ← get_word (word self);
  i ← WordForm.copy (root me);
  mod_word (word self) (set_inflection i);;
  me ← get_word (word self);
  r ← get_wf (root me);
  (if endswith_any (jamos r) hangul_consonants
   then WordForm.append (inflection me) (u "는다") false
   else WordForm.append (inflection me) (u "ㄴ다") true);;
  mret tt.

End PresentTense.

Module PastTense.

Definition __init__ (word : ref) : M Conjugation :=
  w ← Word.copy word;
  mret (mkConjugation w).

(** The name [i] is bound nowhere at module level: looking it up raises
    [NameError]. *)
Definition global_i : result Z := Raise NameError.

(** [target[idx] = v] on a [str]: strings do not support item assignment. *)
Definition str_setitem (target : str) (idx : Z) (v : str) : result unit :=
  Raise TypeError.

(** [self.word.inflection.jamos[-i] = v] *)
Definition assign_inflection_jamo (self : Conjugation) (v : str) : M unit :=
  me ← get_word (word self);
  infl ← get_wf (inflection me);
  i ← lift global_i;
  lift (str_setitem (jamos infl) (- i) v).

Definition _build_base_inflection (self : Conjugation) : M unit :=
  me ← get_word (word self);
  r ← get_wf (root me);
  if str_endswith (string r) (u "하") then mret tt
  else if endswith_any (jamos r) [u "ㅏ"; u "ㅗ"; u "ㅑ"; u "ㅛ"] then
    (if str_endswith (jamos r) (u "ㅏ") then mret tt else mret tt);;
    (if str_endswith (jamos r) (u "ㅗ")
     then assign_inflection_jamo self (u "ㅘ") else mret tt)
  else
    (if str_endswith (jamos r) (u "ㅜ")
     then assign_inflection_jamo self (u "ㅝ") else mret tt);;
    (if str_endswith (jamos r) (u "ㅣ")
     then assign_inflection_jamo self (u "ㅕ") else mret tt);;
    (if str_endswith (jamos r) (u "ㅓ") then mret tt else mret tt);;
    (if str_endswith (jamos r) (u "ㅕ")
     then assign_inflection_jamo self (u "ㅕ") else mret tt).

End PastTense.

(** Reading a word back: the surface string and jamo sequence of a form. *)
Definition surface (h : heap) (r : ref) : option str := string <$> wfs h !! r.
Definition jamo_sequence (h : heap) (r : ref) : option str := jamos <$> wfs h !! r.
Definition inflection_surface (h : heap) (w : ref) : option str :=
  words h !! w ≫= λ me, surface h (inflection me).
Definition root_surface (h : heap) (w : ref) : option str :=
  words h !! w ≫= λ me, surface h (root me).
Definition lemma_surface (h : heap) (w : ref) : option str :=
  words h !! w ≫= λ me, surface h (lemma me).

Definition root_jamos (h : heap) (w : ref) : option str :=
  words h !! w ≫= λ me, jamo_sequence h (root me).

Definition run {A} (m : M A) : result A * heap := m empty_heap.

(** The inflection a script produces, run from the empty store. *)
Definition inflection_of (script : M ref) : option str :=
  match run script with
  | (Ok w, h) => inflection_surface h w
  | (Raise _, _) => None
  end.

(** ** What the codec computes, in closed form *)

(** The code points [from_syllable] accepts: the catalogue lookup
    [INITIAL_JAMOS[n_initial]] succeeds for [-19 <= n_initial < 19]. *)
Definition decodes (c : Z) : bool := (32860 <=? c) && (c <? 55204).

(** The block of composed syllables, [0xAC00] and the 11172 code points
    from it. *)
Definition in_block (c : Z) : Prop := 44032 ≤ c < 44032 + 11172.

Definition jamo_at (catalog : str) (n : Z) : str :=
  match str_getitem catalog n with
  | Ok j => j
  | Raise _ => []
  end.

(** The object [from_syllable] builds for an accepted character. *)
Definition decoded (c : Z) : SyllableObj :=
  let num := c - Syllable.UNICODE_HANGUL_SYLLABLE_OFFSET in
  mkSyllable [c]
    (jamo_at Syllable.INITIAL_JAMOS (num `div` 588))
    (jamo_at Syllable.MEDIAL_JAMOS ((num `mod` 588) `div` 28))
    (jamo_at Syllable.FINAL_JAMOS ((num `mod` 588) `mod` 28)).

(** The character [_compose] computes from the jamos of a syllable. *)
Definition composed (s : SyllableObj) : result str :=
  match str_index Syllable.INITIAL_JAMOS (jamo_initial s) with
  | Raise e => Raise e
  | Ok i =>
    match str_index Syllable.MEDIAL_JAMOS (jamo_medial s) with
    | Raise e => Raise e
    | Ok m =>
      match str_index Syllable.FINAL_JAMOS (jamo_final s) with
      | Raise e => Raise e
      | Ok f => chr (i * 588 + m * 28 + f + 44032)
      end
    end
  end.

(** What [_build_jamo_sequence] collects for one syllable, and the two
    strings a word form derives from its syllables. *)
Definition syllable_jamos (s : SyllableObj) : list str :=
  [jamo_initial s; jamo_medial s] ++
  (if bool_decide (jamo_final s ≠ Syllable.JAMO_NONE) then [jamo_final s] else []).

Definition flat_jamos (ss : list SyllableObj) : str :=
  join (concat (map syllable_jamos ss)).

Definition surface_of (ss : list SyllableObj) : str := join (map syllable ss).

(** The objects [decode_each] leaves in the store: one decoded syllable per
    accepted character, up to and including the blank instance on which
    [_decompose] raised. *)
Fixpoint attempted (text : str) : list SyllableObj :=
  match text with
  | [] => []
  | c :: text' =>
    if decodes c then decoded c :: attempted text'
    else [mkSyllable [c] [] [] []]
  end.

(** The syllable objects a list of references names. *)
Definition read_syls (h : heap) (rs : list ref) : option (list SyllableObj) :=
  mapM (λ r : ref, syls h !! r) rs.

(** The word form [WordForm(text)] builds, its syllables allocated from
    address [first] on. *)
Definition built (first : ref) (text : str) : WordFormObj :=
  mkWordForm text (flat_jamos (map decoded text)) (seq first (length text)).

(** The word form whose two strings are derived from the syllables [ss]. *)
Definition derived (ss : list SyllableObj) (refs : list ref) : WordFormObj :=
  mkWordForm (surface_of ss) (flat_jamos ss) refs.

(** The consonants of the final catalogue: every entry but the sentinel at
    position 0. *)
Definition final_consonants : str := drop 1 Syllable.FINAL_JAMOS.

Definition starts_with_final_consonant (suffix : str) : Prop :=
  ∃ c0 rest, suffix = c0 :: rest ∧ c0 ∈ final_consonants.

(** The first character of [suffix] is in the catalogue the guard of
    [WordForm.append] reads, [INITIAL_JAMOS], and in the one [_compose]
    looks the final up in. *)
Definition starts_with_merge_consonant (suffix : str) : Prop :=
  ∃ c0 rest, suffix = c0 :: rest ∧
    c0 ∈ Syllable.INITIAL_JAMOS ∧ c0 ∈ final_consonants.

(** The state [h'] a successful [append(suffix, True)] on the word form
    [w] at [self] leaves, starting from [h]: the last syllable [s] of [w]
    had no final and now carries the first character of [suffix] as its
    final, its character composed again; the other characters of [suffix]
    were decoded into new syllables at the end of the list; both strings of
    the word form are derived from the syllables as they now are. *)
Definition merged (h h' : heap) (self : ref) (w : WordFormObj) (suffix : str)
    : Prop :=
  ∃ c0 rest pre last s s' ss',
    suffix = c0 :: rest ∧
    syllables w = pre ++ [last] ∧
    syls h !! last = Some s ∧
    jamo_final s = Syllable.JAMO_NONE ∧
    jamo_initial s' = jamo_initial s ∧ jamo_medial s' = jamo_medial s ∧
    jamo_final s' = [c0] ∧
    composed s' = Ok (syllable s') ∧
    syls h' = <[last := s']> (syls h) ++ map decoded rest ∧
    forallb decodes rest = true ∧
    let refs := syllables w ++ seq (length (syls h)) (length rest) in
    read_syls h' refs = Some ss' ∧
    wfs h' = <[self := derived ss' refs]> (wfs h) ∧
    words h' = words h.

(** The store after allocations. *)
Definition new_syls (ss : list SyllableObj) (h : heap) : heap :=
  mkHeap (syls h ++ ss) (wfs h) (words h).
Definition new_wf (w : WordFormObj) (h : heap) : heap :=
  mkHeap (syls h) (wfs h ++ [w]) (words h).
Definition new_word (w : WordObj) (h : heap) : heap :=
  mkHeap (syls h) (wfs h) (words h ++ [w]).

(** The store with one object replaced. *)
Definition put_syl (r : ref) (s : SyllableObj) (h : heap) : heap :=
  mkHeap (<[r := s]> (syls h)) (wfs h) (words h).
Definition put_wf (r : ref) (w : WordFormObj) (h : heap) : heap :=
  mkHeap (syls h) (<[r := w]> (wfs h)) (words h).
Definition put_word (r : ref) (w : WordObj) (h : heap) : heap :=
  mkHeap (syls h) (wfs h) (<[r := w]> (words h)).

(** The store after [WordForm(text)] and after [Word(lemma)] have run on
    accepted text. *)
Definition wf_store (text : str) (h : heap) : heap :=
  new_wf (built (length (syls h)) text) (new_syls (map decoded text) h).

Definition word_store (lemma : str) (h : heap) : heap :=
  let h1 := wf_store lemma h in
  let h2 := wf_store lemma h1 in
  let h3 := wf_store lemma h2 in
  new_word (mkWord (length (wfs h)) (length (wfs h1)) (length (wfs h2))) h3.


(** The classifier of the specification, [ends_with_unit]: the trailing
    syllable of the word form is asked whether it ends with [unit], which
    [Syllable.endswith] answers from its final, or from its medial when it
    has no final. *)
Definition ends_with_unit (self : ref) (unit : str) : M bool :=
  w ← get_wf self;
  last ← lift (list_getitem (syllables w) (-1));
  Syllable.endswith last unit.

(** The answer of a test run in [h]; a test that raises answers nothing. *)
Definition holds (test : M bool) (h : heap) : bool :=
  match (test h).1 with
  | Ok b => b
  | Raise _ => false
  end.

(** The jamos of a syllable are single characters. *)
Definition one_char_jamos (s : SyllableObj) : Prop :=
  length (jamo_initial s) = 1%nat ∧ length (jamo_medial s) = 1%nat ∧
  length (jamo_final s) = 1%nat.

(** The stems [_build_base_inflection] has no contraction for: the stem of
    the auxiliary, and the stems whose jamo sequence ends with none of the
    eight vowels of its two branches. *)
Definition outside_table (r : WordFormObj) : Prop :=
  str_endswith (string r) (u "하") = true ∨
  endswith_any (jamos r)
    [u "ㅏ"; u "ㅗ"; u "ㅑ"; u "ㅛ"; u "ㅜ"; u "ㅣ"; u "ㅓ"; u "ㅕ"] = false.

(** The past tense of a verb, as a script. *)
Definition past_tense_of (lemma : str) : M unit :=
  v ← Verb.__init__ lemma;
  c ← PastTense.__init__ v;
  PastTense._build_base_inflection c.

(** Every object of [h] is still there, unchanged, in [h']. *)
Definition heap_prefix (h h' : heap) : Prop :=
  syls h `prefix_of` syls h' ∧ wfs h `prefix_of` wfs h' ∧
  words h `prefix_of` words h'.

(** The round trips of the codec, as programs. *)
Definition encode_decoded (ch : str) : M str :=
  d ← Syllable.from_syllable ch;
  s ← get_syl d;
  e ← Syllable.from_jamos (jamo_initial s) (jamo_medial s) (jamo_final s);
  s' ← get_syl e;
  mret (syllable s').

Definition decode_encoded (i m f : str) : M (str * str * str) :=
  e ← Syllable.from_jamos i m f;
  s ← get_syl e;
  d ← Syllable.from_syllable (syllable s);
  s' ← get_syl d;
  mret (jamo_initial s', jamo_medial s', jamo_final s').

(** Build a word form, compose every syllable again from its jamos and join
    the result. *)
Definition reencoded (text : str) : M str :=
  w ← WordForm.__init__ text;
  wf ← get_wf w;
  mapM Syllable._compose (syllables wf);;
  WordForm._syllabes_to_word w;;
  wf' ← get_wf w;
  mret (string wf').

(** What the polite present is for a predicate of the store: a conjugation
    [p] around a new word that keeps lemma and root and whose inflection is
    the root with the polite ending, merged into the last syllable of the
    root when the root ends with a vowel. *)
Definition politely_conjugated (h h' : heap) (l r : WordFormObj)
    (p : Conjugation) : Prop :=
  heap_prefix h h' ∧ (length (words h) ≤ word p)%nat ∧
  lemma_surface h' (word p) = Some (string l) ∧
  root_surface h' (word p) = Some (string r) ∧
  root_jamos h' (word p) = Some (flat_jamos (map decoded (string r))) ∧
  if endswith_any (flat_jamos (map decoded (string r))) hangul_vowels
  then ∃ stem lastc c',
      string r = stem ++ [lastc] ∧
      jamo_final (decoded lastc) = Syllable.JAMO_NONE ∧
      decoded c' = set_syllable [c'] (set_jamo_final (u "ㅂ") (decoded lastc)) ∧
      inflection_surface h' (word p) = Some (stem ++ [c'] ++ u "니다")
  else inflection_surface h' (word p) = Some (string r ++ u "습니다").

(** The state of a word form between two calls: its syllables are objects
    of the store with one-character jamos, and its two strings are the ones
    derived from them. *)
Definition well_formed (h : heap) (self : ref) : Prop :=
  ∃ w ss,
    wfs h !! self = Some w ∧ read_syls h (syllables w) = Some ss ∧
    string w = surface_of ss ∧ jamos w = flat_jamos ss ∧
    Forall one_char_jamos ss.

(** What every call on a word form keeps, whatever its outcome: the
    syllables of the form are objects of the store with one-character
    jamos.  Nothing is asked of the two strings of the form. *)
Definition sound_syllables (h : heap) (self : ref) : Prop :=
  ∃ w ss,
    wfs h !! self = Some w ∧ read_syls h (syllables w) = Some ss ∧
    Forall one_char_jamos ss.

(** The calls that end with [_build_jamo_sequence] on the word form they
    return: the constructor, and [append] on a word form of the store. *)
Definition builds_form (h : heap) (self : ref) (call : M ref) : Prop :=
  (∃ text, call = WordForm.__init__ text) ∨
  (∃ suffix merge,
     call = WordForm.append self suffix merge ∧ sound_syllables h self).

(** A merge append that fails early: before anything is written.  Either the
    suffix does not start with a consonant of the initial catalogue, which
    the guard of [append] tests, or the last syllable, if there is one,
    already has a final. *)
Definition fails_early (h : heap) (w : WordFormObj) (suffix : str) : Prop :=
  (∀ c0 rest, suffix = c0 :: rest → c0 ∉ Syllable.INITIAL_JAMOS) ∨
  (∀ last s, list_getitem (syllables w) (-1) = Ok last →
             syls h !! last = Some s → jamo_final s ≠ Syllable.JAMO_NONE).

(** ** Objects a store does not have

    Relative to a store [h0], an address is fresh when [h0] has no object
    there.  A later store is separated from [h0] when it still has every
    object of [h0] unchanged and none of its fresh objects refers to an
    object of [h0]. *)
Section Frame.

Variable h0 : heap.

Definition fresh_syl (r : ref) : Prop := (length (syls h0) ≤ r)%nat.
Definition fresh_wf (r : ref) : Prop := (length (wfs h0) ≤ r)%nat.
Definition fresh_word (r : ref) : Prop := (length (words h0) ≤ r)%nat.

Definition fresh_form (w : WordFormObj) : Prop := Forall fresh_syl (syllables w).

Definition fresh_refs (me : WordObj) : Prop :=
  fresh_wf (lemma me) ∧ fresh_wf (root me) ∧ fresh_wf (inflection me).

Definition sep (h : heap) : Prop :=
  heap_prefix h0 h ∧
  (∀ r w, wfs h !! r = Some w → fresh_wf r → fresh_form w) ∧
  (∀ r me, words h !! r = Some me → fresh_word r → fresh_refs me).

(** [m] keeps a store separated from [h0], and what it returns satisfies
    [Q]. *)
Definition preserves {A} (m : M A) (Q : A → Prop) : Prop :=
  ∀ h, sep h → sep (m h).2 ∧ ∀ a, (m h).1 = Ok a → Q a.

(** The stores reached from [h0] by building words, forms and conjugations
    from any object, and by changing only objects that [h0] does not have. *)
Inductive derives : heap → Prop :=
| derives_start : derives h0
| derives_word_form h text :
    derives h → derives (WordForm.__init__ text h).2
| derives_word_form_copy h form :
    derives h → derives (WordForm.copy form h).2
| derives_append h form suffix merge :
    derives h → fresh_wf form →
    derives (WordForm.append form suffix merge h).2
| derives_noun h lemma :
    derives h → derives (Noun.__init__ lemma h).2
| derives_verb h lemma :
    derives h → derives (Verb.__init__ lemma h).2
| derives_adjective h lemma :
    derives h → derives (Adjective.__init__ lemma h).2
| derives_copy h w :
    derives h → derives (Word.copy w h).2
| derives_topic h w :
    derives h → derives (Topic.__init__ w h).2
| derives_subject h w :
    derives h → derives (Subject.__init__ w h).2
| derives_object h w :
    derives h → derives (Object.__init__ w h).2
| derives_present_polite h w :
    derives h → derives (PresentPolite.__init__ w h).2
| derives_present_tense h w :
    derives h → derives (PresentTense.__init__ w h).2
| derives_informal_low h c :
    derives h → fresh_word (word c) →
    derives (PresentTense.informalLow c h).2
| derives_past_tense h w :
    derives h → derives (PastTense.__init__ w h).2
| derives_build_base_inflection h c :
    derives h → derives (PastTense._build_base_inflection c h).2.

End Frame.

(** ** The scripts of the module *)

(** [sep.join(parts)] *)
Fixpoint str_join (sep : str) (parts : list str) : str :=
  match parts with
  | [] => []
  | [p] => p
  | p :: ps => p ++ sep ++ str_join sep ps
  end.

(** The function [x_has_y] local to [stuff1]; [have] is the variable of
    [stuff1] it refers to. *)
Definition x_has_y (have x y : ref) : M str :=
  t ← Topic.__init__ x;
  tw ← get_word t;
  ti ← get_wf (inflection tw);
  s ← Subject.__init__ y;
  sw ← get_word s;
  si ← get_wf (inflection sw);
  p ← PresentPolite.__init__ have;
  pw ← get_word (word p);
  pi ← get_wf (inflection pw);
  mret (str_join (u " ") [string ti; string si; string pi]).

(** The loop at the end of the script.  Standard output is the list of the
    texts [print] was called with, oldest first; an exception ends the loop
    and keeps what was printed before it. *)
Definition conjugate_and_show (v : ref) : M str :=
  p ← PresentTense.__init__ v;
  PresentTense.informalLow p;;
  Conjugation.__repr__ (u "PresentTense") p.

Fixpoint script_loop (verbs : list ref) (out : list str) (h : heap)
    : result unit * list str * heap :=
  match verbs with
  | [] => (Ok tt, out, h)
  | v :: verbs' =>
    match conjugate_and_show v h with
    | (Ok line, h') => script_loop verbs' (out ++ [line]) h'
    | (Raise e, h') => (Raise e, out, h')
    end
  end.

(** The block under [if __name__ == '__main__'], after the two tuples. *)
Definition script : result unit * list str * heap :=
  match (eat ← Verb.__init__ (u "먹다");
         learn ← Verb.__init__ (u "베우다");
         mret [eat; learn]) empty_heap with
  | (Ok verbs, h) => script_loop verbs [] h
  | (Raise e, h) => (Raise e, [], h)
  end.

(** ** Word forms in closed form *)

(** The word form at [self] is in the state [WordForm(text)] builds: its
    string is [text], its syllables are distinct objects that hold the
    decoded characters of [text], its jamo sequence is theirs. *)
Definition represents (h : heap) (self : ref) (text : str) : Prop :=
  ∃ w, wfs h !! self = Some w ∧ string w = text ∧
       jamos w = flat_jamos (map decoded text) ∧
       NoDup (syllables w) ∧
       read_syls h (syllables w) = Some (map decoded text).

(** A character of the block without final consonant: such characters are
    28 code points apart. *)
Definition open_syllable (c : Z) : bool :=
  (c - Syllable.UNICODE_HANGUL_SYLLABLE_OFFSET) `mod`
    Syllable.UNICODE_MEDIAL_JAMO_FACTOR =? 0.

Definition ends_open (text : str) : bool :=
  match reverse text with
  | c :: _ => open_syllable c
  | [] => false
  end.

(** [text] with [n] added to its last code point. *)
Definition add_final (n : Z) (text : str) : str :=
  match reverse text with
  | c :: stem => reverse stem ++ [c + n]
  | [] => []
  end.

(** The position of a jamo in the final catalogue. *)
Definition final_position (x : Z) : Z :=
  match str_find Syllable.FINAL_JAMOS [x] with
  | Some n => Z.of_nat n
  | None => 0
  end.

(** The surface of the three particle-marked nouns and of the two present
    conjugations, from the surface of the root. *)
Definition marked (after_vowel otherwise : str) (text : str) : str :=
  text ++ if ends_open text then after_vowel else otherwise.

Definition polite_text (root : str) : str :=
  if ends_open root then add_final 17 root ++ u "니다" else root ++ u "습니다".

Definition informal_low_text (root : str) : str :=
  if ends_open root then add_final 4 root ++ u "다" else root ++ u "는다".

(** A predicate of the store ready to be conjugated: a word whose lemma
    and root are in the states the constructors build for the texts [tl]
    and [tr], the root made of characters of the block. *)
Definition predicate_of (h : heap) (v : ref) (tl tr : str) : Prop :=
  ∃ me ti,
    words h !! v = Some me ∧
    represents h (lemma me) tl ∧ represents h (root me) tr ∧
    represents h (inflection me) ti ∧
    forallb decodes tl = true ∧ Forall in_block tr ∧
    forallb decodes ti = true.

(** The three particle classes, each with the particle it attaches after a
    vowel and the one it attaches otherwise. *)
Definition particle_classes : list ((ref → M ref) * str * str) :=
  [(Topic.__init__, u "는", u "은");
   (Subject.__init__, u "가", u "이");
   (Object.__init__, u "를", u "을")].

(** What [Conjugation.__repr__] shows for an inflection and a lemma. *)
Definition shown (cls inflection lemma : str) : str :=
  u "<" ++ cls ++ u " " ++ inflection ++ u " lemma(" ++ lemma ++ u ")>".

(** ** tools/wiktionary_translator.py: class Document

    The table of contents of a parsed page.  The page itself belongs to the
    parser library; of each heading the methods below read three things,
    which is what a heading is here. *)

(** [s.index(sub, start)] for [0 <= start]: the first position from [start]
    on at which [sub] occurs; no position is found past the end of [s]. *)
Definition str_index_from (s sub : str) (start : nat) : result nat :=
  if (length s <? start)%nat then Raise ValueError
  else match str_find (drop start s) sub with
       | Some n => Ok (start + n)%nat
       | None => Raise ValueError
       end.

(** [l.pop()], for the list that is left. *)
Definition list_pop {A} (l : list A) : result (list A) :=
  match l with
  | [] => Raise IndexError
  | _ => Ok (take (length l - 1) l)
  end.

Module Document.
Section Nodes.

(** A tag of the parser library. *)
Variable node : Type.

(** A heading as [build_nodes_by_toc] reads it: [level] is
    [int(h.name.strip('h'))], from 1 to 6 for the tags the selector returns,
    [text] is [clean_text(h.text.strip())] and [tag] is [h] itself. *)
Record Heading := mkHeading { level : Z; text : str; tag : node }.

(** [soup] stands for what [self.soup.select('h1, h2, h3, h4, h5, h6')]
    returns; [nodes_by_toc] is the [OrderedDict], its items in insertion
    order. *)
Record DocumentObj := mkDocument {
  soup : list Heading;
  nodes_by_toc : list (str * node)
}.

Definition LEVEL_SEPARATOR : str := Eval vm_compute in u " // ".

Definition __init__ (soup : list Heading) : DocumentObj := mkDocument soup [].

(** [nodes[path] = h] on an [OrderedDict]: a key that is there keeps its
    place. *)
Fixpoint setitem (path : str) (h : node) (nodes : list (str * node))
    : list (str * node) :=
  match nodes with
  | [] => [(path, h)]
  | (k, v) :: nodes' =>
    if bool_decide (k = path) then (path, h) :: nodes'
    else (k, v) :: setitem path h nodes'
  end.

(** The body of the loop of [build_nodes_by_toc], over the headings that
    are left. *)
Fixpoint build_loop (headings : list Heading) (stack : list str)
    (last_level : Z) (nodes : list (str * node)) : result (list (str * node)) :=
  match headings with
  | [] => Ok nodes
  | h :: headings' =>
    let current_level := level h in
    match (if current_level =? last_level then list_pop stack else Ok stack) with
    | Raise e => Raise e
    | Ok stack1 =>
      match (if current_level <? last_level
             then match list_pop stack1 with
                  | Ok stack' => list_pop stack'
                  | Raise e => Raise e
                  end
             else Ok stack1) with
      | Raise e => Raise e
      | Ok stack2 =>
        let stack3 := stack2 ++ [text h] in
        let path := str_join LEVEL_SEPARATOR stack3 in
        build_loop headings' stack3 current_level (setitem path (tag h) nodes)
      end
    end
  end.

(** [self.nodes_by_toc] is assigned once the loop is over: an exception
    leaves the document as it was. *)
Definition build_nodes_by_toc (self : DocumentObj) : result DocumentObj :=
  match build_loop (soup self) [] 0 [] with
  | Ok nodes => Ok (mkDocument (soup self) nodes)
  | Raise e => Raise e
  end.

Definition get_toc (self : DocumentObj) : list str :=
  map fst (nodes_by_toc self).

(** The inner loop of [find_heading]: [start = h.index(p, start)] for each
    part in turn. *)
Fixpoint index_parts (h : str) (parts : list str) (start : nat) : result nat :=
  match parts with
  | [] => Ok start
  | p :: parts' =>
    match str_index_from h p start with
    | Ok start' => index_parts h parts' start'
    | Raise e => Raise e
    end
  end.

Fixpoint find_in (keys : list str) (parts : list str) : result str :=
  match keys with
  | [] => Raise ValueError
  | h :: keys' =>
    match index_parts h parts 0 with
    | Ok _ => Ok h
    | Raise ValueError => find_in keys' parts
    | Raise e => Raise e
    end
  end.

Definition find_heading (self : DocumentObj) (parts : list str) : result str :=
  find_in (get_toc self) parts.

End Nodes.

Arguments mkHeading {node}.
Arguments level {node}.
Arguments text {node}.
Arguments tag {node}.
Arguments mkDocument {node}.
Arguments soup {node}.
Arguments nodes_by_toc {node}.
Arguments __init__ {node}.
Arguments setitem {node}.
Arguments build_loop {node}.
Arguments build_nodes_by_toc {node}.
Arguments get_toc {node}.
Arguments find_heading {node}.

End Document.

(** [sub] occurs in [h] at position [n]. *)
Definition occurs_at (h sub : str) (n : nat) : Prop :=
  (n ≤ length h)%nat ∧ sub `prefix_of` drop n h.

(** The parts occur in [h] one after the other, each starting at or after
    the position where the one before starts, the first at or after
    [start]. *)
Fixpoint in_order_from (h : str) (parts : list str) (start : nat) : Prop :=
  match parts with
  | [] => True
  | p :: parts' =>
    ∃ n, (start ≤ n)%nat ∧ occurs_at h p n ∧ in_order_from h parts' n
  end.

(** The depth of the stack of [build_nodes_by_toc] after each heading, from
    the levels of the headings: one more when a heading is deeper than the
    one before it, the same when it is as deep, one less when it is less
    deep, however many levels it goes up. *)
Fixpoint depths (levels : list Z) (last_level : Z) (depth : Z) : list Z :=
  match levels with
  | [] => []
  | l :: levels' =>
    let depth' :=
      if l =? last_level then depth
      else if l <? last_level then depth - 1 else depth + 1 in
    depth' :: depths levels' l depth'
  end.

(** * Properties *)

(** ** The monad *)

Lemma bind_run {A B} (m : M A) (f : A → M B) (h : heap) :
  (m ≫= f) h =
  match m h with
  | (Ok a, h') => f a h'
  | (Raise e, h') => (Raise e, h')
  end.
Proof. reflexivity. Qed.

Lemma bind_ok {A B} (m : M A) (f : A → M B) h a h' :
  m h = (Ok a, h') → (m ≫= f) h = f a h'.
Proof. intros E. rewrite bind_run, E. reflexivity. Qed.

Lemma bind_raise {A B} (m : M A) (f : A → M B) h e h' :
  m h = (Raise e, h') → (m ≫= f) h = (Raise e, h').
Proof. intros E. rewrite bind_run, E. reflexivity. Qed.

Lemma new_syls_nil h : new_syls [] h = h.
Proof. destruct h. unfold new_syls. simpl. by rewrite app_nil_r. Qed.

Lemma new_syls_new_syls a b h : new_syls a (new_syls b h) = new_syls (b ++ a) h.
Proof. unfold new_syls. simpl. by rewrite app_assoc. Qed.

Lemma heap_prefix_new_syls ss h : heap_prefix h (new_syls ss h).
Proof. repeat split; simpl; try done. by apply prefix_app_r. Qed.

Lemma heap_prefix_new_wf w h : heap_prefix h (new_wf w h).
Proof. repeat split; simpl; try done. by apply prefix_app_r. Qed.

Lemma heap_prefix_new_word w h : heap_prefix h (new_word w h).
Proof. repeat split; simpl; try done. by apply prefix_app_r. Qed.

Lemma heap_prefix_refl h : heap_prefix h h.
Proof. by repeat split. Qed.

Lemma heap_prefix_trans h1 h2 h3 :
  heap_prefix h1 h2 → heap_prefix h2 h3 → heap_prefix h1 h3.
Proof.
  intros (?&?&?) (?&?&?). repeat split; by etrans.
Qed.

Lemma bind_lift {A B} (r : result A) (f : A → M B) (h : heap) :
  (lift r ≫= f) h =
  match r with
  | Ok a => f a h
  | Raise e => (Raise e, h)
  end.
Proof. by destruct r. Qed.

Lemma bind_ret {A B} (a : A) (f : A → M B) (h : heap) : (mret a ≫= f) h = f a h.
Proof. reflexivity. Qed.

Lemma ret_run {A} (a : A) (h : heap) : (mret a : M A) h = (Ok a, h).
Proof. reflexivity. Qed.

Lemma bind_raise_now {A B} (e : exn) (f : A → M B) (h : heap) :
  (raise e ≫= f) h = (Raise e, h).
Proof. reflexivity. Qed.

(** ** Python strings *)

Lemma list_getitem_ok {A} (l : list A) (i : Z) :
  - Z.of_nat (length l) ≤ i < Z.of_nat (length l) →
  ∃ a, list_getitem l i = Ok a.
Proof.
  intros Hi. unfold list_getitem.
  set (n := Z.of_nat (length l)) in *.
  set (k := if i <? 0 then i + n else i).
  assert (0 ≤ k < n) as Hk by (subst k; destruct (Z.ltb_spec i 0); lia).
  destruct (Z.ltb_spec k 0); [lia|].
  destruct (Z.leb_spec n k); [lia|]. simpl.
  destruct (lookup_lt_is_Some_2 l (Z.to_nat k)) as [a Ha]; [lia|].
  rewrite Ha. eauto.
Qed.

Lemma list_getitem_fail {A} (l : list A) (i : Z) :
  i < - Z.of_nat (length l) ∨ Z.of_nat (length l) ≤ i →
  list_getitem l i = Raise IndexError.
Proof.
  intros Hi. unfold list_getitem.
  set (n := Z.of_nat (length l)) in *.
  set (k := if i <? 0 then i + n else i).
  assert (k < 0 ∨ n ≤ k) as Hk by (subst k; destruct (Z.ltb_spec i 0); lia).
  destruct (Z.ltb_spec k 0); [done|].
  destruct (Z.leb_spec n k); [done|]. lia.
Qed.

Lemma str_getitem_jamo_at (catalog : str) (n : Z) :
  - Z.of_nat (length catalog) ≤ n < Z.of_nat (length catalog) →
  str_getitem catalog n = Ok (jamo_at catalog n).
Proof.
  intros Hn. unfold jamo_at, str_getitem.
  destruct (list_getitem_ok catalog n Hn) as [a ->]. reflexivity.
Qed.

Lemma str_getitem_fail (s : str) (i : Z) :
  i < - Z.of_nat (length s) ∨ Z.of_nat (length s) ≤ i →
  str_getitem s i = Raise IndexError.
Proof. intros Hi. unfold str_getitem. by rewrite list_getitem_fail. Qed.

(** ** The store *)

Lemma get_syl_run r h s : syls h !! r = Some s → get_syl r h = (Ok s, h).
Proof. intros E. unfold get_syl. by rewrite E. Qed.

Lemma get_wf_run r h w : wfs h !! r = Some w → get_wf r h = (Ok w, h).
Proof. intros E. unfold get_wf. by rewrite E. Qed.

Lemma get_word_run r h w : words h !! r = Some w → get_word r h = (Ok w, h).
Proof. intros E. unfold get_word. by rewrite E. Qed.

Lemma mod_syl_run r f h s :
  syls h !! r = Some s → mod_syl r f h = (Ok tt, put_syl r (f s) h).
Proof. intros E. unfold mod_syl. by rewrite E. Qed.

Lemma mod_wf_run r f h w :
  wfs h !! r = Some w → mod_wf r f h = (Ok tt, put_wf r (f w) h).
Proof. intros E. unfold mod_wf. by rewrite E. Qed.

Lemma mod_word_run r f h w :
  words h !! r = Some w → mod_word r f h = (Ok tt, put_word r (f w) h).
Proof. intros E. unfold mod_word. by rewrite E. Qed.

Lemma syls_put_syl_eq r s h x :
  syls h !! r = Some x → syls (put_syl r s h) !! r = Some s.
Proof. intros E. simpl. apply list_lookup_insert_eq. by eapply lookup_lt_Some. Qed.

Lemma put_syl_put_syl r s s' h : put_syl r s (put_syl r s' h) = put_syl r s h.
Proof. unfold put_syl. simpl. by rewrite list_insert_insert_eq. Qed.

Lemma mod_syl_put r f s h x :
  syls h !! r = Some x →
  mod_syl r f (put_syl r s h) = (Ok tt, put_syl r (f s) h).
Proof.
  intros E. erewrite mod_syl_run by (eapply syls_put_syl_eq, E).
  by rewrite put_syl_put_syl.
Qed.

Lemma put_syl_id r s h : syls h !! r = Some s → put_syl r s h = h.
Proof. intros E. destruct h. unfold put_syl. simpl in *. by rewrite list_insert_id. Qed.

Lemma put_syl_new_last s x h :
  put_syl (length (syls h)) s (new_syls [x] h) = new_syls [s] h.
Proof.
  unfold put_syl, new_syls. simpl. f_equal.
  rewrite insert_app_r_alt by lia. by rewrite Nat.sub_diag.
Qed.

Lemma alloc_syl_run s h : alloc_syl s h = (Ok (length (syls h)), new_syls [s] h).
Proof. reflexivity. Qed.

Lemma alloc_wf_run w h : alloc_wf w h = (Ok (length (wfs h)), new_wf w h).
Proof. reflexivity. Qed.

Lemma alloc_word_run w h : alloc_word w h = (Ok (length (words h)), new_word w h).
Proof. reflexivity. Qed.

Lemma syls_new_last x h : syls (new_syls [x] h) !! length (syls h) = Some x.
Proof. simpl. by rewrite list_lookup_middle. Qed.

(** ** The codec *)

Lemma decodes_range c :
  decodes c = true ↔ -19 ≤ (c - 44032) `div` 588 < 19.
Proof.
  unfold decodes. rewrite andb_true_iff, Z.leb_le, Z.ltb_lt.
  split; intros; Z.div_mod_to_equations; lia.
Qed.

Lemma _decompose_spec r h s c :
  syls h !! r = Some s → syllable s = [c] →
  Syllable._decompose r h =
  if decodes c
  then (Ok tt, put_syl r (mkSyllable [c] (jamo_initial (decoded c))
                            (jamo_medial (decoded c)) (jamo_final (decoded c))) h)
  else (Raise IndexError, h).
Proof.
  intros Hr Hs. unfold Syllable._decompose.
  rewrite (bind_ok _ _ _ _ _ (get_syl_run _ _ _ Hr)).
  rewrite Hs, bind_lift. cbn [ord]. cbv zeta.
  unfold Syllable.UNICODE_HANGUL_SYLLABLE_OFFSET,
    Syllable.UNICODE_INITIAL_JAMO_FACTOR, Syllable.UNICODE_MEDIAL_JAMO_FACTOR.
  rewrite bind_lift.
  destruct (decodes c) eqn:Hd.
  - apply decodes_range in Hd.
    rewrite (str_getitem_jamo_at Syllable.INITIAL_JAMOS) by (simpl; lia).
    rewrite (bind_ok _ _ _ _ _ (mod_syl_run _ _ _ _ Hr)), bind_lift.
    rewrite (str_getitem_jamo_at Syllable.MEDIAL_JAMOS)
      by (simpl; Z.div_mod_to_equations; lia).
    rewrite (bind_ok _ _ _ _ _ (mod_syl_put _ _ _ _ _ Hr)), bind_lift.
    rewrite (str_getitem_jamo_at Syllable.FINAL_JAMOS)
      by (simpl; Z.div_mod_to_equations; lia).
    rewrite (mod_syl_put _ _ _ _ _ Hr). destruct s; simpl in *. subst. reflexivity.
  - rewrite str_getitem_fail; [done|].
    assert (¬ (-19 ≤ (c - 44032) `div` 588 < 19)) as Hn.
    { rewrite <- decodes_range. congruence. }
    simpl. lia.
Qed.

Lemma _compose_spec r h s :
  syls h !! r = Some s →
  Syllable._compose r h =
  match composed s with
  | Ok c => (Ok tt, put_syl r (set_syllable c s) h)
  | Raise e => (Raise e, h)
  end.
Proof.
  intros Hr. unfold Syllable._compose, composed.
  rewrite (bind_ok _ _ _ _ _ (get_syl_run _ _ _ Hr)), bind_lift.
  destruct (str_index Syllable.INITIAL_JAMOS (jamo_initial s)) as [i|e]; [|done].
  cbv zeta. rewrite bind_lift.
  destruct (str_index Syllable.MEDIAL_JAMOS (jamo_medial s)) as [m|e]; [|done].
  rewrite bind_lift.
  destruct (str_index Syllable.FINAL_JAMOS (jamo_final s)) as [f|e]; [|done].
  rewrite bind_lift.
  unfold Syllable.UNICODE_HANGUL_SYLLABLE_OFFSET,
    Syllable.UNICODE_INITIAL_JAMO_FACTOR, Syllable.UNICODE_MEDIAL_JAMO_FACTOR.
  destruct (chr _) as [c|e]; [|done].
  by apply mod_syl_run.
Qed.

Lemma from_syllable_spec c h :
  Syllable.from_syllable [c] h =
  if decodes c
  then (Ok (length (syls h)), new_syls [decoded c] h)
  else (Raise IndexError, new_syls [mkSyllable [c] [] [] []] h).
Proof.
  unfold Syllable.from_syllable, Syllable.__init__.
  rewrite (bind_ok _ _ _ _ _ (alloc_syl_run _ _)).
  rewrite (bind_ok _ _ _ _ _ (mod_syl_run _ _ _ _ (syls_new_last _ _))).
  rewrite put_syl_new_last. cbn [set_syllable syllable jamo_initial jamo_medial jamo_final].
  rewrite bind_run.
  rewrite (_decompose_spec _ _ (mkSyllable [c] [] [] []) c (syls_new_last _ _) eq_refl).
  destruct (decodes c); [|done].
  rewrite put_syl_new_last. reflexivity.
Qed.

Lemma from_jamos_spec i m f h :
  Syllable.from_jamos i m f h =
  match composed (mkSyllable [] i m f) with
  | Ok c => (Ok (length (syls h)), new_syls [mkSyllable c i m f] h)
  | Raise e => (Raise e, new_syls [mkSyllable [] i m f] h)
  end.
Proof.
  unfold Syllable.from_jamos, Syllable.__init__.
  rewrite (bind_ok _ _ _ _ _ (alloc_syl_run _ _)).
  rewrite (bind_ok _ _ _ _ _ (mod_syl_run _ _ _ _ (syls_new_last _ _))).
  rewrite put_syl_new_last.
  rewrite (bind_ok _ _ _ _ _ (mod_syl_run _ _ _ _ (syls_new_last _ _))).
  rewrite put_syl_new_last.
  rewrite (bind_ok _ _ _ _ _ (mod_syl_run _ _ _ _ (syls_new_last _ _))).
  rewrite put_syl_new_last.
  cbn [set_jamo_initial set_jamo_medial set_jamo_final
       syllable jamo_initial jamo_medial jamo_final].
  rewrite bind_run, (_compose_spec _ _ _ (syls_new_last _ _)).
  destruct (composed _) as [c|e]; [|done].
  rewrite put_syl_new_last. reflexivity.
Qed.

(** *** Looking a single character up in a catalogue *)

Lemma startswith_char s x :
  startswith s [x] = match s with b :: _ => x =? b | [] => false end.
Proof. destruct s as [|b s]; simpl; [done|]. destruct s; by rewrite andb_true_r. Qed.

Lemma str_find_char_lookup s x n : str_find s [x] = Some n → s !! n = Some x.
Proof.
  revert n. induction s as [|b s IH]; intros n; simpl; [done|].
  destruct s as [|b' s'] eqn:Es; rewrite andb_true_r.
  - destruct (Z.eqb_spec x b); simpl; [|done]. intros [= <-]. by subst.
  - rewrite <- Es in *. destruct (Z.eqb_spec x b).
    + intros [= <-]. by subst.
    + destruct (str_find s [x]) as [k|] eqn:Ek; simpl; [|done].
      intros [= <-]. simpl. by apply IH.
Qed.

Lemma str_find_char_elem s x : x ∈ s → is_Some (str_find s [x]).
Proof.
  induction s as [|b s IH]; intros Hx; [by apply elem_of_nil in Hx|].
  cbn [str_find]. rewrite startswith_char.
  destruct (Z.eqb_spec x b); [by eexists|].
  apply elem_of_cons in Hx as [?|Hx]; [done|].
  destruct (IH Hx) as [k ->]. by eexists.
Qed.

Lemma str_find_char_not_elem s x : x ∉ s → str_find s [x] = None.
Proof.
  induction s as [|b s IH]; intros Hx; [done|].
  cbn [str_find]. rewrite startswith_char.
  apply not_elem_of_cons in Hx as [Hxb Hx].
  destruct (Z.eqb_spec x b); [done|]. by rewrite IH.
Qed.

Lemma str_find_char_NoDup s x (n : nat) :
  NoDup s → s !! n = Some x → str_find s [x] = Some n.
Proof.
  revert n. induction s as [|b s IH]; intros n Hnd Hn; [done|].
  cbn [str_find]. rewrite startswith_char.
  inversion Hnd as [|? ? Hb Hnd']; subst. clear Hnd. rename Hnd' into Hnd.
  destruct n as [|n]; simpl in Hn.
  - injection Hn as ->. by rewrite Z.eqb_refl.
  - destruct (Z.eqb_spec x b) as [->|Hne].
    + exfalso. apply Hb. by eapply list_elem_of_lookup_2.
    + by rewrite (IH n Hnd Hn).
Qed.

Lemma str_getitem_lookup (s : str) (n : nat) x :
  s !! n = Some x → str_getitem s (Z.of_nat n) = Ok [x].
Proof.
  intros Hn. pose proof (lookup_lt_Some _ _ _ Hn) as Hlt.
  unfold str_getitem, list_getitem.
  destruct (Z.ltb_spec (Z.of_nat n) 0); [lia|].
  destruct (Z.ltb_spec (Z.of_nat n) 0); [lia|].
  destruct (Z.leb_spec (Z.of_nat (length s)) (Z.of_nat n)); [lia|]. simpl.
  by rewrite Nat2Z.id, Hn.
Qed.

Lemma jamo_at_lookup (s : str) (n : nat) x :
  s !! n = Some x → jamo_at s (Z.of_nat n) = [x].
Proof. intros Hn. unfold jamo_at. by rewrite (str_getitem_lookup _ _ _ Hn). Qed.

Lemma NoDup_INITIAL_JAMOS : NoDup Syllable.INITIAL_JAMOS.
Proof. apply (bool_decide_unpack _). by vm_compute. Qed.
Lemma NoDup_MEDIAL_JAMOS : NoDup Syllable.MEDIAL_JAMOS.
Proof. apply (bool_decide_unpack _). by vm_compute. Qed.
Lemma NoDup_FINAL_JAMOS : NoDup Syllable.FINAL_JAMOS.
Proof. apply (bool_decide_unpack _). by vm_compute. Qed.

(** In a catalogue without repetition, the entry at position [n] is found
    again at position [n]. *)
Lemma str_index_jamo_at (catalog : str) (n : Z) :
  NoDup catalog → 0 ≤ n < Z.of_nat (length catalog) →
  str_index catalog (jamo_at catalog n) = Ok n.
Proof.
  intros Hnd Hn.
  destruct (lookup_lt_is_Some_2 catalog (Z.to_nat n)) as [x Hx]; [lia|].
  replace n with (Z.of_nat (Z.to_nat n)) at 1 2 by lia.
  rewrite (jamo_at_lookup _ _ _ Hx). unfold str_index.
  by rewrite (str_find_char_NoDup _ _ _ Hnd Hx).
Qed.

(** A character of the catalogue is found at a position that holds it. *)
Lemma str_index_elem (catalog : str) x :
  x ∈ catalog →
  ∃ n, str_index catalog [x] = Ok n ∧ 0 ≤ n < Z.of_nat (length catalog) ∧
       jamo_at catalog n = [x].
Proof.
  intros Hx. destruct (str_find_char_elem _ _ Hx) as [k Hk].
  pose proof (str_find_char_lookup _ _ _ Hk) as Hl.
  exists (Z.of_nat k). unfold str_index. rewrite Hk. split; [done|].
  split; [|by apply jamo_at_lookup].
  apply lookup_lt_Some in Hl. lia.
Qed.

Lemma str_index_not_elem (catalog : str) x :
  x ∉ catalog → str_index catalog [x] = Raise ValueError.
Proof. intros Hx. unfold str_index. by rewrite str_find_char_not_elem. Qed.

(** *** The two round trips *)

Lemma composed_decoded c : in_block c → composed (decoded c) = Ok [c].
Proof.
  unfold in_block. intros Hc. unfold composed, decoded.
  cbn [jamo_initial jamo_medial jamo_final].
  unfold Syllable.UNICODE_HANGUL_SYLLABLE_OFFSET.
  rewrite (str_index_jamo_at _ _ NoDup_INITIAL_JAMOS)
    by (simpl; Z.div_mod_to_equations; lia).
  rewrite (str_index_jamo_at _ _ NoDup_MEDIAL_JAMOS)
    by (simpl; Z.div_mod_to_equations; lia).
  rewrite (str_index_jamo_at _ _ NoDup_FINAL_JAMOS)
    by (simpl; Z.div_mod_to_equations; lia).
  replace (_ + 44032) with c by (Z.div_mod_to_equations; lia).
  unfold chr.
  destruct (Z.leb_spec 0 c); [|lia]. destruct (Z.ltb_spec c 1114112); [done|lia].
Qed.

Lemma decoded_composed i m f :
  i ∈ Syllable.INITIAL_JAMOS → m ∈ Syllable.MEDIAL_JAMOS →
  f ∈ Syllable.FINAL_JAMOS →
  ∃ c, composed (mkSyllable [] [i] [m] [f]) = Ok [c] ∧ in_block c ∧
       decoded c = mkSyllable [c] [i] [m] [f].
Proof.
  intros Hi Hm Hf.
  destruct (str_index_elem _ _ Hi) as (ni & Ei & Hni & Ji).
  destruct (str_index_elem _ _ Hm) as (nm & Em & Hnm & Jm).
  destruct (str_index_elem _ _ Hf) as (nf & Ef & Hnf & Jf).
  simpl in Hni, Hnm, Hnf.
  exists (ni * 588 + nm * 28 + nf + 44032).
  unfold composed. cbn [jamo_initial jamo_medial jamo_final].
  rewrite Ei, Em, Ef. unfold chr, in_block.
  set (c := ni * 588 + nm * 28 + nf + 44032).
  assert (44032 ≤ c < 44032 + 11172) as Hc by (subst c; lia).
  destruct (Z.leb_spec 0 c); [|lia]. destruct (Z.ltb_spec c 1114112); [|lia].
  split; [done|]. split; [done|].
  unfold decoded, Syllable.UNICODE_HANGUL_SYLLABLE_OFFSET.
  replace ((c - 44032) `div` 588) with ni
    by (subst c; Z.div_mod_to_equations; lia).
  replace (((c - 44032) `mod` 588) `div` 28) with nm
    by (subst c; Z.div_mod_to_equations; lia).
  replace (((c - 44032) `mod` 588) `mod` 28) with nf
    by (subst c; Z.div_mod_to_equations; lia).
  by rewrite Ji, Jm, Jf.
Qed.

Lemma in_block_decodes c : in_block c → decodes c = true.
Proof.
  unfold in_block, decodes. intros Hc.
  apply andb_true_iff. rewrite Z.leb_le, Z.ltb_lt. lia.
Qed.

Lemma encode_decoded_spec c h :
  in_block c → (encode_decoded [c] h).1 = Ok [c].
Proof.
  intros Hc. unfold encode_decoded.
  rewrite bind_run, from_syllable_spec, (in_block_decodes _ Hc).
  rewrite (bind_ok _ _ _ _ _ (get_syl_run _ _ _ (syls_new_last _ _))).
  rewrite bind_run, from_jamos_spec.
  change (mkSyllable [] (jamo_initial (decoded c)) (jamo_medial (decoded c))
            (jamo_final (decoded c)))
    with (set_syllable [] (decoded c)).
  replace (composed (set_syllable [] (decoded c))) with (composed (decoded c))
    by reflexivity.
  rewrite (composed_decoded _ Hc).
  rewrite (bind_ok _ _ _ _ _ (get_syl_run _ _ _ (syls_new_last _ _))).
  reflexivity.
Qed.

Lemma decode_encoded_spec i m f h :
  i ∈ Syllable.INITIAL_JAMOS → m ∈ Syllable.MEDIAL_JAMOS →
  f ∈ Syllable.FINAL_JAMOS →
  (decode_encoded [i] [m] [f] h).1 = Ok ([i], [m], [f]).
Proof.
  intros Hi Hm Hf.
  destruct (decoded_composed _ _ _ Hi Hm Hf) as (c & Ec & Hc & Ed).
  unfold decode_encoded.
  rewrite bind_run, from_jamos_spec, Ec.
  rewrite (bind_ok _ _ _ _ _ (get_syl_run _ _ _ (syls_new_last _ _))).
  cbn [syllable].
  rewrite bind_run, from_syllable_spec, (in_block_decodes _ Hc), Ed.
  rewrite (bind_ok _ _ _ _ _ (get_syl_run _ _ _ (syls_new_last _ _))).
  reflexivity.
Qed.

(** ** Word forms *)

Lemma mapM_get_syl {B} (f : SyllableObj → B) rs ss h :
  read_syls h rs = Some ss →
  mapM (λ r : nat, s ← get_syl r; mret (f s)) rs h = (Ok (map f ss), h).
Proof.
  unfold read_syls. intros H%mapM_Some_1.
  induction H as [|r s rs ss Hr _ IH]; [done|].
  cbn [mapM]. rewrite bind_run, (bind_ok _ _ _ _ _ (get_syl_run _ _ _ Hr)).
  rewrite ret_run, bind_run, IH. reflexivity.
Qed.

Lemma attempted_ok text : forallb decodes text = true → attempted text = map decoded text.
Proof.
  induction text as [|c text IH]; [done|]. simpl.
  intros [-> H]%andb_true_iff. by rewrite IH.
Qed.

Lemma decode_each_spec text h :
  WordForm.decode_each text h =
  (if forallb decodes text
   then Ok (seq (length (syls h)) (length text)) else Raise IndexError,
   new_syls (attempted text) h).
Proof.
  revert h. induction text as [|c text IH]; intros h.
  - simpl. by rewrite new_syls_nil.
  - unfold WordForm.decode_each in *. cbn [mapM forallb attempted length].
    rewrite bind_run, from_syllable_spec.
    destruct (decodes c); [|done].
    rewrite bind_run, IH, new_syls_new_syls. simpl.
    rewrite length_app. simpl. rewrite Nat.add_1_r.
    destruct (forallb decodes text); reflexivity.
Qed.

Lemma read_syls_new_syls h rs ss a :
  read_syls h rs = Some ss → read_syls (new_syls a h) rs = Some ss.
Proof.
  unfold read_syls. intros H%mapM_Some_1. apply mapM_Some_2.
  induction H; constructor; [|done]. simpl. by apply lookup_app_l_Some.
Qed.

Lemma read_syls_fresh h a :
  read_syls (new_syls a h) (seq (length (syls h)) (length a)) = Some a.
Proof.
  unfold read_syls. apply mapM_Some_2. simpl.
  generalize (syls h). clear. intros l. revert l.
  induction a as [|x a IH]; intros l; [constructor|].
  simpl. constructor.
  - by apply list_lookup_middle.
  - specialize (IH (l ++ [x])). rewrite length_app, <- app_assoc in IH.
    simpl in IH. by rewrite Nat.add_1_r in IH.
Qed.

Lemma read_syls_app h rs1 rs2 ss1 ss2 :
  read_syls h rs1 = Some ss1 → read_syls h rs2 = Some ss2 →
  read_syls h (rs1 ++ rs2) = Some (ss1 ++ ss2).
Proof.
  unfold read_syls. intros H1%mapM_Some_1 H2%mapM_Some_1.
  apply mapM_Some_2. by apply Forall2_app.
Qed.

Lemma _build_jamo_sequence_spec self h w ss :
  wfs h !! self = Some w → read_syls h (syllables w) = Some ss →
  WordForm._build_jamo_sequence self h =
  (Ok tt, put_wf self (set_jamos (flat_jamos ss) w) h).
Proof.
  intros Hw Hss. unfold WordForm._build_jamo_sequence.
  rewrite (bind_ok _ _ _ _ _ (get_wf_run _ _ _ Hw)).
  rewrite (bind_ok _ _ _ _ _ (mapM_get_syl _ _ _ _ Hss)).
  by rewrite (mod_wf_run _ _ _ _ Hw).
Qed.

Lemma _syllabes_to_word_spec self h w ss :
  wfs h !! self = Some w → read_syls h (syllables w) = Some ss →
  WordForm._syllabes_to_word self h =
  (Ok tt, put_wf self (set_string (surface_of ss) w) h).
Proof.
  intros Hw Hss. unfold WordForm._syllabes_to_word.
  rewrite (bind_ok _ _ _ _ _ (get_wf_run _ _ _ Hw)).
  rewrite (bind_ok _ _ _ _ _ (mapM_get_syl _ _ _ _ Hss)).
  by rewrite (mod_wf_run _ _ _ _ Hw).
Qed.

Lemma wfs_new_last w h : wfs (new_wf w h) !! length (wfs h) = Some w.
Proof. simpl. by rewrite list_lookup_middle. Qed.

Lemma put_wf_new_last w w' h :
  put_wf (length (wfs h)) w' (new_wf w h) = new_wf w' h.
Proof.
  unfold put_wf, new_wf. simpl. f_equal.
  rewrite insert_app_r_alt by lia. by rewrite Nat.sub_diag.
Qed.

Lemma WordForm_init_spec text h :
  WordForm.__init__ text h =
  if forallb decodes text
  then (Ok (length (wfs h)),
        new_wf (built (length (syls h)) text) (new_syls (map decoded text) h))
  else (Raise IndexError, new_syls (attempted text) h).
Proof.
  unfold WordForm.__init__.
  rewrite bind_run, decode_each_spec.
  destruct (forallb decodes text) eqn:Hd; [|done].
  rewrite (attempted_ok _ Hd).
  rewrite (bind_ok _ _ _ _ _ (alloc_wf_run _ _)).
  change (length (wfs (new_syls (map decoded text) h))) with (length (wfs h)).
  rewrite bind_run.
  erewrite _build_jamo_sequence_spec.
  2:{ apply (wfs_new_last _ (new_syls (map decoded text) h)). }
  2:{ cbn [syllables]. rewrite <- (length_map decoded text).
      apply (read_syls_fresh h). }
  rewrite (put_wf_new_last _ _ (new_syls (map decoded text) h)). reflexivity.
Qed.

Lemma mapM_get_syl_None {B} (f : SyllableObj → B) rs h :
  read_syls h rs = None →
  mapM (λ r : nat, s ← get_syl r; mret (f s)) rs h = (Raise SystemError, h).
Proof.
  unfold read_syls. induction rs as [|r rs IH]; [done|].
  cbn [mapM]. intros H. rewrite bind_run.
  destruct (syls h !! r) as [s|] eqn:Hr.
  - rewrite (bind_ok _ _ _ _ _ (get_syl_run _ _ _ Hr)), ret_run, bind_run.
    rewrite IH; [done|].
    cbn in H. by destruct (mapM (λ r0 : nat, syls h !! r0) rs).
  - unfold get_syl at 1. rewrite bind_run, Hr. reflexivity.
Qed.

Lemma put_wf_put_wf r w w' h : put_wf r w (put_wf r w' h) = put_wf r w h.
Proof. unfold put_wf. simpl. by rewrite list_insert_insert_eq. Qed.

Lemma wfs_put_wf_eq r w h x :
  wfs h !! r = Some x → wfs (put_wf r w h) !! r = Some w.
Proof. intros E. simpl. apply list_lookup_insert_eq. by eapply lookup_lt_Some. Qed.

(** The end of [append]: both strings are derived again. *)
Lemma rederive_spec self h :
  (WordForm._build_jamo_sequence self;;
   WordForm._syllabes_to_word self;; mret self) h =
  match wfs h !! self with
  | None => (Raise SystemError, h)
  | Some w =>
    match read_syls h (syllables w) with
    | None => (Raise SystemError, h)
    | Some ss => (Ok self, put_wf self (derived ss (syllables w)) h)
    end
  end.
Proof.
  destruct (wfs h !! self) as [w|] eqn:Hw.
  2:{ rewrite bind_run. unfold WordForm._build_jamo_sequence.
      rewrite bind_run. unfold get_wf. by rewrite Hw. }
  destruct (read_syls h (syllables w)) as [ss|] eqn:Hss.
  - rewrite (bind_ok _ _ _ _ _ (_build_jamo_sequence_spec _ _ _ _ Hw Hss)).
    rewrite bind_run.
    erewrite _syllabes_to_word_spec.
    2:{ eapply wfs_put_wf_eq, Hw. }
    2:{ exact Hss. }
    by rewrite put_wf_put_wf, ret_run.
  - rewrite bind_run. unfold WordForm._build_jamo_sequence.
    rewrite (bind_ok _ _ _ _ _ (get_wf_run _ _ _ Hw)).
    rewrite bind_run, (mapM_get_syl_None _ _ _ Hss). reflexivity.
Qed.

Lemma append_plain_spec self suffix h :
  WordForm.append self suffix false h =
  if forallb decodes suffix then
    match wfs h !! self with
    | None => (Raise SystemError, new_syls (map decoded suffix) h)
    | Some w =>
      let refs := syllables w ++ seq (length (syls h)) (length suffix) in
      let h1 := new_syls (map decoded suffix) h in
      match read_syls h1 refs with
      | None => (Raise SystemError, put_wf self (extend_syllables (seq (length (syls h)) (length suffix)) w) h1)
      | Some ss => (Ok self, put_wf self (derived ss refs) h1)
      end
    end
  else (Raise IndexError, new_syls (attempted suffix) h).
Proof.
  unfold WordForm.append.
  rewrite bind_run, bind_run, decode_each_spec.
  destruct (forallb decodes suffix) eqn:Hd; [|done].
  rewrite (attempted_ok _ Hd).
  destruct (wfs h !! self) as [w|] eqn:Hw.
  - assert (wfs (new_syls (map decoded suffix) h) !! self = Some w) as Hw'.
    { done. }
    rewrite (mod_wf_run _ _ _ _ Hw').
    rewrite rederive_spec.
    rewrite (wfs_put_wf_eq _ _ _ _ Hw'). cbn [extend_syllables syllables].
    cbv zeta.
    change (read_syls (put_wf self ?x ?hh)) with (read_syls hh).
    destruct (read_syls _ _); [|done].
    by rewrite put_wf_put_wf.
  - unfold mod_wf. simpl. by rewrite Hw.
Qed.

Lemma Syllable_append_spec r jf h :
  Syllable.append r jf h =
  match syls h !! r with
  | None => (Raise SystemError, h)
  | Some s =>
    if bool_decide (jamo_final s ≠ Syllable.JAMO_NONE) then (Raise ValueError, h)
    else match composed (set_jamo_final jf s) with
         | Ok c => (Ok tt, put_syl r (set_syllable c (set_jamo_final jf s)) h)
         | Raise e => (Raise e, put_syl r (set_jamo_final jf s) h)
         end
  end.
Proof.
  unfold Syllable.append.
  destruct (syls h !! r) as [s|] eqn:Hr.
  2:{ rewrite bind_run. unfold get_syl. by rewrite Hr. }
  rewrite (bind_ok _ _ _ _ _ (get_syl_run _ _ _ Hr)).
  destruct (bool_decide _); [done|].
  rewrite (bind_ok _ _ _ _ _ (mod_syl_run _ _ _ _ Hr)).
  erewrite _compose_spec by (eapply syls_put_syl_eq, Hr).
  destruct (composed _); [|done].
  by rewrite put_syl_put_syl.
Qed.

Lemma str_getitem_first c0 rest : str_getitem (c0 :: rest) 0 = Ok [c0].
Proof. by apply (str_getitem_lookup (c0 :: rest) 0%nat). Qed.

Lemma append_merge_spec self suffix h :
  WordForm.append self suffix true h =
  match suffix with
  | [] => (Raise IndexError, h)
  | c0 :: rest =>
    if negb (str_contains [c0] Syllable.INITIAL_JAMOS) then (Raise ValueError, h)
    else
      match wfs h !! self with
      | None => (Raise SystemError, h)
      | Some w =>
        match list_getitem (syllables w) (-1) with
        | Raise e => (Raise e, h)
        | Ok last =>
          match Syllable.append last [c0] h with
          | (Raise e, h1) => (Raise e, h1)
          | (Ok _, h1) =>
            if forallb decodes rest then
              let new := seq (length (syls h1)) (length rest) in
              let h2 := new_syls (map decoded rest) h1 in
              match read_syls h2 (syllables w ++ new) with
              | None => (Raise SystemError, put_wf self (extend_syllables new w) h2)
              | Some ss => (Ok self, put_wf self (derived ss (syllables w ++ new)) h2)
              end
            else (Raise IndexError, new_syls (attempted rest) h1)
          end
        end
      end
  end.
Proof.
  unfold WordForm.append.
  destruct suffix as [|c0 rest].
  { rewrite bind_run, bind_lift. reflexivity. }
  rewrite bind_run, bind_lift, str_getitem_first.
  destruct (negb _); [done|].
  destruct (wfs h !! self) as [w|] eqn:Hw.
  2:{ rewrite bind_run. unfold get_wf. by rewrite Hw. }
  rewrite (bind_ok _ _ _ _ _ (get_wf_run _ _ _ Hw)), bind_lift.
  destruct (list_getitem (syllables w) (-1)) as [last|e]; [|done].
  rewrite bind_run.
  assert (wfs (Syllable.append last [c0] h).2 = wfs h) as Hsame.
  { rewrite Syllable_append_spec.
    destruct (syls h !! last); [|done].
    destruct (bool_decide _); [done|]. by destruct (composed _). }
  destruct (Syllable.append last [c0] h) as [[[]|e] h1]; [|done].
  simpl in Hsame. change (drop 1 (c0 :: rest)) with rest.
  rewrite bind_run, decode_each_spec.
  destruct (forallb decodes rest) eqn:Hd; [|done].
  rewrite (attempted_ok _ Hd).
  assert (wfs (new_syls (map decoded rest) h1) !! self = Some w) as Hw'.
  { simpl. by rewrite Hsame. }
  rewrite (mod_wf_run _ _ _ _ Hw').
  rewrite rederive_spec.
  rewrite (wfs_put_wf_eq _ _ _ _ Hw'). cbn [extend_syllables syllables].
  cbv zeta.
  change (read_syls (put_wf self ?x ?hh)) with (read_syls hh).
  destruct (read_syls _ _); [|done].
  by rewrite put_wf_put_wf.
Qed.

Lemma surface_of_decoded text : surface_of (map decoded text) = text.
Proof.
  unfold surface_of, join. induction text as [|c text IH]; [done|].
  simpl. by rewrite IH.
Qed.

(** Composing a syllable whose character already is the composition of its
    jamos changes nothing. *)
Lemma mapM_compose_fixed rs ss h :
  read_syls h rs = Some ss →
  Forall (λ s, composed s = Ok (syllable s)) ss →
  (mapM Syllable._compose rs h).2 = h ∧
  ∃ units, (mapM Syllable._compose rs h).1 = Ok units.
Proof.
  unfold read_syls. intros H%mapM_Some_1 Hc.
  induction H as [|r s rs ss Hr _ IH]; [by eauto|].
  inversion Hc as [|? ? Hs Hc']; subst.
  destruct (IH Hc') as [IH1 [units IH2]].
  cbn [mapM]. rewrite bind_run, (_compose_spec _ _ _ Hr), Hs.
  assert (put_syl r (set_syllable (syllable s) s) h = h) as ->.
  { apply put_syl_id. rewrite Hr. by destruct s. }
  rewrite bind_run.
  destruct (mapM Syllable._compose rs h) as [[us|e] h'] eqn:E;
    simpl in IH1, IH2; [|done]. subst h'. simpl. eauto.
Qed.

Lemma reencoded_spec text h :
  Forall in_block text → (reencoded text h).1 = Ok text.
Proof.
  intros Hb. unfold reencoded.
  assert (forallb decodes text = true) as Hd.
  { induction Hb as [|c text Hc _ IH]; [done|].
    simpl. by rewrite (in_block_decodes _ Hc), IH. }
  rewrite bind_run, WordForm_init_spec, Hd.
  set (h1 := new_wf (built (length (syls h)) text) (new_syls (map decoded text) h)).
  assert (wfs h1 !! length (wfs h) = Some (built (length (syls h)) text)) as Hw
    by apply (wfs_new_last _ (new_syls (map decoded text) h)).
  assert (read_syls h1 (syllables (built (length (syls h)) text))
          = Some (map decoded text)) as Hss.
  { cbn [built syllables]. rewrite <- (length_map decoded text).
    apply (read_syls_fresh h). }
  rewrite (bind_ok _ _ _ _ _ (get_wf_run _ _ _ Hw)).
  destruct (mapM_compose_fixed _ _ _ Hss) as [E2 [units E1]].
  { clear -Hb. induction Hb as [|c text Hc _ IH]; simpl; constructor; [|done].
    by rewrite composed_decoded. }
  rewrite bind_run.
  destruct (mapM Syllable._compose _ h1) as [res h1']. simpl in E1, E2. subst.
  rewrite bind_run, (_syllabes_to_word_spec _ _ _ _ Hw Hss).
  rewrite (bind_ok _ _ _ _ _ (get_wf_run _ _ _ (wfs_put_wf_eq _ _ _ _ Hw))).
  simpl. by rewrite surface_of_decoded.
Qed.

(** C1. The codec is a bijection on its valid domain: re-encoding the
    decoding of a character of the syllable block gives the character back,
    decoding the encoding of a catalogued jamo triple gives the triple back,
    and a word form built from a text of such characters, its syllables
    composed again and joined, has that text as its surface. *)
Theorem C1_codec_round_trip (c i m f : Z) (text : str) (h : heap) :
  in_block c →
  i ∈ Syllable.INITIAL_JAMOS → m ∈ Syllable.MEDIAL_JAMOS →
  f ∈ Syllable.FINAL_JAMOS →
  Forall in_block text →
  (encode_decoded [c] h).1 = Ok [c] ∧
  (decode_encoded [i] [m] [f] h).1 = Ok ([i], [m], [f]) ∧
  (reencoded text h).1 = Ok text.
Proof.
  intros Hc Hi Hm Hf Ht. split; [|split].
  - by apply encode_decoded_spec.
  - by apply decode_encoded_spec.
  - by apply reencoded_spec.
Qed.

Lemma C1_codec_round_trip_witness :
  (encode_decoded (u "먹") empty_heap).1 = Ok (u "먹") ∧
  (decode_encoded (u "ㅁ") (u "ㅓ") (u "ㄱ") empty_heap).1
    = Ok (u "ㅁ", u "ㅓ", u "ㄱ") ∧
  (reencoded (u "먹다") empty_heap).1 = Ok (u "먹다").
Proof.
  apply (C1_codec_round_trip 47673 12609 12627 12593 [47673; 45796] empty_heap).
  - unfold in_block. lia.
  - apply (bool_decide_unpack _). vm_compute. exact I.
  - apply (bool_decide_unpack _). vm_compute. exact I.
  - apply (bool_decide_unpack _). vm_compute. exact I.
  - repeat constructor; unfold in_block; lia.
Defined.

(** What the codec does outside its domain.  A character is refused exactly
    when the lookup of its initial jamo is out of range in both directions;
    the 11172 code points just below the block are accepted, since a
    negative position counts from the end of the catalogue. *)
Lemma from_syllable_result c h :
  (Syllable.from_syllable [c] h).1 =
  if decodes c then Ok (length (syls h)) else Raise IndexError.
Proof. rewrite from_syllable_spec. by destruct (decodes c). Qed.

Lemma from_syllable_refuses c h :
  c < 32860 ∨ 55204 ≤ c → (Syllable.from_syllable [c] h).1 = Raise IndexError.
Proof.
  intros Hc. rewrite from_syllable_result.
  destruct (decodes c) eqn:Hd; [|done].
  apply andb_true_iff in Hd as [?%Z.leb_le ?%Z.ltb_lt]. lia.
Qed.

Lemma from_jamos_refuses i m f h :
  i ∉ Syllable.INITIAL_JAMOS ∨ m ∉ Syllable.MEDIAL_JAMOS ∨
  f ∉ Syllable.FINAL_JAMOS →
  (Syllable.from_jamos [i] [m] [f] h).1 = Raise ValueError.
Proof.
  intros Hout. rewrite from_jamos_spec. unfold composed.
  cbn [jamo_initial jamo_medial jamo_final].
  destruct (decide (i ∈ Syllable.INITIAL_JAMOS)) as [Hi|Hi].
  2:{ by rewrite (str_index_not_elem _ _ Hi). }
  destruct (str_index_elem _ _ Hi) as (ni & -> & _).
  destruct (decide (m ∈ Syllable.MEDIAL_JAMOS)) as [Hm|Hm].
  2:{ by rewrite (str_index_not_elem _ _ Hm). }
  destruct (str_index_elem _ _ Hm) as (nm & -> & _).
  destruct (decide (f ∈ Syllable.FINAL_JAMOS)) as [Hf|Hf].
  2:{ by rewrite (str_index_not_elem _ _ Hf). }
  tauto.
Qed.

(** C2, at the failing input: the character U+97D3 is outside the syllable
    block, and decoding it raises nothing; it yields a syllable object with
    jamos read from the end of each catalogue.  On the encoding side the
    empty string, which is no entry of a catalogue, is found at position 0
    by [index] and encoded as the first entry. *)
Theorem C2_decode_accepts_outside_block :
  ¬ in_block 38867 ∧
  u "韓" = [38867] ∧
  Syllable.from_syllable (u "韓") empty_heap =
  (Ok 0%nat, mkHeap [mkSyllable (u "韓") (u "ㅆ") (u "ㅓ") (u "ㅀ")] [] []) ∧
  ([] ∉ map (λ c, [c]) Syllable.INITIAL_JAMOS) ∧
  Syllable.from_jamos [] (u "ㅏ") Syllable.JAMO_NONE empty_heap =
  (Ok 0%nat, mkHeap [mkSyllable (u "가") [] (u "ㅏ") Syllable.JAMO_NONE] [] []).
Proof.
  split; [unfold in_block; lia|]. split; [reflexivity|]. split; [reflexivity|].
  split; [|reflexivity].
  intros (c & [=] & _)%list_elem_of_fmap.
Qed.

(** ** Appending with merge *)

Lemma list_getitem_last_nil {A} : list_getitem (@nil A) (-1) = Raise IndexError.
Proof. reflexivity. Qed.

Lemma list_getitem_last_snoc {A} (pre : list A) x :
  list_getitem (pre ++ [x]) (-1) = Ok x.
Proof.
  unfold list_getitem. rewrite length_app. simpl length.
  destruct (Z.ltb_spec (-1) 0); [|lia].
  destruct (Z.ltb_spec (-1 + Z.of_nat (length pre + 1)) 0); [lia|].
  destruct (Z.leb_spec (Z.of_nat (length pre + 1))
              (-1 + Z.of_nat (length pre + 1))); [lia|]. simpl.
  replace (Z.to_nat (-1 + Z.of_nat (length pre + 1))) with (length pre) by lia.
  by rewrite list_lookup_middle.
Qed.

Lemma str_contains_char x s : str_contains [x] s = true ↔ x ∈ s.
Proof.
  unfold str_contains. split.
  - destruct (str_find s [x]) as [n|] eqn:E; [|done]. intros _.
    eapply list_elem_of_lookup_2, str_find_char_lookup, E.
  - intros [n ->]%str_find_char_elem. done.
Qed.

Lemma sentinel_not_initial : 32 ∉ Syllable.INITIAL_JAMOS.
Proof. apply (bool_decide_unpack _). by vm_compute. Qed.

Lemma FINAL_JAMOS_split : Syllable.FINAL_JAMOS = 32 :: final_consonants.
Proof. reflexivity. Qed.

(** An initial consonant is a final consonant, or not in the final catalogue
    at all (the tense consonants U+3138, U+3143 and U+3149). *)
Lemma initial_final_or_absent c :
  c ∈ Syllable.INITIAL_JAMOS → c ∈ final_consonants ∨ c ∉ Syllable.FINAL_JAMOS.
Proof.
  revert c. apply list.Forall_forall.
  apply (bool_decide_unpack _). by vm_compute.
Qed.

Lemma composed_raises s e : composed s = Raise e → e = ValueError.
Proof.
  unfold composed, str_index, chr.
  repeat (case_match; try done); congruence.
Qed.

Lemma composed_final_absent s x :
  jamo_final s = [x] → x ∉ Syllable.FINAL_JAMOS → composed s = Raise ValueError.
Proof.
  intros Hf Hx. unfold composed. rewrite Hf, (str_index_not_elem _ _ Hx).
  unfold str_index. repeat (case_match; try done); congruence.
Qed.

Lemma composed_final_present s c x :
  jamo_final s = [x] → composed s = Ok c → x ∈ Syllable.FINAL_JAMOS.
Proof.
  intros Hf Hc. destruct (decide (x ∈ Syllable.FINAL_JAMOS)) as [|Hx]; [done|].
  by rewrite (composed_final_absent _ _ Hf Hx) in Hc.
Qed.

Lemma composed_set_syllable c s : composed (set_syllable c s) = composed s.
Proof. reflexivity. Qed.

(** A merge append that returns has gone through every step. *)
Lemma append_merge_succeeds self suffix h w ss r h' :
  wfs h !! self = Some w → read_syls h (syllables w) = Some ss →
  WordForm.append self suffix true h = (Ok r, h') →
  ∃ c0 rest pre last s c' ss',
    suffix = c0 :: rest ∧ c0 ∈ Syllable.INITIAL_JAMOS ∧
    syllables w = pre ++ [last] ∧ syls h !! last = Some s ∧
    jamo_final s = Syllable.JAMO_NONE ∧
    composed (set_jamo_final [c0] s) = Ok c' ∧
    forallb decodes rest = true ∧
    let s' := set_syllable c' (set_jamo_final [c0] s) in
    let refs := syllables w ++ seq (length (syls h)) (length rest) in
    let h2 := new_syls (map decoded rest) (put_syl last s' h) in
    read_syls h2 refs = Some ss' ∧
    r = self ∧ h' = put_wf self (derived ss' refs) h2.
Proof.
  intros Hw Hss. rewrite append_merge_spec.
  destruct suffix as [|c0 rest]; [intros [=]|].
  destruct (str_contains [c0] Syllable.INITIAL_JAMOS) eqn:Hguard;
    simpl negb; cbv iota; [|intros [=]].
  apply str_contains_char in Hguard. rewrite Hw.
  destruct (syllables w) as [|last pre _] eqn:Hsyl using rev_ind;
    [rewrite list_getitem_last_nil; intros [=]|].
  rewrite list_getitem_last_snoc, Syllable_append_spec.
  destruct (syls h !! last) as [s|] eqn:Hs; [|intros [=]].
  destruct (bool_decide (jamo_final s ≠ Syllable.JAMO_NONE)) eqn:Hfin;
    [intros [=]|].
  apply bool_decide_eq_false in Hfin. apply dec_stable in Hfin.
  destruct (composed (set_jamo_final [c0] s)) as [c'|e] eqn:Hcomp; [|intros [=]].
  destruct (forallb decodes rest) eqn:Hd; [|intros [=]].
  cbv zeta.
  replace (length (syls (put_syl last (set_syllable c' (set_jamo_final [c0] s)) h)))
    with (length (syls h)) by (simpl; by rewrite length_insert).
  match goal with
  | |- context [read_syls ?a ?b] =>
    destruct (read_syls a b) as [ss'|] eqn:Hss'; [|intros [=]]
  end.
  intros [= <- <-].
  exists c0, rest, pre, last, s, c', ss'. by repeat split.
Qed.

(** C3. Appending with merge fails unless the suffix starts with a consonant
    that is both in the initial catalogue, which the guard of [append]
    tests, and among the consonants of the final catalogue, which composing
    the syllable again requires.  A first character outside the initial
    catalogue is refused by the guard, before anything is written.  When the
    append succeeds, that consonant has become the final of the last
    syllable and the rest of the suffix has been appended as decoded
    syllables. *)
Theorem C3_append_merge (h : heap) (self : nat) (w : WordFormObj)
    (ss : list SyllableObj) (suffix : str) :
  wfs h !! self = Some w →
  read_syls h (syllables w) = Some ss →
  (¬ starts_with_merge_consonant suffix →
   ∃ e, (WordForm.append self suffix true h).1 = Raise e ∧
        (e = ValueError ∨ e = IndexError)) ∧
  (∀ c0 rest, suffix = c0 :: rest → c0 ∉ Syllable.INITIAL_JAMOS →
   WordForm.append self suffix true h = (Raise ValueError, h)) ∧
  (∀ r h', WordForm.append self suffix true h = (Ok r, h') →
   r = self ∧ starts_with_merge_consonant suffix ∧ merged h h' self w suffix).
Proof.
  intros Hw Hss. rewrite append_merge_spec.
  destruct suffix as [|c0 rest].
  { split; [eauto|]. split; [intros ? ? [=]|intros ? ? [=]]. }
  destruct (str_contains [c0] Syllable.INITIAL_JAMOS) eqn:Hguard; simpl negb; cbv iota.
  2:{ split; [eauto|]. split; [done|intros ? ? [=]]. }
  apply str_contains_char in Hguard.
  assert (∀ c1 rest1, c0 :: rest = c1 :: rest1 → c1 ∉ Syllable.INITIAL_JAMOS →
          False) as Hpass by (intros ? ? [= <- <-] Hn; by destruct Hn).
  rewrite Hw.
  destruct (syllables w) as [|last pre _] eqn:Hsyl using rev_ind.
  { rewrite list_getitem_last_nil. split; [eauto|].
    split; [intros; exfalso; eauto|intros ? ? [=]]. }
  rewrite list_getitem_last_snoc, Syllable_append_spec.
  assert (∃ s, syls h !! last = Some s) as [s Hs].
  { unfold read_syls in Hss. apply mapM_Some_1 in Hss.
    apply Forall2_app_inv_l in Hss as (? & ? & _ & H2 & _).
    inversion H2; subst. eauto. }
  rewrite Hs.
  destruct (bool_decide (jamo_final s ≠ Syllable.JAMO_NONE)) eqn:Hfin.
  { split; [eauto|]. split; [intros; exfalso; eauto|intros ? ? [=]]. }
  apply bool_decide_eq_false in Hfin. apply dec_stable in Hfin.
  destruct (composed (set_jamo_final [c0] s)) as [c'|e] eqn:Hcomp.
  2:{ apply composed_raises in Hcomp as ->. split; [eauto|].
      split; [intros; exfalso; eauto|intros ? ? [=]]. }
  assert (c0 ∈ final_consonants) as Hc0.
  { pose proof (composed_final_present (set_jamo_final [c0] s) _ c0
                  eq_refl Hcomp) as Hin.
    rewrite FINAL_JAMOS_split in Hin. apply elem_of_cons in Hin as [->|]; [|done].
    by destruct sentinel_not_initial. }
  assert (starts_with_merge_consonant (c0 :: rest)) as Hstart
    by (exists c0, rest; done).
  split; [intros Hn; by destruct Hn|].
  split; [intros; exfalso; eauto|].
  intros r h'.
  destruct (forallb decodes rest) eqn:Hd; [|intros [=]].
  cbv zeta.
  replace (length (syls (put_syl last (set_syllable c' (set_jamo_final [c0] s)) h)))
    with (length (syls h)) by (simpl; by rewrite length_insert).
  match goal with
  | |- context [read_syls ?a ?b] =>
    destruct (read_syls a b) as [ss'|] eqn:Hss'; [|intros [=]]
  end.
  intros [= <- <-]. split; [done|]. split; [done|].
  exists c0, rest, pre, last, s, (set_syllable c' (set_jamo_final [c0] s)), ss'.
  rewrite Hsyl.
  repeat split; done.
Qed.

Lemma C3_append_merge_witness :
  let h := (run (WordForm.__init__ (u "가"))).2 in
  let w := built 0 (u "가") in
  (WordForm.append 0 (u "ㅂ니다") true h).1 = Ok 0%nat ∧
  (¬ starts_with_merge_consonant (u "ㅂ니다") →
   ∃ e, (WordForm.append 0 (u "ㅂ니다") true h).1 = Raise e ∧
        (e = ValueError ∨ e = IndexError)) ∧
  (∀ c0 rest, u "ㅂ니다" = c0 :: rest → c0 ∉ Syllable.INITIAL_JAMOS →
   WordForm.append 0 (u "ㅂ니다") true h = (Raise ValueError, h)) ∧
  (∀ r h', WordForm.append 0 (u "ㅂ니다") true h = (Ok r, h') →
   r = 0%nat ∧ starts_with_merge_consonant (u "ㅂ니다") ∧
   merged h h' 0 w (u "ㅂ니다")).
Proof.
  intros h w. split; [reflexivity|].
  apply (C3_append_merge h 0 w (map decoded (u "가")) (u "ㅂ니다")); reflexivity.
Defined.

(** The catalogue of the guard is not the final one.  The cluster U+3133 is
    a consonant of the final catalogue and the syllable U+AC00 has no final,
    yet the guard refuses the append, the store untouched.  The tense
    consonant U+3138 is no consonant of the final catalogue, yet the guard
    lets it through: the error comes from [_compose], after the final of the
    syllable was written. *)
Lemma C3_guard_reads_initial_catalogue :
  let h := (run (WordForm.__init__ (u "가"))).2 in
  h = mkHeap [mkSyllable (u "가") (u "ㄱ") (u "ㅏ") Syllable.JAMO_NONE]
             [built 0 (u "가")] [] ∧
  (starts_with_final_consonant (u "ㄳ") ∧
   str_contains (u "ㄳ") Syllable.INITIAL_JAMOS = false ∧
   WordForm.append 0 (u "ㄳ") true h = (Raise ValueError, h)) ∧
  (¬ starts_with_final_consonant (u "ㄸ") ∧
   str_contains (u "ㄸ") Syllable.INITIAL_JAMOS = true ∧
   WordForm.append 0 (u "ㄸ") true h =
   (Raise ValueError,
    mkHeap [mkSyllable (u "가") (u "ㄱ") (u "ㅏ") (u "ㄸ")]
           [built 0 (u "가")] [])).
Proof.
  intros h. split; [reflexivity|]. split.
  - split; [|split; reflexivity].
    exists 12595, []. split; [reflexivity|].
    apply (bool_decide_unpack _). by vm_compute.
  - split; [|split; reflexivity].
    intros (c0 & rest & [= <- <-] & Hin). revert Hin.
    apply (bool_decide_unpack _). by vm_compute.
Qed.


(** ** Words *)

Create HintDb store.

Lemma wfs_wf_store_new text h :
  wfs (wf_store text h) !! length (wfs h) = Some (built (length (syls h)) text).
Proof. apply (wfs_new_last _ (new_syls _ h)). Qed.

Lemma wfs_wf_store_old text h r w :
  wfs h !! r = Some w → wfs (wf_store text h) !! r = Some w.
Proof. intros E. simpl. by apply lookup_app_l_Some. Qed.

Lemma syls_wf_store_old text h r s :
  syls h !! r = Some s → syls (wf_store text h) !! r = Some s.
Proof. intros E. simpl. by apply lookup_app_l_Some. Qed.

Lemma read_syls_wf_store_old text h rs ss :
  read_syls h rs = Some ss → read_syls (wf_store text h) rs = Some ss.
Proof. apply read_syls_new_syls. Qed.

Lemma read_syls_wf_store_new text h :
  read_syls (wf_store text h) (syllables (built (length (syls h)) text))
  = Some (map decoded text).
Proof.
  cbn [built syllables]. rewrite <- (length_map decoded text).
  apply (read_syls_fresh h).
Qed.

Lemma length_wfs_wf_store text h :
  length (wfs (wf_store text h)) = S (length (wfs h)).
Proof. simpl. rewrite length_app. simpl. lia. Qed.

Lemma heap_prefix_wf_store text h : heap_prefix h (wf_store text h).
Proof.
  eapply heap_prefix_trans; [apply heap_prefix_new_syls|apply heap_prefix_new_wf].
Qed.

Lemma words_new_word_new w h : words (new_word w h) !! length (words h) = Some w.
Proof. simpl. by rewrite list_lookup_middle. Qed.

Lemma words_new_word_old w h r x :
  words h !! r = Some x → words (new_word w h) !! r = Some x.
Proof. intros E. simpl. by apply lookup_app_l_Some. Qed.

Lemma words_put_word_eq r w h x :
  words h !! r = Some x → words (put_word r w h) !! r = Some w.
Proof. intros E. simpl. apply list_lookup_insert_eq. by eapply lookup_lt_Some. Qed.

Lemma wfs_put_wf_ne r r' w h x :
  r ≠ r' → wfs h !! r' = Some x → wfs (put_wf r w h) !! r' = Some x.
Proof. intros Hne E. simpl. by rewrite list_lookup_insert_ne. Qed.

Lemma words_put_word_ne r r' w h x :
  r ≠ r' → words h !! r' = Some x → words (put_word r w h) !! r' = Some x.
Proof. intros Hne E. simpl. by rewrite list_lookup_insert_ne. Qed.

Lemma heap_prefix_lookup_wf h h' r w :
  heap_prefix h h' → wfs h !! r = Some w → wfs h' !! r = Some w.
Proof. intros (_ & H & _) E. by eapply prefix_lookup_Some. Qed.

Lemma heap_prefix_lookup_syl h h' r s :
  heap_prefix h h' → syls h !! r = Some s → syls h' !! r = Some s.
Proof. intros (H & _ & _) E. by eapply prefix_lookup_Some. Qed.

Lemma heap_prefix_lookup_word h h' r w :
  heap_prefix h h' → words h !! r = Some w → words h' !! r = Some w.
Proof. intros (_ & _ & H) E. by eapply prefix_lookup_Some. Qed.

Lemma heap_prefix_read_syls h h' rs ss :
  heap_prefix h h' → read_syls h rs = Some ss → read_syls h' rs = Some ss.
Proof.
  intros Hp. unfold read_syls. intros H%mapM_Some_1. apply mapM_Some_2.
  induction H; constructor; eauto using heap_prefix_lookup_syl.
Qed.

#[local] Hint Resolve heap_prefix_refl heap_prefix_new_syls heap_prefix_new_wf
  heap_prefix_new_word heap_prefix_wf_store : store.
#[local] Hint Resolve wfs_wf_store_new wfs_wf_store_old syls_wf_store_old
  read_syls_wf_store_old read_syls_wf_store_new words_new_word_new
  words_new_word_old words_put_word_eq wfs_put_wf_eq : store.

Lemma WordForm_init_ok text h :
  forallb decodes text = true →
  WordForm.__init__ text h = (Ok (length (wfs h)), wf_store text h).
Proof. intros Hd. by rewrite WordForm_init_spec, Hd. Qed.

Lemma WordForm_init_fail text h :
  forallb decodes text = false →
  WordForm.__init__ text h = (Raise IndexError, new_syls (attempted text) h).
Proof. intros Hd. by rewrite WordForm_init_spec, Hd. Qed.

Lemma Word_init_spec lemma h :
  Word.__init__ lemma h =
  if forallb decodes lemma
  then (Ok (length (words h)), word_store lemma h)
  else (Raise IndexError, new_syls (attempted lemma) h).
Proof.
  unfold Word.__init__.
  destruct (forallb decodes lemma) eqn:Hd.
  - rewrite (bind_ok _ _ _ _ _ (WordForm_init_ok _ _ Hd)).
    rewrite (bind_ok _ _ _ _ _ (WordForm_init_ok _ _ Hd)).
    rewrite (bind_ok _ _ _ _ _ (WordForm_init_ok _ _ Hd)).
    reflexivity.
  - by rewrite (bind_raise _ _ _ _ _ (WordForm_init_fail _ _ Hd)).
Qed.

Lemma heap_prefix_word_store lemma h : heap_prefix h (word_store lemma h).
Proof.
  unfold word_store.
  repeat (eapply heap_prefix_trans; [|eauto with store]). eauto with store.
Qed.

Lemma words_word_store lemma h :
  words (word_store lemma h) !! length (words h) =
  Some (mkWord (length (wfs h)) (length (wfs (wf_store lemma h)))
               (length (wfs (wf_store lemma (wf_store lemma h))))).
Proof. apply (words_new_word_new _ (wf_store _ (wf_store _ (wf_store _ h)))). Qed.

Lemma wfs_word_store_lemma lemma h :
  wfs (word_store lemma h) !! length (wfs h) = Some (built (length (syls h)) lemma).
Proof.
  unfold word_store.
  change (wfs (new_word ?w ?hh)) with (wfs hh). eauto with store.
Qed.

Lemma wfs_word_store_root lemma h :
  wfs (word_store lemma h) !! length (wfs (wf_store lemma h)) =
  Some (built (length (syls (wf_store lemma h))) lemma).
Proof.
  unfold word_store.
  change (wfs (new_word ?w ?hh)) with (wfs hh). eauto with store.
Qed.

Lemma wfs_word_store_inflection lemma h :
  wfs (word_store lemma h) !! length (wfs (wf_store lemma (wf_store lemma h))) =
  Some (built (length (syls (wf_store lemma (wf_store lemma h)))) lemma).
Proof.
  unfold word_store.
  change (wfs (new_word ?w ?hh)) with (wfs hh). eauto with store.
Qed.

Lemma read_syls_word_store_inflection lemma h :
  read_syls (word_store lemma h)
    (syllables (built (length (syls (wf_store lemma (wf_store lemma h)))) lemma))
  = Some (map decoded lemma).
Proof.
  unfold word_store.
  change (read_syls (new_word ?w ?hh)) with (read_syls hh). eauto with store.
Qed.

#[local] Hint Resolve heap_prefix_word_store words_word_store
  wfs_word_store_lemma wfs_word_store_root wfs_word_store_inflection
  read_syls_word_store_inflection : store.

Lemma forallb_take {A} (f : A → bool) (l : list A) (n : nat) :
  forallb f l = true → forallb f (take n l) = true.
Proof.
  revert n. induction l as [|x l IH]; intros [|n]; simpl; try done.
  intros [-> H]%andb_true_iff. by apply IH.
Qed.

(** The store after a predicate has been built from [lemma]: the word, its
    three forms, and the form of the stem that replaced the root. *)
Lemma predicate_init_spec lemma h :
  predicate_init lemma h =
  if forallb decodes lemma then
    if str_endswith lemma (u "다") then
      let h1 := word_store lemma h in
      let stem := take (length lemma - 1) lemma in
      (Ok (length (words h)),
       put_word (length (words h))
         (mkWord (length (wfs h)) (length (wfs h1))
                 (length (wfs (wf_store lemma (wf_store lemma h)))))
         (wf_store stem h1))
    else (Raise ValueError, word_store lemma h)
  else (Raise IndexError, new_syls (attempted lemma) h).
Proof.
  unfold predicate_init. rewrite bind_run, Word_init_spec.
  destruct (forallb decodes lemma) eqn:Hd; [|done].
  rewrite (bind_ok _ _ _ _ _ (get_word_run _ _ _ (words_word_store _ _))).
  cbn [Obj.lemma].
  rewrite (bind_ok _ _ _ _ _ (get_wf_run _ _ _ (wfs_word_store_lemma _ _))).
  cbn [built string].
  destruct (str_endswith lemma (u "다")); [|done].
  rewrite (bind_ok _ _ _ _ _ (get_wf_run _ _ _ (wfs_word_store_lemma _ _))).
  cbn [built string].
  rewrite (bind_ok _ _ _ _ _
             (WordForm_init_ok _ _ (forallb_take _ _ (length lemma - 1) Hd))).
  assert (words (wf_store (take (length lemma - 1) lemma) (word_store lemma h))
          !! length (words h) = Some
            (mkWord (length (wfs h)) (length (wfs (wf_store lemma h)))
                    (length (wfs (wf_store lemma (wf_store lemma h)))))) as Hme.
  { change (words (wf_store ?t ?hh)) with (words hh). apply words_word_store. }
  rewrite (bind_ok _ _ _ _ _ (mod_word_run _ _ _ _ Hme)).
  reflexivity.
Qed.

Lemma heap_prefix_put_word_new (w : nat) w' h h' :
  heap_prefix h h' → (length (words h) ≤ w)%nat →
  heap_prefix h (put_word w w' h').
Proof.
  intros (Hs & Hw & Hwd) Hlen. repeat split; simpl; try done.
  destruct Hwd as [k ->].
  rewrite insert_app_r_alt by done. by apply prefix_app_r.
Qed.

Lemma heap_prefix_put_wf_new (r : nat) w h h' :
  heap_prefix h h' → (length (wfs h) ≤ r)%nat → heap_prefix h (put_wf r w h').
Proof.
  intros (Hs & Hw & Hwd) Hlen. repeat split; simpl; try done.
  destruct Hw as [k ->].
  rewrite insert_app_r_alt by done. by apply prefix_app_r.
Qed.

Lemma heap_prefix_put_syl_new (r : nat) s h h' :
  heap_prefix h h' → (length (syls h) ≤ r)%nat → heap_prefix h (put_syl r s h').
Proof.
  intros (Hs & Hw & Hwd) Hlen. repeat split; simpl; try done.
  destruct Hs as [k ->].
  rewrite insert_app_r_alt by done. by apply prefix_app_r.
Qed.

Lemma predicate_init_prefix lemma h :
  heap_prefix h (predicate_init lemma h).2.
Proof.
  rewrite predicate_init_spec.
  destruct (forallb decodes lemma); [|simpl; eauto with store].
  destruct (str_endswith lemma (u "다")); [|simpl; eauto with store].
  simpl. apply heap_prefix_put_word_new; [|done].
  eapply heap_prefix_trans; eauto with store.
Qed.

(** C7. Building a verb or an adjective fails when the lemma does not end
    with the dictionary ending, and returns no word; when the lemma ends
    with it, the root is the lemma without its last syllable. *)
Theorem C7_predicate_lemma (lemma : str) (h : heap) :
  (str_endswith lemma (u "다") = false →
   (Verb.__init__ lemma h).1 =
     Raise (if forallb decodes lemma then ValueError else IndexError) ∧
   (Adjective.__init__ lemma h).1 =
     Raise (if forallb decodes lemma then ValueError else IndexError) ∧
   heap_prefix h (Verb.__init__ lemma h).2 ∧
   heap_prefix h (Adjective.__init__ lemma h).2) ∧
  (str_endswith lemma (u "다") = true → forallb decodes lemma = true →
   Adjective.__init__ lemma h = Verb.__init__ lemma h ∧
   ∃ w h', Verb.__init__ lemma h = (Ok w, h') ∧
     lemma_surface h' w = Some lemma ∧
     root_surface h' w = Some (take (length lemma - 1) lemma) ∧
     inflection_surface h' w = Some lemma) ∧
  root_surface (run (Verb.__init__ (u "먹다"))).2 0 = Some (u "먹") ∧
  (run (Verb.__init__ (u "먹"))).1 = Raise ValueError.
Proof.
  unfold Verb.__init__, Adjective.__init__.
  split; [|split; [|split; reflexivity]].
  - intros Hend.
    repeat split; try apply predicate_init_prefix;
      rewrite predicate_init_spec, Hend; by destruct (forallb decodes lemma).
  - intros Hend Hd. split; [done|].
    rewrite predicate_init_spec, Hend, Hd. cbv zeta.
    eexists _, _. split; [reflexivity|].
    set (h1 := word_store lemma h).
    set (stem := take (length lemma - 1) lemma).
    assert (words h1 !! length (words h) = Some
              (mkWord (length (wfs h)) (length (wfs (wf_store lemma h)))
                      (length (wfs (wf_store lemma (wf_store lemma h))))))
      as Hme by apply words_word_store.
    unfold lemma_surface, root_surface, inflection_surface, surface.
    rewrite (words_put_word_eq _ _ (wf_store stem h1) _ Hme).
    cbn [mbind option_bind Obj.lemma root inflection].
    change (wfs (put_word ?a ?b ?hh)) with (wfs hh).
    rewrite (wfs_wf_store_old stem h1 _ _ (wfs_word_store_lemma lemma h)).
    rewrite (wfs_wf_store_new stem h1).
    rewrite (wfs_wf_store_old stem h1 _ _ (wfs_word_store_inflection lemma h)).
    done.
Qed.

Lemma C7_predicate_lemma_witness :
  (Verb.__init__ (u "먹") empty_heap).1 = Raise ValueError ∧
  ∃ w h', Verb.__init__ (u "먹다") empty_heap = (Ok w, h') ∧
    lemma_surface h' w = Some (u "먹다") ∧
    root_surface h' w = Some (u "먹") ∧
    inflection_surface h' w = Some (u "먹다").
Proof.
  split.
  - by apply (C7_predicate_lemma (u "먹") empty_heap).
  - by apply (C7_predicate_lemma (u "먹다") empty_heap).
Defined.

(** ** Particles *)

Lemma append_plain_ok self suffix h w ss :
  wfs h !! self = Some w → read_syls h (syllables w) = Some ss →
  forallb decodes suffix = true →
  WordForm.append self suffix false h =
  (Ok self,
   put_wf self
     (derived (ss ++ map decoded suffix)
        (syllables w ++ seq (length (syls h)) (length suffix)))
     (new_syls (map decoded suffix) h)).
Proof.
  intros Hw Hss Hd. rewrite append_plain_spec, Hd, Hw. cbv zeta.
  erewrite read_syls_app; [reflexivity| |].
  - by apply read_syls_new_syls.
  - rewrite <- (length_map decoded suffix). apply read_syls_fresh.
Qed.

Lemma surface_of_app ss1 ss2 : surface_of (ss1 ++ ss2) = surface_of ss1 ++ surface_of ss2.
Proof. unfold surface_of, join. by rewrite map_app, concat_app. Qed.

Lemma flat_jamos_app ss1 ss2 : flat_jamos (ss1 ++ ss2) = flat_jamos ss1 ++ flat_jamos ss2.
Proof. unfold flat_jamos, join. by rewrite map_app, !concat_app. Qed.

(** The store after a particle has been attached to a copy of the noun. *)
Lemma particle_init_spec word after_vowel otherwise h arg l :
  words h !! word = Some arg → wfs h !! lemma arg = Some l →
  forallb decodes (string l) = true →
  forallb decodes after_vowel = true → forallb decodes otherwise = true →
  let text := string l in
  let h1 := word_store text h in
  let particle :=
    if endswith_any (flat_jamos (map decoded text)) hangul_vowels
    then after_vowel else otherwise in
  let i := length (wfs (wf_store text (wf_store text h))) in
  particle_init word after_vowel otherwise h =
  (Ok (length (words h)),
   put_wf i
     (derived (map decoded text ++ map decoded particle)
        (syllables (built (length (syls (wf_store text (wf_store text h)))) text)
         ++ seq (length (syls h1)) (length particle)))
     (new_syls (map decoded particle) h1)).
Proof.
  intros Harg Hl Hd Hd1 Hd2. cbv zeta. unfold particle_init, Noun.__init__.
  rewrite (bind_ok _ _ _ _ _ (get_word_run _ _ _ Harg)).
  rewrite (bind_ok _ _ _ _ _ (get_wf_run _ _ _ Hl)).
  rewrite bind_run, Word_init_spec, Hd.
  rewrite (bind_ok _ _ _ _ _ (get_word_run _ _ _ (words_word_store _ _))).
  cbn [root inflection].
  rewrite (bind_ok _ _ _ _ _ (get_wf_run _ _ _ (wfs_word_store_root _ _))).
  cbn [built jamos].
  destruct (endswith_any _ hangul_vowels).
  - rewrite (bind_ok _ _ _ _ _
      (append_plain_ok _ _ _ _ _ (wfs_word_store_inflection _ _)
         (read_syls_word_store_inflection _ _) Hd1)).
    reflexivity.
  - rewrite (bind_ok _ _ _ _ _
      (append_plain_ok _ _ _ _ _ (wfs_word_store_inflection _ _)
         (read_syls_word_store_inflection _ _) Hd2)).
    reflexivity.
Qed.

(** What a particle constructor returns, read back from the store. *)
Lemma particle_init_surface word after_vowel otherwise h arg l :
  words h !! word = Some arg → wfs h !! lemma arg = Some l →
  forallb decodes (string l) = true →
  forallb decodes after_vowel = true → forallb decodes otherwise = true →
  ∃ w h', particle_init word after_vowel otherwise h = (Ok w, h') ∧
    heap_prefix h h' ∧
    root_surface h' w = Some (string l) ∧
    root_jamos h' w = Some (flat_jamos (map decoded (string l))) ∧
    inflection_surface h' w =
      Some (string l ++
            if endswith_any (flat_jamos (map decoded (string l))) hangul_vowels
            then after_vowel else otherwise).
Proof.
  intros Harg Hl Hd Hd1 Hd2.
  pose proof (particle_init_spec _ _ _ _ _ _ Harg Hl Hd Hd1 Hd2) as E.
  cbv zeta in E. eexists _, _. split; [exact E|]. clear E.
  set (text := string l).
  set (particle := if endswith_any _ _ then after_vowel else otherwise).
  set (h1 := word_store text h).
  assert (∀ r x hh, words (put_wf r x (new_syls (map decoded particle) hh))
                    = words hh) as Ewd by done.
  split.
  { apply heap_prefix_put_wf_new; [|rewrite !length_wfs_wf_store; lia].
    eapply heap_prefix_trans; eauto with store. }
  unfold root_surface, inflection_surface, root_jamos, surface, jamo_sequence.
  rewrite Ewd. unfold h1. rewrite words_word_store.
  cbn [mbind option_bind root inflection].
  change (wfs (put_wf ?r ?x (new_syls ?p ?hh))) with (wfs (put_wf r x hh)).
  rewrite (wfs_put_wf_eq _ _ _ _ (wfs_word_store_inflection text h)).
  erewrite wfs_put_wf_ne.
  3:{ apply (wfs_word_store_root text h). }
  2:{ rewrite !length_wfs_wf_store. lia. }
  cbn [fmap option_fmap option_map built derived string jamos].
  by rewrite surface_of_app, !surface_of_decoded.
Qed.




(** ** The two classifiers *)

Lemma str_endswith_snoc_char (a : str) x y : str_endswith (a ++ [x]) [y] = (y =? x).
Proof.
  unfold str_endswith. rewrite reverse_snoc. change (reverse [y]) with [y].
  rewrite startswith_char. reflexivity.
Qed.

Lemma str_getitem_last_snoc (a : str) x : str_getitem (a ++ [x]) (-1) = Ok [x].
Proof. unfold str_getitem. by rewrite list_getitem_last_snoc. Qed.

Lemma flat_jamos_snoc pre s :
  flat_jamos (pre ++ [s]) =
  flat_jamos pre ++ jamo_initial s ++ jamo_medial s ++
  (if bool_decide (jamo_final s ≠ Syllable.JAMO_NONE) then jamo_final s else []).
Proof.
  rewrite flat_jamos_app. f_equal. unfold flat_jamos, join, syllable_jamos.
  simpl. destruct (bool_decide _); simpl; by rewrite ?app_nil_r.
Qed.

Lemma Syllable_endswith_spec r jamo h s :
  syls h !! r = Some s →
  Syllable.endswith r jamo h =
  (Ok (if bool_decide (jamo_final s ≠ Syllable.JAMO_NONE)
       then bool_decide (jamo_final s = jamo)
       else bool_decide (jamo_medial s = jamo)), h).
Proof.
  intros Hr. unfold Syllable.endswith.
  rewrite (bind_ok _ _ _ _ _ (get_syl_run _ _ _ Hr)).
  change (u " ") with Syllable.JAMO_NONE. by destruct (bool_decide _).
Qed.

Lemma bool_decide_char_eq (x y : Z) : bool_decide ([x] = [y]) = (y =? x).
Proof.
  destruct (Z.eqb_spec y x) as [->|Hne].
  - by apply bool_decide_eq_true.
  - apply bool_decide_eq_false. intros [= ->]. done.
Qed.

(** In a word form whose jamo sequence is the one derived from its
    syllables, the last character of the sequence is the final of the last
    syllable, or its medial when it has no final; so the sequence ends with
    a given sound unit exactly when the last syllable does. *)
Lemma derived_jamos_classify (h : heap) (self : nat) (w : WordFormObj)
    (pre : list SyllableObj) (s : SyllableObj) (m f : Z) :
  wfs h !! self = Some w →
  read_syls h (syllables w) = Some (pre ++ [s]) →
  jamos w = flat_jamos (pre ++ [s]) →
  jamo_medial s = [m] → jamo_final s = [f] →
  (∃ last, list_getitem (syllables w) (-1) = Ok last ∧
           syls h !! last = Some s) ∧
  str_getitem (jamos w) (-1) =
    Ok (if bool_decide (jamo_final s ≠ Syllable.JAMO_NONE)
        then jamo_final s else jamo_medial s) ∧
  (∀ x, ends_with_unit self [x] h = (Ok (str_endswith (jamos w) [x]), h)) ∧
  (∀ units,
     endswith_any (jamos w) (map (λ x, [x]) units) =
     existsb (λ x, holds (ends_with_unit self [x]) h) units).
Proof.
  intros Hw Hss Hj Hm Hf.
  assert (∃ rpre rlast, syllables w = rpre ++ [rlast] ∧ syls h !! rlast = Some s)
    as (rpre & rlast & Hsyl & Hlast).
  { unfold read_syls in Hss. apply mapM_Some_1 in Hss.
    apply Forall2_app_inv_r in Hss as (rpre & rl & _ & H2 & ->).
    inversion H2 as [|? ? ? ? Hx H3]; subst. inversion H3; subst. eauto. }
  assert (∃ a, jamos w = a ++ [if bool_decide (jamo_final s ≠ Syllable.JAMO_NONE)
                               then f else m]) as [a Ha].
  { rewrite Hj, flat_jamos_snoc, Hm, Hf.
    destruct (bool_decide _).
    - exists (flat_jamos pre ++ jamo_initial s ++ [m]). by rewrite <- !app_assoc.
    - exists (flat_jamos pre ++ jamo_initial s). by rewrite app_nil_r, <- !app_assoc. }
  assert (∀ x, ends_with_unit self [x] h = (Ok (str_endswith (jamos w) [x]), h))
    as Hunit.
  { intros x. unfold ends_with_unit.
    rewrite (bind_ok _ _ _ _ _ (get_wf_run _ _ _ Hw)), bind_lift, Hsyl.
    rewrite list_getitem_last_snoc, (Syllable_endswith_spec _ _ _ _ Hlast).
    rewrite Ha, str_endswith_snoc_char, Hm, Hf, !bool_decide_char_eq.
    by repeat case_bool_decide. }
  split; [|split; [|split; [done|]]].
  - exists rlast. by rewrite Hsyl, list_getitem_last_snoc.
  - rewrite Ha, str_getitem_last_snoc, Hm, Hf. by repeat case_bool_decide.
  - intros units. unfold endswith_any.
    induction units as [|x units IH]; [done|]. simpl. rewrite IH. f_equal.
    unfold holds. by rewrite Hunit.
Qed.

(** ** The past tense *)

Lemma assign_inflection_jamo_spec self v h me infl :
  words h !! word self = Some me → wfs h !! inflection me = Some infl →
  PastTense.assign_inflection_jamo self v h = (Raise NameError, h).
Proof.
  intros Hme Hi. unfold PastTense.assign_inflection_jamo.
  rewrite (bind_ok _ _ _ _ _ (get_word_run _ _ _ Hme)).
  rewrite (bind_ok _ _ _ _ _ (get_wf_run _ _ _ Hi)).
  reflexivity.
Qed.

Lemma _build_base_inflection_spec self h me r infl :
  words h !! word self = Some me → wfs h !! root me = Some r →
  wfs h !! inflection me = Some infl →
  PastTense._build_base_inflection self h =
  (if str_endswith (string r) (u "하") then Ok tt
   else if endswith_any (jamos r) [u "ㅏ"; u "ㅗ"; u "ㅑ"; u "ㅛ"] then
     if str_endswith (jamos r) (u "ㅗ") then Raise NameError else Ok tt
   else if str_endswith (jamos r) (u "ㅜ") then Raise NameError
   else if str_endswith (jamos r) (u "ㅣ") then Raise NameError
   else if str_endswith (jamos r) (u "ㅕ") then Raise NameError
   else Ok tt, h).
Proof.
  intros Hme Hr Hi. unfold PastTense._build_base_inflection.
  rewrite (bind_ok _ _ _ _ _ (get_word_run _ _ _ Hme)).
  rewrite (bind_ok _ _ _ _ _ (get_wf_run _ _ _ Hr)).
  pose proof (λ v, assign_inflection_jamo_spec self v h me infl Hme Hi) as Ha.
  destruct (str_endswith (string r) (u "하")); [done|].
  destruct (endswith_any (jamos r) _).
  - rewrite bind_run.
    destruct (str_endswith (jamos r) (u "ㅏ")); rewrite ret_run;
      (destruct (str_endswith (jamos r) (u "ㅗ")); [apply Ha|done]).
  - rewrite bind_run.
    destruct (str_endswith (jamos r) (u "ㅜ")); [by rewrite Ha|]. rewrite ret_run.
    rewrite bind_run.
    destruct (str_endswith (jamos r) (u "ㅣ")); [by rewrite Ha|]. rewrite ret_run.
    rewrite bind_run.
    destruct (str_endswith (jamos r) (u "ㅓ")); rewrite ret_run;
      (destruct (str_endswith (jamos r) (u "ㅕ")); [apply Ha|done]).
Qed.

Lemma str_endswith_char_unique (s : str) x y :
  str_endswith s [x] = true → str_endswith s [y] = true → x = y.
Proof.
  destruct s as [|c a _] using rev_ind; [done|].
  rewrite !str_endswith_snoc_char. intros ->%Z.eqb_eq ->%Z.eqb_eq. done.
Qed.

Ltac eval_literals :=
  repeat match goal with
         | |- context [u ?s] =>
           let v := eval vm_compute in (u s) in change (u s) with v
         | H : context [u ?s] |- _ =>
           let v := eval vm_compute in (u s) in change (u s) with v in H
         end.

Ltac split_endings s :=
  repeat match goal with
         | |- context [str_endswith s ?x] =>
           let E := fresh "E" in destruct (str_endswith s x) eqn:E
         end.

Ltac clash_endings :=
  match goal with
  | H1 : str_endswith ?s [?x] = true, H2 : str_endswith ?s [?y] = true |- _ =>
    let E := fresh in
    pose proof (str_endswith_char_unique s x y H1 H2) as E; discriminate E
  end.

(** Where the past tense raises: on the four stems for which the code
    assigns into the jamo sequence, and nowhere else. *)
Lemma _build_base_inflection_result self h me r infl :
  words h !! word self = Some me → wfs h !! root me = Some r →
  wfs h !! inflection me = Some infl →
  PastTense._build_base_inflection self h =
  (if str_endswith (string r) (u "하")
      || negb (endswith_any (jamos r) [u "ㅗ"; u "ㅜ"; u "ㅣ"; u "ㅕ"])
   then Ok tt else Raise NameError, h).
Proof.
  intros Hme Hr Hi. rewrite (_build_base_inflection_spec _ _ _ _ _ Hme Hr Hi).
  unfold endswith_any. cbn [existsb]. eval_literals.
  destruct (str_endswith (string r) [54616]); [done|].
  split_endings (jamos r);
  cbn [orb negb]; try reflexivity; try clash_endings.
Qed.

(** C8, as the code has it. [_build_base_inflection] never changes the
    store, so it never produces an inflection of its own; on a stem outside
    its table it returns without raising anything; it raises, with
    [NameError], only on stems of the table. *)
Theorem C8_past_tense_outside_table (h : heap) (self : Conjugation)
    (me : WordObj) (r infl : WordFormObj) :
  words h !! word self = Some me → wfs h !! root me = Some r →
  wfs h !! inflection me = Some infl →
  (PastTense._build_base_inflection self h).2 = h ∧
  (outside_table r → (PastTense._build_base_inflection self h).1 = Ok tt) ∧
  ((PastTense._build_base_inflection self h).1 = Ok tt ∨
   (PastTense._build_base_inflection self h).1 = Raise NameError ∧
   ¬ outside_table r).
Proof.
  intros Hme Hr Hi.
  rewrite (_build_base_inflection_result _ _ _ _ _ Hme Hr Hi).
  split; [done|].
  unfold outside_table, endswith_any. cbn [existsb fst snd]. eval_literals.
  destruct (str_endswith (string r) [54616]); [by eauto|].
  split_endings (jamos r);
  cbn [orb negb]; try clash_endings;
    (split; [intros [?|?]; done || eauto|]); eauto;
    right; (split; [done|]); intros [?|?]; done.
Qed.

Lemma C8_past_tense_outside_table_witness :
  let h := (run (v ← Verb.__init__ (u "하다"); PastTense.__init__ v)).2 in
  (PastTense._build_base_inflection (mkConjugation 1) h).2 = h ∧
  (PastTense._build_base_inflection (mkConjugation 1) h).1 = Ok tt ∧
  inflection_surface h 1 = Some (u "하다").
Proof.
  intros h.
  destruct (C8_past_tense_outside_table h (mkConjugation 1) (mkWord 4 7 8)
              (built 13 (u "하")) (built 14 (u "하다")))
    as (Hsame & Hout & _); [vm_compute; reflexivity..|].
  split; [exact Hsame|]. split; [|vm_compute; reflexivity].
  apply Hout. left. vm_compute. reflexivity.
Defined.

(** C8, as stated, fails on the stem of the auxiliary: its past tense
    raises nothing. *)
Lemma C8_do_stem_raises_nothing :
  (run (past_tense_of (u "하다"))).1 = Ok tt ∧
  ¬ ∃ e, (run (past_tense_of (u "하다"))).1 = Raise e.
Proof.
  assert ((run (past_tense_of (u "하다"))).1 = Ok tt) as E
    by (vm_compute; reflexivity).
  split; [exact E|]. intros [e He]. rewrite E in He. discriminate He.
Qed.

(** ** Separation *)

Section FrameRules.

Variable h0 : heap.

Lemma sep_refl : sep h0 h0.
Proof.
  split; [apply heap_prefix_refl|]. split.
  - intros r w Hr Hf. apply lookup_lt_Some in Hr. unfold fresh_wf in Hf. lia.
  - intros r me Hr Hf. apply lookup_lt_Some in Hr. unfold fresh_word in Hf. lia.
Qed.

Lemma preserves_ret {A} (a : A) (Q : A → Prop) : Q a → preserves h0 (mret a) Q.
Proof. intros Ha h Hh. split; [done|]. by intros ? [= <-]. Qed.

Lemma preserves_raise {A} (e : exn) (Q : A → Prop) : preserves h0 (raise e) Q.
Proof. intros h Hh. split; [done|]. intros ? [=]. Qed.

Lemma preserves_lift {A} (r : result A) (Q : A → Prop) :
  (∀ a, r = Ok a → Q a) → preserves h0 (lift r) Q.
Proof. intros Hr h Hh. split; [done|]. simpl. auto. Qed.

Lemma preserves_bind {A B} (m : M A) (f : A → M B) (Q : A → Prop) (R : B → Prop) :
  preserves h0 m Q → (∀ a, Q a → preserves h0 (f a) R) →
  preserves h0 (m ≫= f) R.
Proof.
  intros Hm Hf h Hh. rewrite bind_run.
  destruct (Hm h Hh) as [Hsep HQ].
  destruct (m h) as [[a|e] h1]; simpl in *.
  - by apply Hf, Hsep; auto.
  - split; [done|]. intros ? [=].
Qed.

Lemma preserves_weaken {A} (m : M A) (Q Q' : A → Prop) :
  preserves h0 m Q → (∀ a, Q a → Q' a) → preserves h0 m Q'.
Proof. intros Hm HQ h Hh. destruct (Hm h Hh). split; auto. Qed.

Lemma preserves_mapM {A B} (f : A → M B) (l : list A) (Q : B → Prop) :
  (∀ x, preserves h0 (f x) Q) → preserves h0 (mapM f l) (Forall Q).
Proof.
  intros Hf. induction l as [|x l IH]; cbn [mapM].
  - by apply preserves_ret.
  - eapply preserves_bind; [apply Hf|]. intros y Hy.
    eapply preserves_bind; [apply IH|]. intros k Hk.
    apply preserves_ret. by constructor.
Qed.

Lemma preserves_get_syl r : preserves h0 (get_syl r) (λ _, True).
Proof. intros h Hh. unfold get_syl. by destruct (syls h !! r). Qed.

Lemma preserves_get_wf r :
  preserves h0 (get_wf r) (λ w, fresh_wf h0 r → fresh_form h0 w).
Proof.
  intros h Hh. unfold get_wf. destruct (wfs h !! r) as [w|] eqn:Hr; simpl.
  - split; [done|]. intros ? [= <-] Hf. destruct Hh as (_ & Hw & _). eauto.
  - split; [done|]. intros ? [=].
Qed.

Lemma preserves_get_word r :
  preserves h0 (get_word r) (λ me, fresh_word h0 r → fresh_refs h0 me).
Proof.
  intros h Hh. unfold get_word. destruct (words h !! r) as [w|] eqn:Hr; simpl.
  - split; [done|]. intros ? [= <-] Hf. destruct Hh as (_ & _ & Hw). eauto.
  - split; [done|]. intros ? [=].
Qed.

Lemma preserves_alloc_syl s : preserves h0 (alloc_syl s) (fresh_syl h0).
Proof.
  intros h (Hp & Hw & Hwd). simpl. split.
  - split; [|done]. eapply heap_prefix_trans; [exact Hp|].
    apply (heap_prefix_new_syls [s]).
  - intros ? [= <-]. destruct Hp as (Hs & _). apply prefix_length in Hs. done.
Qed.

Lemma preserves_alloc_wf w :
  fresh_form h0 w → preserves h0 (alloc_wf w) (fresh_wf h0).
Proof.
  intros Hfw h (Hp & Hw & Hwd). simpl. split.
  - split; [|split; [|done]].
    + eapply heap_prefix_trans; [exact Hp|]. apply heap_prefix_new_wf.
    + intros r x Hr Hf. simpl in Hr.
      apply lookup_snoc_Some in Hr as [[_ Hr]|[_ <-]]; eauto.
  - intros ? [= <-]. destruct Hp as (_ & Hs & _). apply prefix_length in Hs. done.
Qed.

Lemma preserves_alloc_word me :
  fresh_refs h0 me → preserves h0 (alloc_word me) (fresh_word h0).
Proof.
  intros Hfw h (Hp & Hw & Hwd). simpl. split.
  - split; [|split; [done|]].
    + eapply heap_prefix_trans; [exact Hp|]. apply heap_prefix_new_word.
    + intros r x Hr Hf. simpl in Hr.
      apply lookup_snoc_Some in Hr as [[_ Hr]|[_ <-]]; eauto.
  - intros ? [= <-]. destruct Hp as (_ & _ & Hs). apply prefix_length in Hs. done.
Qed.

Lemma preserves_mod_syl r f :
  fresh_syl h0 r → preserves h0 (mod_syl r f) (λ _, True).
Proof.
  intros Hr h Hh. unfold mod_syl.
  destruct (syls h !! r) as [s|]; simpl; [|by split].
  destruct Hh as (Hp & Hw & Hwd).
  split; [|done]. split; [|done].
  by apply (heap_prefix_put_syl_new r (f s) h0 h).
Qed.

Lemma preserves_mod_wf r f :
  fresh_wf h0 r → (∀ w, fresh_form h0 w → fresh_form h0 (f w)) →
  preserves h0 (mod_wf r f) (λ _, True).
Proof.
  intros Hr Hf h Hh. unfold mod_wf.
  destruct (wfs h !! r) as [w|] eqn:Hlook; simpl; [|by split].
  destruct Hh as (Hp & Hw & Hwd).
  split; [|done]. split; [|split; [|done]].
  - by apply (heap_prefix_put_wf_new r (f w) h0 h).
  - intros r' x Hr' Hfr. simpl in Hr'.
    destruct (decide (r = r')) as [<-|Hne].
    + rewrite list_lookup_insert_eq in Hr' by (by eapply lookup_lt_Some).
      injection Hr' as <-. eauto.
    + rewrite list_lookup_insert_ne in Hr' by done. eauto.
Qed.

Lemma preserves_mod_word r f :
  fresh_word h0 r → (∀ me, fresh_refs h0 me → fresh_refs h0 (f me)) →
  preserves h0 (mod_word r f) (λ _, True).
Proof.
  intros Hr Hf h Hh. unfold mod_word.
  destruct (words h !! r) as [w|] eqn:Hlook; simpl; [|by split].
  destruct Hh as (Hp & Hw & Hwd).
  split; [|done]. split; [|split; [done|]].
  - by apply (heap_prefix_put_word_new r (f w) h0 h).
  - intros r' x Hr' Hfr. simpl in Hr'.
    destruct (decide (r = r')) as [<-|Hne].
    + rewrite list_lookup_insert_eq in Hr' by (by eapply lookup_lt_Some).
      injection Hr' as <-. eauto.
    + rewrite list_lookup_insert_ne in Hr' by done. eauto.
Qed.

End FrameRules.

Create HintDb frame.

Section FrameMethods.

Variable h0 : heap.

Lemma preserves_lift_any {A} (r : result A) : preserves h0 (lift r) (λ _, True).
Proof. by apply preserves_lift. Qed.

Lemma preserves_getitem {A} (l : list A) (i : Z) :
  preserves h0 (lift (list_getitem l i)) (λ a, a ∈ l).
Proof.
  apply preserves_lift. intros a. unfold list_getitem.
  repeat case_match; try done; intros [= <-]; by eapply list_elem_of_lookup_2.
Qed.

Lemma preserves_true {A} (m : M A) (Q : A → Prop) :
  preserves h0 m Q → preserves h0 m (λ _, True).
Proof. intros Hm. eapply preserves_weaken; [exact Hm|done]. Qed.

#[local] Hint Resolve preserves_get_syl preserves_get_wf preserves_get_word
  preserves_alloc_syl preserves_alloc_wf preserves_alloc_word
  preserves_mod_syl preserves_mod_wf preserves_mod_word
  preserves_lift_any preserves_getitem : frame.

Ltac frame :=
  repeat (cbv zeta; first
    [ apply preserves_raise
    | apply preserves_ret; solve [auto]
    | eapply preserves_bind;
      [ solve [eauto 4 with frame] | intros ? ? ]
    | match goal with
      | |- preserves _ (if ?b then _ else _) _ => destruct b
      end
    | solve [eauto 4 with frame] ]).

Lemma preserves_decompose r :
  fresh_syl h0 r → preserves h0 (Syllable._decompose r) (λ _, True).
Proof. intros Hr. unfold Syllable._decompose. frame. Qed.

Lemma preserves_compose r :
  fresh_syl h0 r → preserves h0 (Syllable._compose r) (λ _, True).
Proof. intros Hr. unfold Syllable._compose. frame. Qed.

#[local] Hint Resolve preserves_decompose preserves_compose : frame.

Lemma preserves_from_syllable s :
  preserves h0 (Syllable.from_syllable s) (fresh_syl h0).
Proof. unfold Syllable.from_syllable, Syllable.__init__. frame. Qed.

Lemma preserves_from_jamos i m f :
  preserves h0 (Syllable.from_jamos i m f) (fresh_syl h0).
Proof. unfold Syllable.from_jamos, Syllable.__init__. frame. Qed.

Lemma preserves_Syllable_append r jf :
  fresh_syl h0 r → preserves h0 (Syllable.append r jf) (λ _, True).
Proof. intros Hr. unfold Syllable.append. frame. Qed.

#[local] Hint Resolve preserves_from_syllable preserves_from_jamos
  preserves_Syllable_append : frame.

Lemma preserves_decode_each text :
  preserves h0 (WordForm.decode_each text) (Forall (fresh_syl h0)).
Proof. unfold WordForm.decode_each. apply preserves_mapM. intros c. frame. Qed.

Lemma preserves_read_each {B} (f : SyllableObj → B) rs :
  preserves h0 (mapM (λ r : nat, s ← get_syl r; mret (f s)) rs) (λ _, True).
Proof.
  eapply preserves_true, (preserves_mapM _ _ _ (λ _, True)). intros r. frame.
Qed.

#[local] Hint Resolve preserves_decode_each preserves_read_each : frame.

Lemma preserves_build_jamo_sequence self :
  fresh_wf h0 self →
  preserves h0 (WordForm._build_jamo_sequence self) (λ _, True).
Proof. intros Hs. unfold WordForm._build_jamo_sequence. frame. Qed.

Lemma preserves_syllabes_to_word self :
  fresh_wf h0 self →
  preserves h0 (WordForm._syllabes_to_word self) (λ _, True).
Proof. intros Hs. unfold WordForm._syllabes_to_word. frame. Qed.

#[local] Hint Resolve preserves_build_jamo_sequence
  preserves_syllabes_to_word : frame.

Lemma preserves_WordForm_init text :
  preserves h0 (WordForm.__init__ text) (fresh_wf h0).
Proof. unfold WordForm.__init__. frame. Qed.

#[local] Hint Resolve preserves_WordForm_init : frame.

Lemma preserves_WordForm_copy self :
  preserves h0 (WordForm.copy self) (fresh_wf h0).
Proof. unfold WordForm.copy. frame. Qed.

Lemma fresh_form_extend new w :
  Forall (fresh_syl h0) new → fresh_form h0 w →
  fresh_form h0 (extend_syllables new w).
Proof. intros Hn Hw. unfold fresh_form. simpl. by apply Forall_app. Qed.

Lemma preserves_WordForm_append self suffix merge :
  fresh_wf h0 self →
  preserves h0 (WordForm.append self suffix merge) (λ _, True).
Proof.
  intros Hs. unfold WordForm.append.
  eapply preserves_bind; [|intros ? _; frame].
  destruct merge.
  - eapply preserves_bind; [apply preserves_lift_any|]. intros c0 _.
    destruct (negb _); [apply preserves_raise|].
    eapply preserves_bind; [apply preserves_get_wf|]. intros w Hw.
    eapply preserves_bind; [apply preserves_getitem|]. intros last Hlast.
    assert (fresh_syl h0 last) as Hfl.
    { specialize (Hw Hs). unfold fresh_form in Hw.
      rewrite list.Forall_forall in Hw. by apply Hw. }
    eapply preserves_bind; [by apply preserves_Syllable_append|]. intros _ _.
    eapply preserves_bind; [apply preserves_decode_each|]. intros new Hnew.
    apply preserves_mod_wf; [done|]. intros. by apply fresh_form_extend.
  - eapply preserves_bind; [apply preserves_decode_each|]. intros new Hnew.
    apply preserves_mod_wf; [done|]. intros. by apply fresh_form_extend.
Qed.

#[local] Hint Resolve preserves_WordForm_copy preserves_WordForm_append : frame.

Lemma preserves_Word_init lemma :
  preserves h0 (Word.__init__ lemma) (fresh_word h0).
Proof.
  unfold Word.__init__.
  eapply preserves_bind; [apply preserves_WordForm_init|]. intros l Hl.
  eapply preserves_bind; [apply preserves_WordForm_init|]. intros r Hr.
  eapply preserves_bind; [apply preserves_WordForm_init|]. intros i Hi.
  by apply preserves_alloc_word.
Qed.

Lemma fresh_refs_set_root r me :
  fresh_wf h0 r → fresh_refs h0 me → fresh_refs h0 (set_root r me).
Proof. intros Hr (?&?&?). by repeat split. Qed.

Lemma fresh_refs_set_inflection r me :
  fresh_wf h0 r → fresh_refs h0 me → fresh_refs h0 (set_inflection r me).
Proof. intros Hr (?&?&?). by repeat split. Qed.

#[local] Hint Resolve preserves_Word_init fresh_refs_set_root
  fresh_refs_set_inflection : frame.

Lemma preserves_Word_copy self :
  preserves h0 (Word.copy self) (fresh_word h0).
Proof.
  unfold Word.copy.
  eapply preserves_bind; [apply preserves_get_word|]. intros me _.
  eapply preserves_bind; [apply preserves_get_wf|]. intros l _.
  eapply preserves_bind; [apply preserves_Word_init|]. intros word Hword.
  eapply preserves_bind; [apply preserves_WordForm_copy|]. intros r Hr.
  eapply preserves_bind; [apply preserves_mod_word; eauto with frame|].
  intros _ _.
  eapply preserves_bind; [apply preserves_WordForm_copy|]. intros i Hi.
  eapply preserves_bind; [apply preserves_mod_word; eauto with frame|].
  intros _ _. by apply preserves_ret.
Qed.

Lemma preserves_particle_init word after_vowel otherwise :
  preserves h0 (particle_init word after_vowel otherwise) (fresh_word h0).
Proof.
  unfold particle_init, Noun.__init__.
  eapply preserves_bind; [apply preserves_get_word|]. intros arg _.
  eapply preserves_bind; [apply preserves_get_wf|]. intros l _.
  eapply preserves_bind; [apply preserves_Word_init|]. intros self Hself.
  eapply preserves_bind; [apply preserves_get_word|]. intros me Hme.
  destruct (Hme Hself) as (_ & _ & Hi).
  eapply preserves_bind; [apply preserves_get_wf|]. intros r _.
  eapply preserves_bind; [|intros _ _; by apply preserves_ret].
  destruct (endswith_any _ _); by apply preserves_WordForm_append.
Qed.

Lemma preserves_predicate_init lemma :
  preserves h0 (predicate_init lemma) (fresh_word h0).
Proof.
  unfold predicate_init.
  eapply preserves_bind; [apply preserves_Word_init|]. intros self Hself.
  eapply preserves_bind; [apply preserves_get_word|]. intros me Hme.
  eapply preserves_bind; [apply preserves_get_wf|]. intros l _.
  destruct (str_endswith _ _); [|apply preserves_raise].
  eapply preserves_bind; [apply preserves_get_wf|]. intros l' _.
  eapply preserves_bind; [apply preserves_WordForm_init|]. intros r Hr.
  eapply preserves_bind; [apply preserves_mod_word; eauto with frame|].
  intros _ _. by apply preserves_ret.
Qed.

Lemma preserves_informalLow self :
  fresh_word h0 (word self) →
  preserves h0 (PresentTense.informalLow self) (λ _, True).
Proof.
  intros Hself. unfold PresentTense.informalLow.
  eapply preserves_bind; [apply preserves_get_word|]. intros me Hme.
  eapply preserves_bind; [apply preserves_WordForm_copy|]. intros i Hi.
  eapply preserves_bind; [apply preserves_mod_word; eauto with frame|].
  intros _ _.
  eapply preserves_bind; [apply preserves_get_word|]. intros me' Hme'.
  destruct (Hme' Hself) as (_ & _ & Hi').
  eapply preserves_bind; [apply preserves_get_wf|]. intros r _.
  eapply preserves_bind; [|intros _ _; by apply preserves_ret].
  destruct (endswith_any _ _); by apply preserves_WordForm_append.
Qed.

Lemma preserves_PresentPolite w :
  preserves h0 (PresentPolite.__init__ w) (λ c, fresh_word h0 (word c)).
Proof.
  unfold PresentPolite.__init__.
  eapply preserves_bind; [apply preserves_Word_copy|]. intros c Hc.
  eapply preserves_bind; [apply preserves_get_word|]. intros me Hme.
  eapply preserves_bind; [apply preserves_WordForm_copy|]. intros i Hi.
  eapply preserves_bind; [apply preserves_mod_word; eauto with frame|].
  intros _ _.
  eapply preserves_bind; [apply preserves_get_word|]. intros me' Hme'.
  destruct (Hme' Hc) as (_ & _ & Hi').
  eapply preserves_bind; [apply preserves_get_wf|]. intros r _.
  eapply preserves_bind; [|intros _ _; by apply preserves_ret].
  destruct (endswith_any _ _); by apply preserves_WordForm_append.
Qed.

Lemma preserves_PresentTense w :
  preserves h0 (PresentTense.__init__ w) (λ c, fresh_word h0 (word c)).
Proof.
  unfold PresentTense.__init__.
  eapply preserves_bind; [apply preserves_Word_copy|]. intros c Hc.
  by apply preserves_ret.
Qed.

Lemma preserves_PastTense w :
  preserves h0 (PastTense.__init__ w) (λ c, fresh_word h0 (word c)).
Proof.
  unfold PastTense.__init__.
  eapply preserves_bind; [apply preserves_Word_copy|]. intros c Hc.
  by apply preserves_ret.
Qed.

Lemma preserves_assign_inflection_jamo self v :
  preserves h0 (PastTense.assign_inflection_jamo self v) (λ _, True).
Proof. unfold PastTense.assign_inflection_jamo. frame. Qed.

#[local] Hint Resolve preserves_assign_inflection_jamo : frame.

Lemma preserves_maybe_assign (b : bool) self v :
  preserves h0 (if b then PastTense.assign_inflection_jamo self v else mret tt)
    (λ _, True).
Proof. destruct b; [frame|by apply preserves_ret]. Qed.

Lemma preserves_pass (b : bool) :
  preserves h0 (if b then mret tt else mret tt) (λ _, True).
Proof. destruct b; by apply preserves_ret. Qed.

Lemma preserves_build_base_inflection self :
  preserves h0 (PastTense._build_base_inflection self) (λ _, True).
Proof.
  unfold PastTense._build_base_inflection.
  eapply preserves_bind; [apply preserves_get_word|]. intros me _.
  eapply preserves_bind; [apply preserves_get_wf|]. intros r _.
  destruct (str_endswith (string r) _); [by apply preserves_ret|].
  destruct (endswith_any _ _).
  - eapply preserves_bind; [apply preserves_pass|]. intros _ _.
    apply preserves_maybe_assign.
  - eapply preserves_bind; [apply preserves_maybe_assign|]. intros _ _.
    eapply preserves_bind; [apply preserves_maybe_assign|]. intros _ _.
    eapply preserves_bind; [apply preserves_pass|]. intros _ _.
    apply preserves_maybe_assign.
Qed.

(** Every store derived from [h0] is separated from it. *)
Lemma derives_sep h : derives h0 h → sep h0 h.
Proof.
  induction 1 as [| h text _ IH | h form _ IH | h form suffix merge _ IH Hf
                  | h lemma _ IH | h lemma _ IH | h lemma _ IH | h w _ IH
                  | h w _ IH | h w _ IH | h w _ IH | h w _ IH | h w _ IH
                  | h c _ IH Hc | h w _ IH | h c _ IH ].
  - apply sep_refl.
  - by apply preserves_WordForm_init.
  - by apply preserves_WordForm_copy.
  - by apply preserves_WordForm_append.
  - by apply preserves_Word_init.
  - by apply preserves_predicate_init.
  - by apply preserves_predicate_init.
  - by apply preserves_Word_copy.
  - by apply preserves_particle_init.
  - by apply preserves_particle_init.
  - by apply preserves_particle_init.
  - by apply preserves_PresentPolite.
  - by apply preserves_PresentTense.
  - by apply preserves_informalLow.
  - by apply preserves_PastTense.
  - by apply preserves_build_base_inflection.
Qed.

End FrameMethods.

(** ** Copies *)

(** C9. A copy of a word is a new object, and nothing that is done to it or
    derived from it reaches the original: in every store derived from [h0]
    by constructions and by changes to objects [h0] does not have, the
    inflection of every new word is such an object, and the word [w] of
    [h0], its three forms and every syllable of [h0] are as they were. *)
Theorem C9_copy_isolation (h0 : heap) (w : nat) (me : WordObj)
    (l r i : WordFormObj) (c : nat) (h1 : heap) :
  words h0 !! w = Some me →
  wfs h0 !! lemma me = Some l → wfs h0 !! root me = Some r →
  wfs h0 !! inflection me = Some i →
  Word.copy w h0 = (Ok c, h1) →
  fresh_word h0 c ∧ derives h0 h1 ∧
  ∀ h, derives h0 h →
    (∀ d you, words h !! d = Some you → fresh_word h0 d →
              fresh_wf h0 (inflection you)) ∧
    words h !! w = Some me ∧
    wfs h !! lemma me = Some l ∧ wfs h !! root me = Some r ∧
    wfs h !! inflection me = Some i ∧
    (∀ s x, syls h0 !! s = Some x → syls h !! s = Some x) ∧
    lemma_surface h w = lemma_surface h0 w ∧
    root_surface h w = root_surface h0 w ∧
    inflection_surface h w = inflection_surface h0 w.
Proof.
  intros Hme Hl Hr Hi Hcopy. split; [|split].
  - destruct (preserves_Word_copy h0 w h0 (sep_refl h0)) as [_ Hc].
    apply Hc. by rewrite Hcopy.
  - replace h1 with (Word.copy w h0).2 by (by rewrite Hcopy).
    apply derives_copy, derives_start.
  - intros h Hd. apply derives_sep in Hd as (Hp & Hforms & Hwords).
    pose proof (heap_prefix_lookup_word _ _ _ _ Hp Hme) as Hme'.
    pose proof (heap_prefix_lookup_wf _ _ _ _ Hp Hl) as Hl'.
    pose proof (heap_prefix_lookup_wf _ _ _ _ Hp Hr) as Hr'.
    pose proof (heap_prefix_lookup_wf _ _ _ _ Hp Hi) as Hi'.
    split; [intros d you Hd Hf; by apply (Hwords d you Hd Hf)|].
    repeat split; try done.
    + intros s x. by apply heap_prefix_lookup_syl.
    + unfold lemma_surface, surface. rewrite Hme, Hme'. simpl. by rewrite Hl, Hl'.
    + unfold root_surface, surface. rewrite Hme, Hme'. simpl. by rewrite Hr, Hr'.
    + unfold inflection_surface, surface. rewrite Hme, Hme'. simpl.
      by rewrite Hi, Hi'.
Qed.

Lemma C9_copy_isolation_witness :
  let h0 := (run (Verb.__init__ (u "먹다"))).2 in
  let h1 := (Word.copy 0 h0).2 in
  fresh_word h0 1 ∧ derives h0 h1 ∧
  ∀ h, derives h0 h →
    (∀ d you, words h !! d = Some you → fresh_word h0 d →
              fresh_wf h0 (inflection you)) ∧
    words h !! 0%nat = Some (mkWord 0 3 2) ∧
    wfs h !! 0%nat = Some (built 0 (u "먹다")) ∧
    wfs h !! 3%nat = Some (built 6 (u "먹")) ∧
    wfs h !! 2%nat = Some (built 4 (u "먹다")) ∧
    (∀ s x, syls h0 !! s = Some x → syls h !! s = Some x) ∧
    lemma_surface h 0 = lemma_surface h0 0 ∧
    root_surface h 0 = root_surface h0 0 ∧
    inflection_surface h 0 = inflection_surface h0 0.
Proof.
  intros h0 h1.
  apply (C9_copy_isolation h0 0 (mkWord 0 3 2) (built 0 (u "먹다"))
           (built 6 (u "먹")) (built 4 (u "먹다")) 1 h1);
    vm_compute; reflexivity.
Defined.

(** Conjugating a copy: the copy says U+BA39 U+C2B5 U+B2C8 U+B2E4, the
    original still says its lemma. *)
Example conjugated_copy :
  let h0 := (run (Verb.__init__ (u "먹다"))).2 in
  match PresentPolite.__init__ 0 h0 with
  | (Ok p, h) =>
    inflection_surface h (word p) = Some (u "먹습니다") ∧
    inflection_surface h 0 = Some (u "먹다")
  | (Raise _, _) => False
  end.
Proof. vm_compute. split; reflexivity. Qed.

(** ** Failing operations *)

Lemma read_syls_bound h rs ss :
  read_syls h rs = Some ss → Forall (λ r : nat, (r < length (syls h))%nat) rs.
Proof.
  unfold read_syls. intros H%mapM_Some_1.
  induction H; constructor; [by eapply lookup_lt_Some|done].
Qed.

Lemma read_syls_total h rs :
  Forall (λ r : nat, (r < length (syls h))%nat) rs → ∃ ss, read_syls h rs = Some ss.
Proof.
  unfold read_syls. induction 1 as [|r rs Hr _ [ss IH]]; [by exists []|].
  destruct (lookup_lt_is_Some_2 _ _ Hr) as [s Hs].
  exists (s :: ss). apply mapM_Some_2. constructor; [done|].
  by apply mapM_Some_1.
Qed.

(** References that could be read can be read again after the store has
    grown, together with the new addresses. *)
Lemma read_syls_extended h h1 rs ss D :
  read_syls h rs = Some ss → length (syls h1) = length (syls h) →
  ∃ ss', read_syls (new_syls D h1) (rs ++ seq (length (syls h1)) (length D))
         = Some ss'.
Proof.
  intros Hss Hlen. apply read_syls_total. apply Forall_app. split.
  - apply read_syls_bound in Hss.
    eapply list.Forall_impl; [exact Hss|]. intros r Hr. simpl in *.
    rewrite length_app. lia.
  - apply list.Forall_forall. intros r Hr%elem_of_seq. simpl.
    rewrite length_app. lia.
Qed.

Lemma heap_prefix_constructors h :
  (∀ s, heap_prefix h (Syllable.from_syllable s h).2) ∧
  (∀ text, heap_prefix h (WordForm.__init__ text h).2) ∧
  (∀ lemma, heap_prefix h (Word.__init__ lemma h).2) ∧
  (∀ lemma, heap_prefix h (predicate_init lemma h).2) ∧
  (∀ w after_vowel otherwise,
     heap_prefix h (particle_init w after_vowel otherwise h).2) ∧
  (∀ w, heap_prefix h (Word.copy w h).2) ∧
  (∀ w, heap_prefix h (PresentPolite.__init__ w h).2).
Proof.
  pose proof (sep_refl h) as Hh.
  split; [intros s; by apply (preserves_from_syllable h s h Hh)|].
  split; [intros text; by apply (preserves_WordForm_init h text h Hh)|].
  split; [intros lemma; by apply (preserves_Word_init h lemma h Hh)|].
  split; [intros lemma; by apply (preserves_predicate_init h lemma h Hh)|].
  split; [intros w a o; by apply (preserves_particle_init h w a o h Hh)|].
  split; [intros w; by apply (preserves_Word_copy h w h Hh)|].
  intros w; by apply (preserves_PresentPolite h w h Hh).
Qed.

(** A failing [append] without merge has only decoded characters. *)
Lemma append_plain_fails self suffix h w ss e h' :
  wfs h !! self = Some w → read_syls h (syllables w) = Some ss →
  WordForm.append self suffix false h = (Raise e, h') →
  e = IndexError ∧ h' = new_syls (attempted suffix) h.
Proof.
  intros Hw Hss. rewrite append_plain_spec.
  destruct (forallb decodes suffix); [|by intros [= <- <-]].
  rewrite Hw. cbv zeta.
  destruct (read_syls_extended h h (syllables w) ss (map decoded suffix) Hss
              eq_refl) as [ss' Hss'].
  rewrite length_map in Hss'. by rewrite Hss'.
Qed.

(** A failing [append] with merge, case by case. *)
Lemma append_merge_fails self suffix h w ss e h' :
  wfs h !! self = Some w → read_syls h (syllables w) = Some ss →
  WordForm.append self suffix true h = (Raise e, h') →
  h' = h ∨
  ∃ c0 rest last s,
    suffix = c0 :: rest ∧ c0 ∈ Syllable.INITIAL_JAMOS ∧
    list_getitem (syllables w) (-1) = Ok last ∧ syls h !! last = Some s ∧
    jamo_final s = Syllable.JAMO_NONE ∧
    (h' = put_syl last (set_jamo_final [c0] s) h ∨
     ∃ c', h' = new_syls (attempted rest)
                  (put_syl last (set_syllable c' (set_jamo_final [c0] s)) h)).
Proof.
  intros Hw Hss. rewrite append_merge_spec.
  destruct suffix as [|c0 rest]; [intros [= <- <-]; by left|].
  destruct (str_contains [c0] Syllable.INITIAL_JAMOS) eqn:Hguard;
    simpl negb; cbv iota; [|intros [= <- <-]; by left].
  apply str_contains_char in Hguard. rewrite Hw.
  destruct (list_getitem (syllables w) (-1)) as [last|e'] eqn:Hlast;
    [|intros [= <- <-]; by left].
  rewrite Syllable_append_spec.
  destruct (syls h !! last) as [s|] eqn:Hs; [|intros [= <- <-]; by left].
  destruct (bool_decide (jamo_final s ≠ Syllable.JAMO_NONE)) eqn:Hfin;
    [intros [= <- <-]; by left|].
  apply bool_decide_eq_false in Hfin. apply dec_stable in Hfin.
  destruct (composed (set_jamo_final [c0] s)) as [c'|e''] eqn:Hcomp.
  2:{ intros [= <- <-]. right. exists c0, rest, last, s. eauto 10. }
  destruct (forallb decodes rest) eqn:Hd.
  2:{ intros [= <- <-]. right. exists c0, rest, last, s. eauto 10. }
  cbv zeta.
  set (h1 := put_syl last (set_syllable c' (set_jamo_final [c0] s)) h).
  destruct (read_syls_extended h h1 (syllables w) ss (map decoded rest) Hss)
    as [ss' Hss'].
  { subst h1. simpl. by rewrite length_insert. }
  rewrite length_map in Hss'. by rewrite Hss'.
Qed.

(** C4, as the code has it. Decoding and construction leave every object of
    the store as it was, whatever their outcome, and so does a failing
    append without merge. A failing append with merge leaves the word forms,
    the words and every syllable but the last one of the form as they were;
    it leaves the last syllable too when it fails early. *)
Theorem C4_failing_operations (h : heap) (self : nat) (w : WordFormObj)
    (ss : list SyllableObj) (suffix : str) (merge : bool) (e : exn) (h' : heap) :
  wfs h !! self = Some w → read_syls h (syllables w) = Some ss →
  WordForm.append self suffix merge h = (Raise e, h') →
  (wfs h' = wfs h ∧ words h' = words h ∧
   (∀ r s, syls h !! r = Some s →
           list_getitem (syllables w) (-1) ≠ Ok r → syls h' !! r = Some s) ∧
   (merge = false ∨ fails_early h w suffix → heap_prefix h h')) ∧
  (∀ s, heap_prefix h (Syllable.from_syllable s h).2) ∧
  (∀ text, heap_prefix h (WordForm.__init__ text h).2) ∧
  (∀ lemma, heap_prefix h (Noun.__init__ lemma h).2 ∧
            heap_prefix h (Verb.__init__ lemma h).2 ∧
            heap_prefix h (Adjective.__init__ lemma h).2).
Proof.
  intros Hw Hss Happ.
  destruct (heap_prefix_constructors h) as (H1 & H2 & H3 & H4 & _).
  split; [|split; [done|split; [done|]]; intros lemma;
            split; [apply H3|split; apply H4]].
  destruct merge.
  - destruct (append_merge_fails _ _ _ _ _ _ _ Hw Hss Happ)
      as [->|(c0 & rest & last & s & -> & Hc0 & Hlast & Hs & Hfin & Hh')].
    { split; [done|]. split; [done|]. split; [done|].
      intros _. apply heap_prefix_refl. }
    assert (wfs h' = wfs h ∧ words h' = words h ∧
            ∀ r x, syls h !! r = Some x → r ≠ last → syls h' !! r = Some x)
      as (Ew & Ewd & Hsyl).
    { destruct Hh' as [->|[c' ->]]; (split; [done|split; [done|]]);
        intros r x Hr Hne; simpl.
      - by rewrite list_lookup_insert_ne.
      - apply lookup_app_l_Some. by rewrite list_lookup_insert_ne. }
    split; [done|]. split; [done|]. split.
    + intros r x Hr Hne. apply Hsyl; [done|]. intros ->. by rewrite Hlast in Hne.
    + intros [[=]|[Hguard|Hfinal]].
      * by destruct (Hguard c0 rest eq_refl).
      * by destruct (Hfinal last s Hlast Hs).
  - destruct (append_plain_fails _ _ _ _ _ _ _ Hw Hss Happ) as [-> ->].
    split; [done|]. split; [done|]. split.
    + intros r x Hr _. simpl. by apply lookup_app_l_Some.
    + intros _. apply heap_prefix_new_syls.
Qed.

Lemma C4_failing_operations_witness :
  let h := (run (WordForm.__init__ (u "먹"))).2 in
  let h' := (WordForm.append 0 (u "ㅂ니다") true h).2 in
  (WordForm.append 0 (u "ㅂ니다") true h).1 = Raise ValueError ∧
  fails_early h (built 0 (u "먹")) (u "ㅂ니다") ∧
  (wfs h' = wfs h ∧ words h' = words h ∧
   (∀ r s, syls h !! r = Some s →
           list_getitem (syllables (built 0 (u "먹"))) (-1) ≠ Ok r →
           syls h' !! r = Some s) ∧
   (true = false ∨ fails_early h (built 0 (u "먹")) (u "ㅂ니다") →
    heap_prefix h h')) ∧
  (∀ s, heap_prefix h (Syllable.from_syllable s h).2) ∧
  (∀ text, heap_prefix h (WordForm.__init__ text h).2) ∧
  (∀ lemma, heap_prefix h (Noun.__init__ lemma h).2 ∧
            heap_prefix h (Verb.__init__ lemma h).2 ∧
            heap_prefix h (Adjective.__init__ lemma h).2).
Proof.
  intros h h'. split; [vm_compute; reflexivity|]. split.
  { right. intros last s. vm_compute. intros [= <-] [= <-]. discriminate. }
  apply (C4_failing_operations h 0 (built 0 (u "먹")) (map decoded (u "먹"))
           (u "ㅂ니다") true ValueError h'); vm_compute; reflexivity.
Defined.

(** C4, as stated, fails on a merge append that gets past the guard: the
    consonant U+3138 is in the initial catalogue and not in the final one;
    [append] raises, and the last syllable has already lost its empty
    final. *)
Lemma C4_merge_append_is_not_atomic :
  let h := (run (WordForm.__init__ (u "가"))).2 in
  ∃ h', WordForm.append 0 (u "ㄸ") true h = (Raise ValueError, h') ∧
        syls h !! 0%nat = Some (mkSyllable (u "가") (u "ㄱ") (u "ㅏ") (u " ")) ∧
        syls h' !! 0%nat = Some (mkSyllable (u "가") (u "ㄱ") (u "ㅏ") (u "ㄸ")) ∧
        ¬ heap_prefix h h'.
Proof.
  intros h. eexists. split; [vm_compute; reflexivity|].
  split; [vm_compute; reflexivity|]. split; [vm_compute; reflexivity|].
  intros ([k Hk] & _). vm_compute in Hk. discriminate Hk.
Qed.

(** ** The polite present *)

Lemma WordForm_copy_ok f h wf :
  wfs h !! f = Some wf → forallb decodes (string wf) = true →
  WordForm.copy f h = (Ok (length (wfs h)), wf_store (string wf) h).
Proof.
  intros Hf Hd. unfold WordForm.copy.
  rewrite (bind_ok _ _ _ _ _ (get_wf_run _ _ _ Hf)).
  by apply WordForm_init_ok.
Qed.

(** What [copy] returns for a word of the store whose three forms are
    accepted text: a new word with three new forms that say the same. *)
Lemma Word_copy_ok w h me l r i :
  words h !! w = Some me →
  wfs h !! lemma me = Some l → wfs h !! root me = Some r →
  wfs h !! inflection me = Some i →
  forallb decodes (string l) = true → forallb decodes (string r) = true →
  forallb decodes (string i) = true →
  ∃ h' kl kr ki ol or oi,
    Word.copy w h = (Ok (length (words h)), h') ∧
    heap_prefix h h' ∧
    words h' !! length (words h) = Some (mkWord kl kr ki) ∧
    wfs h' !! kl = Some (built ol (string l)) ∧
    wfs h' !! kr = Some (built or (string r)) ∧
    wfs h' !! ki = Some (built oi (string i)) ∧
    read_syls h' (syllables (built or (string r))) = Some (map decoded (string r)).
Proof.
  intros Hme Hl Hr Hi Hdl Hdr Hdi. unfold Word.copy.
  rewrite (bind_ok _ _ _ _ _ (get_word_run _ _ _ Hme)).
  rewrite (bind_ok _ _ _ _ _ (get_wf_run _ _ _ Hl)).
  rewrite bind_run, Word_init_spec, Hdl.
  set (h2 := word_store (string l) h).
  assert (heap_prefix h h2) as Hp2 by apply heap_prefix_word_store.
  rewrite (bind_ok _ _ _ _ _ (WordForm_copy_ok _ _ _
             (heap_prefix_lookup_wf _ _ _ _ Hp2 Hr) Hdr)).
  set (h3 := wf_store (string r) h2).
  assert (words h3 !! length (words h) = Some
            (mkWord (length (wfs h)) (length (wfs (wf_store (string l) h)))
               (length (wfs (wf_store (string l) (wf_store (string l) h))))))
    as Hc3 by apply words_word_store.
  rewrite (bind_ok _ _ _ _ _ (mod_word_run _ _ _ _ Hc3)).
  set (me4 := set_root (length (wfs h2)) _).
  set (h4 := put_word (length (words h)) me4 h3).
  assert (heap_prefix h h3) as Hp3
    by (eapply heap_prefix_trans; [exact Hp2|apply heap_prefix_wf_store]).
  assert (wfs h4 !! inflection me = Some i) as Hi4
    by apply (heap_prefix_lookup_wf _ _ _ _ Hp3 Hi).
  rewrite (bind_ok _ _ _ _ _ (WordForm_copy_ok _ _ _ Hi4 Hdi)).
  set (h5 := wf_store (string i) h4).
  assert (words h5 !! length (words h) = Some me4) as Hc5.
  { change (words h5) with (words h4). subst h4.
    eapply words_put_word_eq, Hc3. }
  rewrite (bind_ok _ _ _ _ _ (mod_word_run _ _ _ _ Hc5)).
  rewrite ret_run.
  eexists _, _, _, _, _, _, _. split; [reflexivity|].
  split.
  { apply heap_prefix_put_word_new; [|done].
    eapply heap_prefix_trans; [|apply heap_prefix_wf_store].
    apply heap_prefix_put_word_new; done. }
  split; [eapply words_put_word_eq, Hc5|].
  change (wfs (put_word ?a ?b h5)) with (wfs h5).
  change (read_syls (put_word ?a ?b h5)) with (read_syls h5).
  split; [|split; [|split]].
  - apply wfs_wf_store_old. change (wfs h4) with (wfs h3).
    apply wfs_wf_store_old, wfs_word_store_lemma.
  - apply wfs_wf_store_old. change (wfs h4) with (wfs h3).
    apply wfs_wf_store_new.
  - apply wfs_wf_store_new.
  - apply read_syls_wf_store_old. change (read_syls h4) with (read_syls h3).
    apply read_syls_wf_store_new.
Qed.

Lemma read_syls_put_syl_other h rs ss last s' :
  read_syls h rs = Some ss → last ∉ rs →
  read_syls (put_syl last s' h) rs = Some ss.
Proof.
  unfold read_syls. intros H%mapM_Some_1 Hnot. apply mapM_Some_2.
  induction H as [|r s rs ss Hr _ IH]; [constructor|].
  apply not_elem_of_cons in Hnot as [Hne Hnot].
  constructor; [|by apply IH].
  simpl. by rewrite list_lookup_insert_ne.
Qed.

Lemma append_merge_ok self c0 rest h w pre last ss s c' :
  wfs h !! self = Some w → syllables w = pre ++ [last] → last ∉ pre →
  read_syls h pre = Some ss → syls h !! last = Some s →
  c0 ∈ Syllable.INITIAL_JAMOS → jamo_final s = Syllable.JAMO_NONE →
  composed (set_jamo_final [c0] s) = Ok c' → forallb decodes rest = true →
  let s' := set_syllable c' (set_jamo_final [c0] s) in
  WordForm.append self (c0 :: rest) true h =
  (Ok self,
   put_wf self
     (derived (ss ++ [s'] ++ map decoded rest)
        (syllables w ++ seq (length (syls h)) (length rest)))
     (new_syls (map decoded rest) (put_syl last s' h))).
Proof.
  intros Hw Hsyl Hnot Hss Hs Hc0 Hfin Hcomp Hd s'.
  rewrite append_merge_spec.
  apply str_contains_char in Hc0. rewrite Hc0. simpl negb. cbv iota.
  rewrite Hw, Hsyl, list_getitem_last_snoc, Syllable_append_spec, Hs.
  rewrite bool_decide_eq_false_2 by (intros Hne; by apply Hne).
  rewrite Hcomp, Hd. cbv zeta. fold s'.
  replace (length (syls (put_syl last s' h))) with (length (syls h))
    by (simpl; by rewrite length_insert).
  rewrite (read_syls_app _ _ _ (ss ++ [s']) (map decoded rest)).
  - by rewrite <- app_assoc.
  - apply read_syls_new_syls. apply read_syls_app.
    + by apply read_syls_put_syl_other.
    + unfold read_syls. apply mapM_Some_2. constructor; [|constructor].
      eapply syls_put_syl_eq, Hs.
  - replace (length (syls h)) with (length (syls (put_syl last s' h)))
      by (simpl; by rewrite length_insert).
    rewrite <- (length_map decoded rest). apply read_syls_fresh.
Qed.

Lemma list_getitem_elem {A} (l : list A) (i : Z) a :
  list_getitem l i = Ok a → a ∈ l.
Proof.
  unfold list_getitem.
  repeat case_match; try done; intros [= <-]; by eapply list_elem_of_lookup_2.
Qed.

Lemma jamo_at_elem (catalog : str) (n : Z) :
  - Z.of_nat (length catalog) ≤ n < Z.of_nat (length catalog) →
  ∃ x, jamo_at catalog n = [x] ∧ x ∈ catalog.
Proof.
  intros Hn. unfold jamo_at, str_getitem.
  destruct (list_getitem_ok catalog n Hn) as [a Ha]. rewrite Ha. simpl.
  exists a. split; [done|]. by eapply list_getitem_elem.
Qed.

(** The jamos of a decoded character are single entries of the catalogues. *)
Lemma decoded_jamos c :
  decodes c = true →
  ∃ i m f, decoded c = mkSyllable [c] [i] [m] [f] ∧
    i ∈ Syllable.INITIAL_JAMOS ∧ m ∈ Syllable.MEDIAL_JAMOS ∧
    f ∈ Syllable.FINAL_JAMOS.
Proof.
  intros Hd%decodes_range. unfold decoded, Syllable.UNICODE_HANGUL_SYLLABLE_OFFSET.
  destruct (jamo_at_elem Syllable.INITIAL_JAMOS ((c - 44032) `div` 588))
    as (i & -> & Hi); [simpl; lia|].
  destruct (jamo_at_elem Syllable.MEDIAL_JAMOS (((c - 44032) `mod` 588) `div` 28))
    as (m & -> & Hm); [simpl; Z.div_mod_to_equations; lia|].
  destruct (jamo_at_elem Syllable.FINAL_JAMOS (((c - 44032) `mod` 588) `mod` 28))
    as (f & -> & Hf); [simpl; Z.div_mod_to_equations; lia|].
  by exists i, m, f.
Qed.

Lemma endswith_any_snoc (a : str) x units :
  endswith_any (a ++ [x]) (map (λ c, [c]) units) = true → x ∈ units.
Proof.
  unfold endswith_any. induction units as [|y units IH]; [done|].
  simpl. rewrite str_endswith_snoc_char.
  intros [->%Z.eqb_eq|H]%orb_true_iff; [by left|]. right. by apply IH.
Qed.

Lemma hangul_vowels_chars :
  hangul_vowels = map (λ c, [c]) Syllable.MEDIAL_JAMOS.
Proof. reflexivity. Qed.

Lemma final_not_vowel f :
  f ∈ Syllable.FINAL_JAMOS → f ∉ Syllable.MEDIAL_JAMOS.
Proof.
  revert f. apply list.Forall_forall. apply (bool_decide_unpack _). by vm_compute.
Qed.

(** A decodable text whose jamo sequence ends with a vowel ends with a
    syllable without final, and [_compose] accepts that syllable with the
    consonant U+3142 as its final. *)
Lemma vowel_final_text text :
  forallb decodes text = true →
  endswith_any (flat_jamos (map decoded text)) hangul_vowels = true →
  ∃ stem lastc c',
    text = stem ++ [lastc] ∧
    jamo_final (decoded lastc) = Syllable.JAMO_NONE ∧
    composed (set_jamo_final (u "ㅂ") (decoded lastc)) = Ok [c'] ∧
    decoded c' = set_syllable [c'] (set_jamo_final (u "ㅂ") (decoded lastc)).
Proof.
  destruct text as [|lastc stem _] using rev_ind; [done|].
  rewrite forallb_app. intros [Hstem Hlast%andb_true_iff]%andb_true_iff.
  destruct Hlast as [Hlast _].
  destruct (decoded_jamos _ Hlast) as (i & m & f & Hdec & Hi & Hm & Hf).
  rewrite map_app. simpl map. rewrite flat_jamos_snoc, Hdec.
  cbn [jamo_initial jamo_medial jamo_final].
  intros Hv. exists stem, lastc.
  assert (f = 32) as ->.
  { destruct (decide (f = 32)) as [|Hne]; [done|]. exfalso.
    rewrite bool_decide_eq_true_2 in Hv by (intros [= ?]; done).
    rewrite hangul_vowels_chars in Hv.
    rewrite !app_assoc in Hv. apply endswith_any_snoc in Hv.
    by apply (final_not_vowel f). }
  destruct (decoded_composed i m 12610 Hi Hm) as (c' & Hc' & _ & Hd').
  { apply (bool_decide_unpack _). by vm_compute. }
  exists c'. rewrite Hdec. split; [done|]. split; [done|].
  split; [exact Hc'|exact Hd'].
Qed.

Lemma seq_snoc (o n : nat) : seq o (n + 1) = seq o n ++ [(o + n)%nat].
Proof. by rewrite seq_app. Qed.

Lemma read_syls_snoc_inv h rs r ss s :
  read_syls h (rs ++ [r]) = Some (ss ++ [s]) → length rs = length ss →
  read_syls h rs = Some ss ∧ syls h !! r = Some s.
Proof.
  unfold read_syls. intros H%mapM_Some_1 Hlen.
  apply Forall2_app_inv in H as [H1 H2]; [|done].
  split; [by apply mapM_Some_2|]. by inversion H2.
Qed.

Lemma PresentPolite_spec w h me l r i :
  words h !! w = Some me →
  wfs h !! lemma me = Some l → wfs h !! root me = Some r →
  wfs h !! inflection me = Some i →
  forallb decodes (string l) = true → forallb decodes (string r) = true →
  forallb decodes (string i) = true →
  ∃ p h', PresentPolite.__init__ w h = (Ok p, h') ∧
          politely_conjugated h h' l r p.
Proof.
  intros Hme Hl Hr Hi Hdl Hdr Hdi.
  destruct (Word_copy_ok _ _ _ _ _ _ Hme Hl Hr Hi Hdl Hdr Hdi)
    as (h6 & kl & kr & ki & ol & or & oi & Ecopy & Hp6 & Hc6 & Hkl & Hkr & Hki & Hrd).
  set (rs := string r) in *.
  unfold PresentPolite.__init__.
  rewrite (bind_ok _ _ _ _ _ Ecopy).
  rewrite (bind_ok _ _ _ _ _ (get_word_run _ _ _ Hc6)). cbn [root].
  rewrite (bind_ok _ _ _ _ _ (WordForm_copy_ok _ _ _ Hkr Hdr)).
  cbn [built string].
  set (h7 := wf_store rs h6). set (c := length (words h)).
  set (i' := length (wfs h6)).
  assert (words h7 !! c = Some (mkWord kl kr ki)) as Hc7 by exact Hc6.
  rewrite (bind_ok _ _ _ _ _ (mod_word_run _ _ _ _ Hc7)).
  cbn [set_inflection lemma root].
  set (h8 := put_word c (mkWord kl kr i') h7).
  assert (words h8 !! c = Some (mkWord kl kr i')) as Hc8
    by (eapply words_put_word_eq, Hc7).
  assert (wfs h8 !! kr = Some (built or rs)) as Hkr8
    by (apply (wfs_wf_store_old rs h6), Hkr).
  assert (wfs h8 !! kl = Some (built ol (string l))) as Hkl8
    by (apply (wfs_wf_store_old rs h6), Hkl).
  assert (wfs h8 !! i' = Some (built (length (syls h6)) rs)) as Hi8
    by apply (wfs_wf_store_new rs h6).
  assert (read_syls h8 (syllables (built (length (syls h6)) rs))
          = Some (map decoded rs)) as Hrd8
    by apply (read_syls_wf_store_new rs h6).
  assert (heap_prefix h h8) as Hp8.
  { apply heap_prefix_put_word_new; [|done].
    eapply heap_prefix_trans; [exact Hp6|apply heap_prefix_wf_store]. }
  assert (i' ≠ kl ∧ i' ≠ kr) as [Hnl Hnr].
  { apply lookup_lt_Some in Hkl, Hkr. subst i'. lia. }
  assert ((length (wfs h) ≤ i')%nat) as Hfresh.
  { subst i'. destruct Hp6 as (_ & Hpw & _). by apply prefix_length. }
  rewrite (bind_ok _ _ _ _ _ (get_word_run _ _ _ Hc8)). cbn [root inflection].
  rewrite (bind_ok _ _ _ _ _ (get_wf_run _ _ _ Hkr8)). cbn [built jamos].
  unfold politely_conjugated. fold rs.
  destruct (endswith_any (flat_jamos (map decoded rs)) hangul_vowels) eqn:Hv.
  - destruct (vowel_final_text rs Hdr Hv)
      as (stem & lastc & c' & Ers & Hfin & Hcomp & Hdec').
    assert (syllables (built (length (syls h6)) rs) =
            seq (length (syls h6)) (length stem)
            ++ [(length (syls h6) + length stem)%nat]) as Hsyl.
    { cbn [built syllables]. rewrite Ers, length_app. apply seq_snoc. }
    rewrite Hsyl, Ers, map_app in Hrd8. simpl map in Hrd8.
    apply read_syls_snoc_inv in Hrd8 as [Hpre Hlast];
      [|by rewrite length_seq, length_map].
    assert (forallb decodes (u "니다") = true) as Hd2 by reflexivity.
    assert (12610 ∈ Syllable.INITIAL_JAMOS) as Hb
      by (apply (bool_decide_unpack _); by vm_compute).
    erewrite (bind_ok _ _ _ _ _ (append_merge_ok i' 12610 (u "니다") h8 _ _ _ _ _ _
                Hi8 Hsyl _ Hpre Hlast Hb Hfin Hcomp Hd2)).
    Unshelve.
    2:{ intros Hin%elem_of_seq. lia. }
    rewrite ret_run. eexists _, _. split; [reflexivity|].
    cbv zeta.
    set (s' := set_syllable [c'] (set_jamo_final [12610] (decoded lastc))).
    set (h9 := new_syls _ (put_syl _ s' h8)).
    assert (heap_prefix h h9) as Hp9.
    { eapply heap_prefix_trans; [|apply heap_prefix_new_syls].
      apply heap_prefix_put_syl_new; [done|].
      destruct Hp6 as (Hps & _). apply prefix_length in Hps. lia. }
    split; [by apply heap_prefix_put_wf_new|]. split; [done|].
    unfold lemma_surface, root_surface, root_jamos, inflection_surface,
      surface, jamo_sequence. cbn [word].
    change (words (put_wf ?a ?b h9)) with (words h8). rewrite Hc8.
    cbn [mbind option_bind lemma root inflection].
    change (wfs (put_wf ?a ?b h9)) with (wfs (put_wf a b h8)).
    rewrite (wfs_put_wf_eq _ _ _ _ Hi8).
    rewrite !(wfs_put_wf_ne i' _ _ h8 _ Hnl Hkl8).
    rewrite !(wfs_put_wf_ne i' _ _ h8 _ Hnr Hkr8).
    cbn [fmap option_fmap option_map built derived string jamos].
    repeat split; try done.
    exists stem, lastc, c'. repeat split; try done.
    rewrite !surface_of_app, !surface_of_decoded. reflexivity.
  - assert (forallb decodes (u "습니다") = true) as Hd2 by reflexivity.
    rewrite (bind_ok _ _ _ _ _ (append_plain_ok _ _ _ _ _ Hi8 Hrd8 Hd2)).
    rewrite ret_run. eexists _, _. split; [reflexivity|].
    set (h9 := new_syls _ h8).
    assert (heap_prefix h h9) as Hp9
      by (eapply heap_prefix_trans; [exact Hp8|apply heap_prefix_new_syls]).
    split; [by apply heap_prefix_put_wf_new|]. split; [done|].
    unfold lemma_surface, root_surface, root_jamos, inflection_surface,
      surface, jamo_sequence. cbn [word].
    change (words (put_wf ?a ?b h9)) with (words h8). rewrite Hc8.
    cbn [mbind option_bind lemma root inflection].
    change (wfs (put_wf ?a ?b h9)) with (wfs (put_wf a b h8)).
    rewrite (wfs_put_wf_eq _ _ _ _ Hi8).
    rewrite !(wfs_put_wf_ne i' _ _ h8 _ Hnl Hkl8).
    rewrite !(wfs_put_wf_ne i' _ _ h8 _ Hnr Hkr8).
    cbn [fmap option_fmap option_map built derived string jamos].
    repeat split; try done.
    by rewrite surface_of_app, !surface_of_decoded.
Qed.

(** C6. The polite present of a predicate is a conjugation around a copy of
    the word whose inflection is built from the root: the ending U+C2B5
    U+B2C8 U+B2E4 is appended when the root does not end with a vowel;
    otherwise U+3142 U+B2C8 U+B2E4 is appended with merge, so that the last
    syllable of the root takes U+3142 as its final.  The two examples of the
    specification come out as stated. *)
Theorem C6_present_polite :
  (∀ h w me l r i,
     words h !! w = Some me →
     wfs h !! lemma me = Some l → wfs h !! root me = Some r →
     wfs h !! inflection me = Some i →
     forallb decodes (string l) = true → forallb decodes (string r) = true →
     forallb decodes (string i) = true →
     ∃ p h', PresentPolite.__init__ w h = (Ok p, h') ∧
             politely_conjugated h h' l r p) ∧
  inflection_of (v ← Verb.__init__ (u "먹다");
                 p ← PresentPolite.__init__ v; mret (word p))
    = Some (u "먹습니다") ∧
  inflection_of (v ← Verb.__init__ (u "가다");
                 p ← PresentPolite.__init__ v; mret (word p))
    = Some (u "갑니다").
Proof.
  split; [|split; vm_compute; reflexivity].
  intros h w me l r i. apply PresentPolite_spec.
Qed.

Lemma C6_present_polite_witness :
  let h := (run (Verb.__init__ (u "가다"))).2 in
  ∃ p h', PresentPolite.__init__ 0 h = (Ok p, h') ∧
          politely_conjugated h h' (built 0 (u "가다")) (built 6 (u "가")) p.
Proof.
  intros h. destruct C6_present_polite as [Hgeneral _].
  apply (Hgeneral h 0%nat (mkWord 0 3 2) (built 0 (u "가다")) (built 6 (u "가"))
           (built 4 (u "가다"))); vm_compute; reflexivity.
Defined.

(** ** Word forms between calls

    [well_formed] is established by the constructor and by every append
    that returns; it gives the hypotheses under which the two classifiers
    agree.  [sound_syllables] is kept by every append, also by one that
    raises. *)

Lemma decoded_one_char c : decodes c = true → one_char_jamos (decoded c).
Proof.
  intros (i & m & f & -> & _)%decoded_jamos. by repeat split.
Qed.

Lemma Forall_decoded_one_char text :
  forallb decodes text = true → Forall one_char_jamos (map decoded text).
Proof.
  induction text as [|c text IH]; [constructor|]. simpl.
  intros [Hc Ht]%andb_true_iff. constructor; [by apply decoded_one_char|auto].
Qed.

Lemma WordForm_init_well_formed text h r h' :
  WordForm.__init__ text h = (Ok r, h') → well_formed h' r.
Proof.
  rewrite WordForm_init_spec.
  destruct (forallb decodes text) eqn:Hd; [|intros [=]]. intros [= <- <-].
  exists (built (length (syls h)) text), (map decoded text).
  split; [apply wfs_wf_store_new|]. split; [apply read_syls_wf_store_new|].
  split; [by rewrite surface_of_decoded|]. split; [done|].
  by apply Forall_decoded_one_char.
Qed.

Lemma well_formed_sound h self : well_formed h self → sound_syllables h self.
Proof. intros (w & ss & Hw & Hss & _ & _ & Hone). by exists w, ss. Qed.

(** An append that returns writes the two strings anew from the syllables:
    it asks nothing of the strings it finds. *)
Lemma append_plain_rebuilds self suffix h r h' :
  sound_syllables h self →
  WordForm.append self suffix false h = (Ok r, h') →
  r = self ∧ well_formed h' self.
Proof.
  intros (w & ss & Hw & Hss & Hone) Happ.
  assert (forallb decodes suffix = true) as Hd.
  { revert Happ. rewrite append_plain_spec.
    by destruct (forallb decodes suffix). }
  rewrite (append_plain_ok _ _ _ _ _ Hw Hss Hd) in Happ.
  injection Happ as <- <-. split; [done|].
  eexists _, (ss ++ map decoded suffix).
  split; [eapply wfs_put_wf_eq; exact Hw|].
  split; [|split; [done|split; [done|]]].
  - change (read_syls (put_wf ?a ?b ?hh)) with (read_syls hh).
    cbn [derived syllables]. apply read_syls_app.
    + by apply read_syls_new_syls.
    + rewrite <- (length_map decoded suffix). apply read_syls_fresh.
  - apply Forall_app. split; [done|by apply Forall_decoded_one_char].
Qed.

Lemma append_plain_well_formed self suffix h r h' :
  well_formed h self →
  WordForm.append self suffix false h = (Ok r, h') → well_formed h' self.
Proof.
  intros Hwf Happ.
  by apply (append_plain_rebuilds _ _ _ _ _ (well_formed_sound _ _ Hwf) Happ).
Qed.

(** Reading after one syllable has been replaced gives the old objects or
    the new one. *)
Lemma read_syls_replaced (P : SyllableObj → Prop) l D last s' rs ss ss' :
  mapM (λ r : nat, l !! r) rs = Some ss → Forall P ss → P s' → Forall P D →
  mapM (λ r : nat, (<[last := s']> l ++ D) !! r) rs = Some ss' →
  Forall P ss'.
Proof.
  intros H%mapM_Some_1 Hss Hs' HD H'%mapM_Some_1.
  revert ss' H' Hss. induction H as [|r s rs ss Hr _ IH]; intros ss' H' Hss.
  - inversion H'. constructor.
  - inversion H' as [|? x ? xs Hx Hxs]; subst.
    inversion Hss as [|? ? Hs Hss']; subst.
    constructor; [|by apply IH].
    apply lookup_lt_Some in Hr as Hlt.
    rewrite lookup_app_l in Hx by (by rewrite length_insert).
    destruct (decide (last = r)) as [->|Hne].
    + rewrite list_lookup_insert_eq in Hx by done. by injection Hx as <-.
    + rewrite list_lookup_insert_ne in Hx by done. congruence.
Qed.

Lemma append_merge_rebuilds self suffix h r h' :
  sound_syllables h self →
  WordForm.append self suffix true h = (Ok r, h') →
  r = self ∧ well_formed h' self.
Proof.
  intros (w & ss & Hw & Hss & Hone) Happ.
  destruct (append_merge_succeeds _ _ _ _ _ _ _ Hw Hss Happ)
    as (c0 & rest & pre & last & s & c' & ss' & -> & Hc0 & Hsyl & Hs & Hfin
        & Hcomp & Hd & Hss' & -> & ->).
  cbv zeta in Hss'. split; [done|].
  eexists _, ss'.
  split; [eapply wfs_put_wf_eq; exact Hw|].
  split; [exact Hss'|]. split; [done|]. split; [done|].
  assert (one_char_jamos s) as Hs1.
  { unfold read_syls in Hss. apply mapM_Some_1 in Hss. rewrite Hsyl in Hss.
    apply Forall2_app_inv_l in Hss as (ss1 & ss2 & _ & H2 & ->).
    inversion H2 as [|? x ? ? Hx H3]; subst. inversion H3; subst.
    apply Forall_app in Hone as [_ Hone]. inversion Hone; subst.
    congruence. }
  unfold read_syls in Hss'. cbn [syls new_syls put_syl] in Hss'.
  apply mapM_Some_1, Forall2_app_inv_l in Hss'
    as (ss1 & ss2 & H1 & H2 & ->).
  apply Forall_app. split.
  - eapply (read_syls_replaced one_char_jamos); [exact Hss|exact Hone| |
      by apply Forall_decoded_one_char|by apply mapM_Some_2].
    destruct Hs1 as (Hi & Hm & _). by repeat split.
  - assert (mapM (λ r : nat, (<[last:=set_syllable c' (set_jamo_final [c0] s)]>
                                (syls h) ++ map decoded rest) !! r)
              (seq (length (syls h)) (length rest)) = Some (map decoded rest))
      as Hnew.
    { pose proof (read_syls_fresh
                    (put_syl last (set_syllable c' (set_jamo_final [c0] s)) h)
                    (map decoded rest)) as Hf.
      unfold read_syls in Hf. cbn [syls new_syls put_syl] in Hf.
      by rewrite length_insert, length_map in Hf. }
    apply mapM_Some_2 in H2. rewrite Hnew in H2. injection H2 as <-.
    by apply Forall_decoded_one_char.
Qed.

Lemma append_merge_well_formed self suffix h r h' :
  well_formed h self →
  WordForm.append self suffix true h = (Ok r, h') → well_formed h' self.
Proof.
  intros Hwf Happ.
  by apply (append_merge_rebuilds _ _ _ _ _ (well_formed_sound _ _ Hwf) Happ).
Qed.

Lemma append_rebuilds self suffix merge h r h' :
  sound_syllables h self →
  WordForm.append self suffix merge h = (Ok r, h') →
  r = self ∧ well_formed h' self.
Proof.
  destruct merge; [apply append_merge_rebuilds|apply append_plain_rebuilds].
Qed.

(** The syllables of a word form stay sound through every append, on this
    form or on another, whether it returns or raises. *)
Lemma read_syls_elem h rs ss r :
  read_syls h rs = Some ss → r ∈ rs → ∃ s, syls h !! r = Some s ∧ s ∈ ss.
Proof.
  unfold read_syls. intros H%mapM_Some_1 Hin.
  induction H as [|r' s rs ss Hr _ IH]; [by apply elem_of_nil in Hin|].
  apply elem_of_cons in Hin as [->|Hin].
  - exists s. split; [done|]. apply elem_of_cons. by left.
  - destruct (IH Hin) as (s' & ? & ?). exists s'. split; [done|].
    apply elem_of_cons. by right.
Qed.

Lemma read_syls_after_write (P : SyllableObj → Prop) l D last s' rs ss :
  mapM (λ r : nat, l !! r) rs = Some ss → Forall P ss → P s' →
  ∃ ss', mapM (λ r : nat, (<[last := s']> l ++ D) !! r) rs = Some ss' ∧
         Forall P ss'.
Proof.
  intros H%mapM_Some_1 Hss Hs'.
  induction H as [|r s rs ss Hr _ IH].
  - exists []. split; [done|constructor].
  - inversion Hss as [|? ? Hs Hss']; subst.
    destruct (IH Hss') as (ss' & Hm%mapM_Some_1 & Hall).
    apply lookup_lt_Some in Hr as Hlt.
    destruct (decide (last = r)) as [->|Hne].
    + exists (s' :: ss'). split; [|by constructor].
      apply mapM_Some_2. constructor; [|done].
      rewrite lookup_app_l by (by rewrite length_insert).
      by rewrite list_lookup_insert_eq.
    + exists (s :: ss'). split; [|by constructor].
      apply mapM_Some_2. constructor; [|done].
      rewrite lookup_app_l by (by rewrite length_insert).
      by rewrite list_lookup_insert_ne.
Qed.

Lemma sound_syllables_write h h' self last s' D :
  sound_syllables h self → wfs h' !! self = wfs h !! self →
  syls h' = <[last := s']> (syls h) ++ D → one_char_jamos s' →
  sound_syllables h' self.
Proof.
  intros (w & ss & Hw & Hss & Hone) Hwfs Hsyls Hs'.
  destruct (read_syls_after_write one_char_jamos (syls h) D last s' _ _
              Hss Hone Hs') as (ss' & Hr & Hall).
  exists w, ss'. split; [congruence|]. split; [|done].
  unfold read_syls. by rewrite Hsyls.
Qed.

Lemma sound_syllables_alloc h h' self D :
  sound_syllables h self → wfs h' !! self = wfs h !! self →
  syls h' = syls h ++ D → sound_syllables h' self.
Proof.
  intros (w & ss & Hw & Hss & Hone) Hwfs Hsyls.
  exists w, ss. split; [congruence|]. split; [|done].
  unfold read_syls. rewrite Hsyls. by apply (read_syls_new_syls h _ _ D).
Qed.

Lemma one_char_final_set s f :
  one_char_jamos s → one_char_jamos (set_jamo_final [f] s).
Proof. intros (Hi & Hm & _). by repeat split. Qed.

Lemma one_char_written s c f :
  one_char_jamos s → one_char_jamos (set_syllable c (set_jamo_final [f] s)).
Proof. intros (Hi & Hm & _). by repeat split. Qed.

Lemma WordForm_init_sound text h r h' :
  WordForm.__init__ text h = (Ok r, h') → sound_syllables h' r.
Proof. intros H. eapply well_formed_sound, WordForm_init_well_formed, H. Qed.

Lemma append_keeps_sound_syllables self other suffix merge h r h' :
  sound_syllables h self → sound_syllables h other →
  WordForm.append other suffix merge h = (r, h') → sound_syllables h' self.
Proof.
  intros Hself Hother Happ.
  pose proof Hother as (w & ss & Hw & Hss & Hone).
  assert (∀ last s, last ∈ syllables w → syls h !! last = Some s →
                    one_char_jamos s) as Hread.
  { intros last s Hin Hs.
    destruct (read_syls_elem _ _ _ _ Hss Hin) as (s0 & Hs0 & Hin0).
    assert (s0 = s) as -> by congruence.
    rewrite list.Forall_forall in Hone. by apply Hone. }
  destruct r as [r|e].
  - destruct (decide (self = other)) as [->|Hne].
    { by apply well_formed_sound, (append_rebuilds _ _ _ _ _ _ Hother Happ). }
    destruct merge.
    + destruct (append_merge_succeeds _ _ _ _ _ _ _ Hw Hss Happ)
        as (c0 & rest & pre & last & s & c' & ss' & -> & Hc0 & Hsyl & Hs & Hfin
            & Hcomp & Hd & Hss' & -> & ->).
      apply (sound_syllables_write h _ self last
               (set_syllable c' (set_jamo_final [c0] s)) (map decoded rest));
        [done| |done|].
      * simpl. by rewrite list_lookup_insert_ne.
      * apply one_char_written, (Hread last); [|done]. rewrite Hsyl.
        apply elem_of_app. right. apply elem_of_cons. by left.
    + assert (forallb decodes suffix = true) as Hd.
      { revert Happ. rewrite append_plain_spec.
        by destruct (forallb decodes suffix). }
      rewrite (append_plain_ok _ _ _ _ _ Hw Hss Hd) in Happ.
      injection Happ as <- <-.
      apply (sound_syllables_alloc h _ self (map decoded suffix)); [done| |done].
      simpl. by rewrite list_lookup_insert_ne.
  - destruct merge.
    + destruct (append_merge_fails _ _ _ _ _ _ _ Hw Hss Happ)
        as [->|(c0 & rest & last & s & -> & Hc0 & Hlast & Hs & Hfin
                & [->|[c' ->]])]; [done| |].
      * apply (sound_syllables_write h _ self last (set_jamo_final [c0] s) []);
          [done|done|by rewrite app_nil_r|].
        apply one_char_final_set, (Hread last); [|done].
        by eapply list_getitem_elem.
      * apply (sound_syllables_write h _ self last
                 (set_syllable c' (set_jamo_final [c0] s)) (attempted rest));
          [done|done|done|].
        apply one_char_written, (Hread last); [|done].
        by eapply list_getitem_elem.
    + destruct (append_plain_fails _ _ _ _ _ _ _ Hw Hss Happ) as [-> ->].
      by apply (sound_syllables_alloc h _ self (attempted suffix)).
Qed.

(** A well-formed word form with a syllable satisfies what the comparison
    of the two classifiers asks for. *)
Lemma well_formed_last_syllable h self w :
  well_formed h self → wfs h !! self = Some w → syllables w ≠ [] →
  ∃ pre s m f,
    read_syls h (syllables w) = Some (pre ++ [s]) ∧
    jamos w = flat_jamos (pre ++ [s]) ∧
    jamo_medial s = [m] ∧ jamo_final s = [f].
Proof.
  intros (w' & ss & Hw' & Hss & _ & Hj & Hone) Hw Hne.
  rewrite Hw in Hw'. injection Hw' as <-.
  destruct ss as [|s pre _] using rev_ind.
  { apply length_mapM in Hss. destruct (syllables w); done. }
  apply Forall_app in Hone as [_ Hs]. inversion Hs as [|? ? (_ & Hm & Hf) _]; subst.
  destruct (jamo_medial s) as [|m [|]] eqn:Em; try done.
  destruct (jamo_final s) as [|f [|]] eqn:Ef; try done.
  by exists pre, s, m, f.
Qed.

(** ** The two classifiers after a call *)

(** C10. The flat classifier refines the one on syllables in every word
    form as the constructor or an append that returns leaves it: when the
    call has run [_build_jamo_sequence] and the form has a syllable, the
    last character of the jamo sequence the call stored is the final of the
    last syllable, or its medial when it has no final; so the stored
    sequence ends with a given sound unit exactly when [Syllable.endswith]
    holds of the last syllable, also for a tuple of units. *)
Theorem C10_flat_classifier_refines (h : heap) (call : M ref) (self : ref)
    (h' : heap) (w : WordFormObj) :
  builds_form h self call →
  call h = (Ok self, h') →
  wfs h' !! self = Some w → syllables w ≠ [] →
  ∃ last s,
    list_getitem (syllables w) (-1) = Ok last ∧ syls h' !! last = Some s ∧
    str_getitem (jamos w) (-1) =
      Ok (if bool_decide (jamo_final s ≠ Syllable.JAMO_NONE)
          then jamo_final s else jamo_medial s) ∧
    (∀ x, ends_with_unit self [x] h' = (Ok (str_endswith (jamos w) [x]), h')) ∧
    (∀ units,
       endswith_any (jamos w) (map (λ x, [x]) units) =
       existsb (λ x, holds (ends_with_unit self [x]) h') units).
Proof.
  intros Hcall Hrun Hw Hne.
  assert (well_formed h' self) as Hwf.
  { destruct Hcall as [[text ->]|(suffix & merge & -> & Hsound)].
    - by apply (WordForm_init_well_formed text h).
    - by apply (append_rebuilds _ _ _ _ _ _ Hsound Hrun). }
  destruct (well_formed_last_syllable _ _ _ Hwf Hw Hne)
    as (pre & s & m & f & Hss & Hj & Hm & Hf).
  destruct (derived_jamos_classify h' self w pre s m f Hw Hss Hj Hm Hf)
    as ((last & Hlast & Hs) & Hchar & Hunit & Hany).
  by exists last, s.
Qed.

Lemma C10_flat_classifier_refines_witness :
  let h := (run (WordForm.__init__ (u "가"))).2 in
  let h' := (WordForm.append 0 (u "ㄴ") true h).2 in
  ∃ w last s,
    wfs h' !! 0%nat = Some w ∧ string w = u "간" ∧ jamos w = u "ㄱㅏㄴ" ∧
    list_getitem (syllables w) (-1) = Ok last ∧ syls h' !! last = Some s ∧
    str_getitem (jamos w) (-1) =
      Ok (if bool_decide (jamo_final s ≠ Syllable.JAMO_NONE)
          then jamo_final s else jamo_medial s) ∧
    (∀ x, ends_with_unit 0 [x] h' = (Ok (str_endswith (jamos w) [x]), h')) ∧
    (∀ units,
       endswith_any (jamos w) (map (λ x, [x]) units) =
       existsb (λ x, holds (ends_with_unit 0 [x]) h') units).
Proof.
  intros h h'.
  assert (builds_form h 0 (WordForm.append 0 (u "ㄴ") true)) as Hcall.
  { right. exists (u "ㄴ"), true. split; [reflexivity|].
    exists (mkWordForm (u "가") (u "ㄱㅏ") [0%nat]),
           [mkSyllable (u "가") (u "ㄱ") (u "ㅏ") (u " ")].
    split; [vm_compute; reflexivity|]. split; [vm_compute; reflexivity|].
    constructor; [|constructor]. vm_compute. by repeat split. }
  assert (WordForm.append 0 (u "ㄴ") true h = (Ok 0%nat, h')) as Hrun
    by (vm_compute; reflexivity).
  assert (wfs h' !! 0%nat = Some (mkWordForm (u "간") (u "ㄱㅏㄴ") [0%nat]))
    as Hw by (vm_compute; reflexivity).
  assert (syllables (mkWordForm (u "간") (u "ㄱㅏㄴ") [0%nat]) ≠ []) as Hne
    by (intros [=]).
  destruct (C10_flat_classifier_refines h (WordForm.append 0 (u "ㄴ") true) 0 h'
              _ Hcall Hrun Hw Hne)
    as (last & s & Hlast & Hs & Hchar & Hunit & Hany).
  exists (mkWordForm (u "간") (u "ㄱㅏㄴ") [0%nat]), last, s.
  split; [exact Hw|]. split; [reflexivity|]. split; [reflexivity|].
  split; [exact Hlast|]. split; [exact Hs|]. split; [exact Hchar|].
  split; [exact Hunit|exact Hany].
Defined.

(** The restriction to a call that returns is needed.  A merge append that
    raises after [Syllable.append] has stored the final never reaches
    [_build_jamo_sequence]: the form keeps the jamo sequence of before,
    which ends with the medial, while its last syllable now ends with the
    final. *)
Lemma C10_stale_sequence_disagrees :
  let h := (run (WordForm.__init__ (u "가"))).2 in
  ∃ h' w,
    WordForm.append 0 (u "ㄸ") true h = (Raise ValueError, h') ∧
    wfs h' !! 0%nat = Some w ∧ syllables w = [0%nat] ∧
    jamos w = u "ㄱㅏ" ∧
    syls h' !! 0%nat = Some (mkSyllable (u "가") (u "ㄱ") (u "ㅏ") (u "ㄸ")) ∧
    str_getitem (jamos w) (-1) = Ok (u "ㅏ") ∧
    str_endswith (jamos w) (u "ㅏ") = true ∧
    ends_with_unit 0 (u "ㅏ") h' = (Ok false, h') ∧
    str_endswith (jamos w) (u "ㄸ") = false ∧
    ends_with_unit 0 (u "ㄸ") h' = (Ok true, h') ∧
    endswith_any (jamos w) hangul_vowels = true ∧
    existsb (λ unit, holds (ends_with_unit 0 unit) h') hangul_vowels = false.
Proof.
  intros h.
  exists (WordForm.append 0 (u "ㄸ") true h).2,
         (mkWordForm (u "가") (u "ㄱㅏ") [0%nat]).
  split; [vm_compute; reflexivity|]. split; [vm_compute; reflexivity|].
  split; [reflexivity|]. split; [reflexivity|].
  split; [vm_compute; reflexivity|]. split; [vm_compute; reflexivity|].
  split; [vm_compute; reflexivity|]. split; [vm_compute; reflexivity|].
  split; [vm_compute; reflexivity|]. split; [vm_compute; reflexivity|].
  split; vm_compute; reflexivity.
Qed.

(** * Further properties of the codec *)

Lemma from_syllable_not_a_character s h :
  length s ≠ 1%nat →
  Syllable.from_syllable s h =
  (Raise TypeError, new_syls [mkSyllable s [] [] []] h).
Proof.
  intros Hlen. unfold Syllable.from_syllable, Syllable.__init__.
  rewrite (bind_ok _ _ _ _ _ (alloc_syl_run _ _)).
  rewrite (bind_ok _ _ _ _ _ (mod_syl_run _ _ _ _ (syls_new_last _ _))).
  rewrite put_syl_new_last. cbn [set_syllable jamo_initial jamo_medial jamo_final].
  rewrite bind_run. unfold Syllable._decompose.
  rewrite (bind_ok _ _ _ _ _ (get_syl_run _ _ _ (syls_new_last _ _))).
  destruct s as [|c [|c' s]]; [reflexivity|done|reflexivity].
Qed.

(** X1.  [from_syllable] returns a syllable for the one-character strings whose
    code point is from 32860 to 55203, raises [IndexError] for the other
    characters and [TypeError], from [ord], for a string that is not one
    character long.  Whatever the outcome, the objects of the store stay as
    they are and one new syllable object is left behind. *)
Theorem from_syllable_domain (s : str) (h : heap) :
  (Syllable.from_syllable s h).1 =
    match s with
    | [c] => if (32860 <=? c) && (c <=? 55203)
             then Ok (length (syls h)) else Raise IndexError
    | _ => Raise TypeError
    end ∧
  heap_prefix h (Syllable.from_syllable s h).2 ∧
  length (syls (Syllable.from_syllable s h).2) = S (length (syls h)).
Proof.
  destruct (decide (length s = 1%nat)) as [Hlen|Hlen].
  - destruct s as [|c [|]]; try discriminate Hlen.
    rewrite from_syllable_spec.
    replace ((32860 <=? c) && (c <=? 55203)) with (decodes c)
      by (unfold decodes; f_equal; lia).
    destruct (decodes c); simpl; (split; [done|]);
      (split; [apply heap_prefix_new_syls|]); rewrite length_app; simpl; lia.
  - rewrite (from_syllable_not_a_character _ _ Hlen). simpl.
    split; [by destruct s as [|c [|]]|].
    split; [apply heap_prefix_new_syls|]. rewrite length_app. simpl. lia.
Qed.

(** [str.index] looks for a substring: it finds any contiguous run of the
    string, the empty one included, and nothing else. *)
Lemma startswith_prefix (s p : str) : startswith s p = true ↔ p `prefix_of` s.
Proof.
  revert s. induction p as [|a p IH]; intros s.
  - split; [intros _; apply prefix_nil|by destruct s].
  - destruct s as [|b s]; simpl.
    + split; [done|]. intros [k Hk]. discriminate Hk.
    + rewrite andb_true_iff, Z.eqb_eq, IH. split.
      * intros [-> Hp]. by apply prefix_cons.
      * intros [k Hk]. injection Hk as -> ->. split; [done|]. by exists k.
Qed.

Lemma str_find_unfold (s sub : str) :
  str_find s sub =
  if startswith s sub then Some 0%nat
  else match s with
       | [] => None
       | _ :: s' => S <$> str_find s' sub
       end.
Proof. by destruct s. Qed.

Lemma str_find_run (s sub : str) :
  is_Some (str_find s sub) ↔ ∃ a b, s = a ++ sub ++ b.
Proof.
  split.
  - intros [n Hn]. revert n Hn.
    induction s as [|x s IH]; intros n; rewrite str_find_unfold;
      destruct (startswith _ sub) eqn:E;
      try (intros _; apply startswith_prefix in E as [k ->]; by exists [], k).
    + done.
    + destruct (str_find s sub) as [n'|] eqn:E'; [|done]. intros _.
      destruct (IH n' eq_refl) as (a & b & ->). by exists (x :: a), b.
  - intros (a & b & ->). induction a as [|x a IH].
    + assert (startswith (sub ++ b) sub = true) as E
        by (apply startswith_prefix; by exists b).
      change ([] ++ sub ++ b) with (sub ++ b).
      rewrite str_find_unfold, E. eauto.
    + rewrite str_find_unfold. simpl app.
      destruct (startswith (x :: a ++ sub ++ b) sub); [eauto|].
      destruct IH as [n ->]. simpl. eauto.
Qed.

Lemma str_find_position (s sub : str) (n : nat) :
  str_find s sub = Some n → s ≠ [] → (n < length s)%nat.
Proof.
  assert (∀ s n, str_find s sub = Some n →
            (n + length sub ≤ length s)%nat ∧ (n = 0%nat ∨ sub ≠ [])) as Hgen.
  { clear. induction s as [|x s IH]; intros n; rewrite str_find_unfold;
      destruct (startswith _ sub) eqn:E.
    - intros [= <-]. apply startswith_prefix in E as [k Hk].
      symmetry in Hk. apply app_eq_nil in Hk as [-> _]. simpl. split; [lia|by left].
    - done.
    - intros [= <-]. apply startswith_prefix in E as [k Hk].
      apply (f_equal length) in Hk. rewrite length_app in Hk. simpl in *.
      split; [lia|by left].
    - destruct (str_find s sub) as [n'|] eqn:E'; [|done]. intros [= <-].
      destruct (IH n' eq_refl) as [Hle Hor]. split; [simpl; lia|].
      right. intros ->. by destruct s. }
  intros Hn Hs. destruct (Hgen s n Hn) as [Hle [->|Hsub]].
  - destruct s; [done|simpl; lia].
  - destruct sub; [done|simpl in Hle; lia].
Qed.

Lemma str_index_run (catalog j : str) :
  catalog ≠ [] →
  match str_index catalog j with
  | Ok n => (∃ a b, catalog = a ++ j ++ b) ∧ 0 ≤ n < Z.of_nat (length catalog)
  | Raise e => e = ValueError ∧ ¬ ∃ a b, catalog = a ++ j ++ b
  end.
Proof.
  intros Hne. unfold str_index.
  destruct (str_find catalog j) as [n|] eqn:E.
  - split; [apply str_find_run; eauto|].
    pose proof (str_find_position _ _ _ E Hne). lia.
  - split; [done|]. intros H%str_find_run. rewrite E in H. by destruct H.
Qed.

(** X2.  [from_jamos] accepts exactly the arguments that are contiguous runs of
    their catalogues: a single jamo, but also several adjacent ones or the
    empty string.  When it returns, the syllable is a character of the block
    and the object keeps the arguments as its jamos; otherwise it raises
    [ValueError].  The objects of the store stay as they are. *)
Theorem from_jamos_accepts_runs (i m f : str) (h : heap) :
  ((∃ a b, Syllable.INITIAL_JAMOS = a ++ i ++ b) ∧
   (∃ a b, Syllable.MEDIAL_JAMOS = a ++ m ++ b) ∧
   (∃ a b, Syllable.FINAL_JAMOS = a ++ f ++ b) →
   ∃ c, in_block c ∧
     Syllable.from_jamos i m f h =
     (Ok (length (syls h)), new_syls [mkSyllable [c] i m f] h)) ∧
  (¬ ((∃ a b, Syllable.INITIAL_JAMOS = a ++ i ++ b) ∧
      (∃ a b, Syllable.MEDIAL_JAMOS = a ++ m ++ b) ∧
      (∃ a b, Syllable.FINAL_JAMOS = a ++ f ++ b)) →
   Syllable.from_jamos i m f h =
   (Raise ValueError, new_syls [mkSyllable [] i m f] h)).
Proof.
  rewrite from_jamos_spec. unfold composed. cbn [jamo_initial jamo_medial jamo_final].
  pose proof (str_index_run Syllable.INITIAL_JAMOS i) as Hi.
  pose proof (str_index_run Syllable.MEDIAL_JAMOS m) as Hm.
  pose proof (str_index_run Syllable.FINAL_JAMOS f) as Hf.
  destruct (str_index Syllable.INITIAL_JAMOS i) as [ni|ei].
  2:{ destruct Hi as [-> Hi]; [done|]. split; [intros (H & _); by destruct Hi|done]. }
  destruct (str_index Syllable.MEDIAL_JAMOS m) as [nm|em].
  2:{ destruct Hm as [-> Hm]; [done|].
      split; [intros (_ & H & _); by destruct Hm|done]. }
  destruct (str_index Syllable.FINAL_JAMOS f) as [nf|ef].
  2:{ destruct Hf as [-> Hf]; [done|].
      split; [intros (_ & _ & H); by destruct Hf|done]. }
  destruct Hi as [Hi Hni]; [done|]. destruct Hm as [Hm Hnm]; [done|].
  destruct Hf as [Hf Hnf]; [done|]. simpl in Hni, Hnm, Hnf.
  unfold chr.
  destruct (Z.leb_spec 0 (ni * 588 + nm * 28 + nf + 44032)); [|lia].
  destruct (Z.ltb_spec (ni * 588 + nm * 28 + nf + 44032) 1114112); [|lia].
  simpl. split; [|intros Hn; by destruct Hn].
  intros _. eexists. split; [|reflexivity]. unfold in_block. lia.
Qed.

Lemma from_jamos_accepts_runs_witness :
  ∃ c, in_block c ∧
    Syllable.from_jamos (u "ㄱㄲ") [] (u " ㄱ") empty_heap =
    (Ok 0%nat, new_syls [mkSyllable [c] (u "ㄱㄲ") [] (u " ㄱ")] empty_heap).
Proof.
  apply (from_jamos_accepts_runs (u "ㄱㄲ") [] (u " ㄱ") empty_heap).
  split; [|split].
  - by exists [], (u "ㄴㄷㄸㄹㅁㅂㅃㅅㅆㅇㅈㅉㅊㅋㅌㅍㅎ").
  - by exists [], Syllable.MEDIAL_JAMOS.
  - by exists [], (u "ㄲㄳㄴㄵㄶㄷㄹㄺㄻㄼㄽㄾㄿㅀㅁㅂㅄㅅㅆㅇㅈㅊㅋㅌㅍㅎ").
Defined.

(** ** Adding a final consonant *)

Lemma jamo_at_sentinel (k : Z) :
  0 ≤ k < 28 → jamo_at Syllable.FINAL_JAMOS k = Syllable.JAMO_NONE ↔ k = 0.
Proof.
  intros Hk. split; [|by intros ->].
  intros E. pose proof (str_index_jamo_at Syllable.FINAL_JAMOS k
                          NoDup_FINAL_JAMOS) as H.
  rewrite E in H. specialize (H Hk). by injection H.
Qed.

Lemma decoded_open (c : Z) :
  decodes c = true →
  jamo_final (decoded c) = Syllable.JAMO_NONE ↔ open_syllable c = true.
Proof.
  intros Hd. unfold decoded, open_syllable. cbn [jamo_final].
  unfold Syllable.UNICODE_HANGUL_SYLLABLE_OFFSET, Syllable.UNICODE_MEDIAL_JAMO_FACTOR.
  rewrite jamo_at_sentinel by (Z.div_mod_to_equations; lia).
  rewrite Z.eqb_eq. Z.div_mod_to_equations. lia.
Qed.

(** In the block, the character with the same initial and medial and the
    final at position [n] of the catalogue is [n] code points after the
    character without final. *)
Lemma merge_final (c : Z) (n : nat) (x : Z) :
  in_block c → open_syllable c = true → Syllable.FINAL_JAMOS !! n = Some x →
  jamo_final (decoded c) = Syllable.JAMO_NONE ∧
  in_block (c + Z.of_nat n) ∧
  composed (set_jamo_final [x] (decoded c)) = Ok [c + Z.of_nat n] ∧
  set_syllable [c + Z.of_nat n] (set_jamo_final [x] (decoded c))
  = decoded (c + Z.of_nat n).
Proof.
  intros Hc Ho Hx.
  assert (Z.of_nat n < 28) as Hn by (apply lookup_lt_Some in Hx; simpl in Hx; lia).
  pose proof (proj2 (decoded_open c (in_block_decodes c Hc)) Ho) as Hfin.
  unfold open_syllable, Syllable.UNICODE_HANGUL_SYLLABLE_OFFSET,
    Syllable.UNICODE_MEDIAL_JAMO_FACTOR in Ho. apply Z.eqb_eq in Ho.
  unfold in_block in Hc.
  assert (in_block (c + Z.of_nat n)) as Hc'
    by (unfold in_block; Z.div_mod_to_equations; lia).
  assert (decoded (c + Z.of_nat n) =
          mkSyllable [c + Z.of_nat n] (jamo_initial (decoded c))
            (jamo_medial (decoded c)) [x]) as Hdec.
  { unfold decoded, Syllable.UNICODE_HANGUL_SYLLABLE_OFFSET.
    cbn [jamo_initial jamo_medial].
    replace ((c + Z.of_nat n - 44032) `div` 588) with ((c - 44032) `div` 588)
      by (Z.div_mod_to_equations; lia).
    replace (((c + Z.of_nat n - 44032) `mod` 588) `div` 28)
      with (((c - 44032) `mod` 588) `div` 28) by (Z.div_mod_to_equations; lia).
    replace (((c + Z.of_nat n - 44032) `mod` 588) `mod` 28) with (Z.of_nat n)
      by (Z.div_mod_to_equations; lia).
    by rewrite (jamo_at_lookup _ _ _ Hx). }
  split; [done|]. split; [done|]. split.
  - rewrite <- (composed_decoded _ Hc'), Hdec. reflexivity.
  - rewrite Hdec. reflexivity.
Qed.

(** X3.  [Syllable.append] on a character of the block without final: the
    object becomes the one decoding the character [n] code points further
    would build, [n] being the position of the new final in the catalogue,
    and that character is in the block.  An object that has a final refuses
    every further [append] with [ValueError] and stays as it is. *)
Theorem Syllable_append_adds_final (h : heap) (r : nat) (c : Z) (n : nat) (x : Z) :
  syls h !! r = Some (decoded c) → in_block c → open_syllable c = true →
  Syllable.FINAL_JAMOS !! n = Some x →
  let h' := put_syl r (decoded (c + Z.of_nat n)) h in
  Syllable.append r [x] h = (Ok tt, h') ∧
  in_block (c + Z.of_nat n) ∧
  ((0 < n)%nat → ∀ y, Syllable.append r y h' = (Raise ValueError, h')).
Proof.
  intros Hr Hc Ho Hx h'.
  destruct (merge_final c n x Hc Ho Hx) as (Hfin & Hc' & Hcomp & Hdec).
  split; [|split; [done|]].
  - rewrite Syllable_append_spec, Hr.
    rewrite bool_decide_eq_false_2 by (intros Hne; by apply Hne).
    by rewrite Hcomp, Hdec.
  - intros Hpos y. rewrite Syllable_append_spec. subst h'.
    rewrite (syls_put_syl_eq _ _ _ _ Hr).
    rewrite bool_decide_eq_true_2; [done|].
    rewrite <- Hdec. cbn [set_syllable set_jamo_final jamo_final].
    intros [= ->].
    pose proof (NoDup_lookup _ n 0%nat 32 NoDup_FINAL_JAMOS Hx eq_refl). lia.
Qed.

Lemma Syllable_append_adds_final_witness :
  let h := (run (Syllable.from_syllable (u "가"))).2 in
  let h' := put_syl 0 (decoded (44032 + Z.of_nat 17)) h in
  decoded (44032 + Z.of_nat 17)
    = mkSyllable (u "갑") (u "ㄱ") (u "ㅏ") (u "ㅂ") ∧
  Syllable.append 0 (u "ㅂ") h = (Ok tt, h') ∧
  in_block (44032 + Z.of_nat 17) ∧
  ((0 < 17)%nat → ∀ y, Syllable.append 0 y h' = (Raise ValueError, h')).
Proof.
  intros h h'. split; [reflexivity|].
  apply (Syllable_append_adds_final h 0 44032 17 12610); try reflexivity.
  unfold in_block. lia.
Defined.

(** X4.  [Syllable.endswith] on a decoded character is true of exactly one
    string, a single jamo: a vowel of the medial catalogue when the
    character is a multiple of 28 code points from the start of the block,
    a consonant of the final catalogue otherwise.  It answers without
    changing the store, and never true for the sentinel. *)
Theorem Syllable_endswith_decoded (h : heap) (r : nat) (c : Z) :
  syls h !! r = Some (decoded c) → decodes c = true →
  ∃ e, (∀ j, Syllable.endswith r j h = (Ok (bool_decide (j = [e])), h)) ∧
       [e] ≠ Syllable.JAMO_NONE ∧
       if open_syllable c then e ∈ Syllable.MEDIAL_JAMOS
       else e ∈ final_consonants.
Proof.
  intros Hr Hd.
  pose proof (decoded_open c Hd) as Hopen.
  destruct (decoded_jamos c Hd) as (i & m & f & Hdec & Hi & Hm & Hf).
  rewrite Hdec in Hr, Hopen. cbn [jamo_final] in Hopen.
  destruct (open_syllable c).
  - exists m. split; [|split; [|done]].
    + intros j. rewrite (Syllable_endswith_spec _ _ _ _ Hr). cbn [jamo_final jamo_medial].
      rewrite bool_decide_eq_false_2 by (intros Hne; apply Hne; by apply Hopen).
      f_equal. f_equal. apply bool_decide_ext. split; congruence.
    + intros [= ->]. apply (final_not_vowel 32); [|done].
      apply (bool_decide_unpack _). by vm_compute.
  - assert (f ≠ 32) as Hne.
    { intros ->. by assert (false = true) by (by apply Hopen). }
    exists f. split; [|split].
    + intros j. rewrite (Syllable_endswith_spec _ _ _ _ Hr). cbn [jamo_final jamo_medial].
      rewrite bool_decide_eq_true_2 by (intros [= ?]; done).
      f_equal. f_equal. apply bool_decide_ext. split; congruence.
    + intros [= ?]. done.
    + rewrite FINAL_JAMOS_split in Hf. by apply elem_of_cons in Hf as [|].
Qed.

Lemma Syllable_endswith_decoded_witness :
  let h := (run (Syllable.from_syllable (u "책"))).2 in
  open_syllable 52293 = false ∧
  ∃ e, (∀ j, Syllable.endswith 0 j h = (Ok (bool_decide (j = [e])), h)) ∧
       [e] ≠ Syllable.JAMO_NONE ∧
       if open_syllable 52293 then e ∈ Syllable.MEDIAL_JAMOS
       else e ∈ final_consonants.
Proof.
  intros h. split; [reflexivity|].
  apply (Syllable_endswith_decoded h 0 52293); reflexivity.
Defined.

(** * Word forms in closed form *)

Lemma represents_wf_store text h :
  represents (wf_store text h) (length (wfs h)) text.
Proof.
  exists (built (length (syls h)) text).
  split; [apply wfs_wf_store_new|]. split; [done|]. split; [done|].
  split; [apply NoDup_seq|]. apply read_syls_wf_store_new.
Qed.

Lemma represents_prefix h h' self text :
  heap_prefix h h' → represents h self text → represents h' self text.
Proof.
  intros Hp (w & Hw & Hs & Hj & Hn & Hr). exists w.
  split; [by eapply heap_prefix_lookup_wf|]. split; [done|]. split; [done|].
  split; [done|]. by eapply heap_prefix_read_syls.
Qed.

Lemma represents_put_word h self text a b :
  represents h self text → represents (put_word a b h) self text.
Proof. intros H. exact H. Qed.

Lemma represents_put_wf_other h self text r w x :
  r ≠ self → wfs h !! self = Some x →
  represents h self text → represents (put_wf r w h) self text.
Proof.
  intros Hne Hx (w0 & Hw & Hrest). exists w0.
  split; [by eapply wfs_put_wf_ne|]. exact Hrest.
Qed.

(** X5.  [WordForm(text)] returns exactly when every character of [text] is
    accepted by the codec.  It then leaves one new word form, whose string
    is [text], and one new syllable object per character, and nothing else
    changes.  Otherwise it raises [IndexError] and no word form comes into
    being: only syllable objects are left behind. *)
Theorem WordForm_init_builds (text : str) (h : heap) :
  let r := WordForm.__init__ text h in
  if forallb decodes text then
    r.1 = Ok (length (wfs h)) ∧ represents r.2 (length (wfs h)) text ∧
    heap_prefix h r.2 ∧
    length (syls r.2) = (length (syls h) + length text)%nat ∧
    length (wfs r.2) = S (length (wfs h)) ∧ words r.2 = words h
  else
    r.1 = Raise IndexError ∧ syls h `prefix_of` syls r.2 ∧
    wfs r.2 = wfs h ∧ words r.2 = words h.
Proof.
  intros r. subst r. destruct (forallb decodes text) eqn:Hd.
  - rewrite (WordForm_init_ok _ _ Hd). cbn [fst snd].
    split; [done|]. split; [apply represents_wf_store|].
    split; [apply heap_prefix_wf_store|].
    split; [simpl; by rewrite length_app, length_map|].
    split; [apply length_wfs_wf_store|done].
  - rewrite (WordForm_init_fail _ _ Hd). cbn [fst snd].
    split; [done|]. split; [by apply prefix_app_r|done].
Qed.

Lemma append_plain_represents self a b h :
  represents h self a → forallb decodes b = true →
  ∃ w', WordForm.append self b false h =
          (Ok self, put_wf self w' (new_syls (map decoded b) h)) ∧
        represents (put_wf self w' (new_syls (map decoded b) h)) self (a ++ b).
Proof.
  intros (w & Hw & Hs & Hj & Hn & Hr) Hd.
  eexists. split; [apply (append_plain_ok _ _ _ _ _ Hw Hr Hd)|].
  eexists. split; [apply (wfs_put_wf_eq _ _ (new_syls _ h) _ Hw)|].
  cbn [derived string jamos syllables].
  rewrite <- map_app.
  split; [apply surface_of_decoded|]. split; [done|]. split.
  - apply list.NoDup_app. split; [done|]. split; [|apply NoDup_seq].
    intros x Hx Hx'%elem_of_seq.
    pose proof (read_syls_bound _ _ _ Hr) as Hb.
    rewrite list.Forall_forall in Hb. specialize (Hb x Hx). lia.
  - rewrite map_app.
    apply (read_syls_app (new_syls (map decoded b) h)).
    + by apply read_syls_new_syls.
    + rewrite <- (length_map decoded b). apply read_syls_fresh.
Qed.

(** X6.  [append] without merge is concatenation: on a word form in the state
    [WordForm(a)] builds, it returns the same object in the state
    [WordForm(a ++ b)] builds.  The other word forms, the words and the
    existing syllables stay as they are. *)
Theorem append_is_concatenation (self : nat) (a b : str) (h : heap) :
  represents h self a → forallb decodes b = true →
  ∃ h', WordForm.append self b false h = (Ok self, h') ∧
        represents h' self (a ++ b) ∧
        syls h `prefix_of` syls h' ∧ words h' = words h ∧
        length (wfs h') = length (wfs h) ∧
        ∀ r w, r ≠ self → wfs h !! r = Some w → wfs h' !! r = Some w.
Proof.
  intros Hrep Hd.
  destruct (append_plain_represents _ _ _ _ Hrep Hd) as (w' & E & Hrep').
  eexists. split; [exact E|]. split; [exact Hrep'|].
  split; [by apply prefix_app_r|]. split; [done|].
  split; [simpl; by rewrite length_insert|].
  intros r w Hne Hw. simpl. by rewrite list_lookup_insert_ne.
Qed.

Lemma append_is_concatenation_witness :
  let h := (run (WordForm.__init__ (u "학"))).2 in
  ∃ h', WordForm.append 0 (u "생") false h = (Ok 0%nat, h') ∧
        represents h' 0 (u "학" ++ u "생") ∧
        syls h `prefix_of` syls h' ∧ words h' = words h ∧
        length (wfs h') = length (wfs h) ∧
        ∀ r w, r ≠ 0%nat → wfs h !! r = Some w → wfs h' !! r = Some w.
Proof.
  intros h.
  apply (append_is_concatenation 0 (u "학") (u "생") h); [|reflexivity].
  apply (represents_wf_store (u "학") empty_heap).
Defined.

Lemma represents_derived h self text w :
  represents h self text → wfs h !! self = Some w →
  w = derived (map decoded text) (syllables w) ∧
  read_syls h (syllables w) = Some (map decoded text) ∧
  length (syllables w) = length text ∧ NoDup (syllables w).
Proof.
  intros (w0 & Hw0 & Hs & Hj & Hn & Hr) Hw.
  assert (w0 = w) as -> by congruence.
  split; [|split; [done|split; [|done]]].
  - destruct w as [s j r]. simpl in *. unfold derived.
    by rewrite surface_of_decoded, Hs, Hj.
  - unfold read_syls in Hr. apply length_mapM in Hr.
    by rewrite length_map in Hr.
Qed.

Lemma put_wf_id r w h : wfs h !! r = Some w → put_wf r w h = h.
Proof.
  intros E. destruct h as [ss ws wds]. unfold put_wf. simpl in *.
  by rewrite list_insert_id.
Qed.

(** X7.  The edges of [append].  Appending the empty string to a word form in
    the state its constructor builds changes nothing at all; with merge,
    the empty suffix raises [IndexError], from [suffix[0]]; and a word form
    without syllables refuses every merge, as there is no last syllable.
    A refused call leaves the store as it was. *)
Theorem append_edges (self : nat) (a : str) (h : heap) :
  represents h self a →
  WordForm.append self [] false h = (Ok self, h) ∧
  WordForm.append self [] true h = (Raise IndexError, h) ∧
  (a = [] →
   ∀ c0 rest, WordForm.append self (c0 :: rest) true h =
     (Raise (if str_contains [c0] Syllable.INITIAL_JAMOS
             then IndexError else ValueError), h)).
Proof.
  intros Hrep. pose proof Hrep as (w & Hw & _).
  destruct (represents_derived _ _ _ _ Hrep Hw) as (Hder & Hr & Hlen & _).
  split; [|split].
  - rewrite (append_plain_ok self [] h w _ Hw Hr eq_refl).
    simpl map. simpl length. cbn [seq]. rewrite !app_nil_r, new_syls_nil.
    by rewrite <- Hder, (put_wf_id _ _ _ Hw).
  - by rewrite append_merge_spec.
  - intros -> c0 rest. rewrite append_merge_spec.
    destruct (str_contains [c0] Syllable.INITIAL_JAMOS); simpl negb; cbv iota; [|done].
    rewrite Hw. destruct (syllables w); [done|discriminate Hlen].
Qed.

Lemma append_edges_witness :
  let h := (run (WordForm.__init__ [])).2 in
  WordForm.append 0 [] false h = (Ok 0%nat, h) ∧
  WordForm.append 0 [] true h = (Raise IndexError, h) ∧
  (([] : str) = [] →
   ∀ c0 rest, WordForm.append 0 (c0 :: rest) true h =
     (Raise (if str_contains [c0] Syllable.INITIAL_JAMOS
             then IndexError else ValueError), h)).
Proof.
  intros h. apply (append_edges 0 [] h).
  apply (represents_wf_store [] empty_heap).
Defined.

(** [append] with merge in closed form. *)
Lemma append_merge_represents self a c x n rest h :
  represents h self (a ++ [c]) → in_block c → open_syllable c = true →
  x ∈ Syllable.INITIAL_JAMOS → Syllable.FINAL_JAMOS !! n = Some x →
  forallb decodes rest = true →
  ∃ w w' pre last,
    wfs h !! self = Some w ∧ syllables w = pre ++ [last] ∧
    syls h !! last = Some (decoded c) ∧
    let h' := put_wf self w' (new_syls (map decoded rest)
                (put_syl last (decoded (c + Z.of_nat n)) h)) in
    WordForm.append self (x :: rest) true h = (Ok self, h') ∧
    represents h' self (a ++ [c + Z.of_nat n] ++ rest).
Proof.
  intros Hrep Hc Ho Hx Hn Hd. pose proof Hrep as (w & Hw & _).
  destruct (represents_derived _ _ _ _ Hrep Hw) as (_ & Hr & Hlen & Hnd).
  destruct (syllables w) as [|last pre _] eqn:Hsyl using rev_ind.
  { rewrite length_app in Hlen. simpl in Hlen. lia. }
  rewrite map_app in Hr. simpl map in Hr.
  apply read_syls_snoc_inv in Hr as [Hpre Hlast].
  2:{ rewrite !length_app, length_map in *. simpl in Hlen. lia. }
  apply list.NoDup_app in Hnd as (Hndpre & Hnot & _).
  assert (last ∉ pre) as Hnotin.
  { intros Hin. apply (Hnot _ Hin). by left. }
  destruct (merge_final c n x Hc Ho Hn) as (Hfin & Hc' & Hcomp & Hdec).
  pose proof (append_merge_ok self x rest h w pre last (map decoded a)
                (decoded c) [c + Z.of_nat n] Hw Hsyl Hnotin Hpre Hlast Hx Hfin
                Hcomp Hd) as E.
  cbv zeta in E. rewrite Hdec in E.
  eexists w, _, pre, last. split; [done|]. split; [done|]. split; [done|].
  cbv zeta. split; [exact E|].
  eexists. split.
  { apply (wfs_put_wf_eq _ _ (new_syls _ (put_syl _ _ h)) _ Hw). }
  cbn [derived string jamos syllables].
  assert (map decoded a ++ [decoded (c + Z.of_nat n)] ++ map decoded rest
          = map decoded (a ++ [c + Z.of_nat n] ++ rest)) as Emap
    by (by rewrite !map_app).
  rewrite Emap. split; [apply surface_of_decoded|]. split; [done|].
  pose proof (read_syls_bound _ _ _ Hpre) as Hb.
  rewrite list.Forall_forall in Hb.
  apply lookup_lt_Some in Hlast as Hlt.
  split.
  - rewrite Hsyl. apply list.NoDup_app. split.
    + apply list.NoDup_app. split; [done|]. split; [|apply NoDup_singleton].
      intros y Hy ->%list_elem_of_singleton. done.
    + split; [|apply NoDup_seq].
      intros y [Hy| ->%list_elem_of_singleton]%elem_of_app Hy'%elem_of_seq;
        [specialize (Hb y Hy)|]; lia.
  - rewrite <- Emap, Hsyl.
    change (read_syls (put_wf ?i ?v ?g)) with (read_syls g).
    rewrite <- !app_assoc.
    apply read_syls_app; [|apply read_syls_app].
    + apply read_syls_new_syls. by apply read_syls_put_syl_other.
    + apply read_syls_new_syls. unfold read_syls. apply mapM_Some_2.
      constructor; [|constructor]. eapply syls_put_syl_eq, Hlast.
    + replace (length (syls h))
        with (length (syls (put_syl last (decoded (c + Z.of_nat n)) h)))
        by (simpl; by rewrite length_insert).
      rewrite <- (length_map decoded rest). apply read_syls_fresh.
Qed.

(** X8.  [append] with merge, on a word form in the state [WordForm(a ++ [c])]
    builds, [c] a character of the block without final: when the first
    character [x] of the suffix is in the initial catalogue and at position
    [n] of the final catalogue, the call returns the same object in the
    state [WordForm(a ++ [c + n] ++ rest)] builds.  The words, the other
    word forms and every syllable object but the last one of this word form
    stay as they are. *)
Theorem append_merge_adds_final (self : nat) (a : str) (c x : Z) (n : nat)
    (rest : str) (h : heap) :
  represents h self (a ++ [c]) → in_block c → open_syllable c = true →
  x ∈ Syllable.INITIAL_JAMOS → Syllable.FINAL_JAMOS !! n = Some x →
  forallb decodes rest = true →
  ∃ h', WordForm.append self (x :: rest) true h = (Ok self, h') ∧
        represents h' self (a ++ [c + Z.of_nat n] ++ rest) ∧
        words h' = words h ∧
        (∀ r w, r ≠ self → wfs h !! r = Some w → wfs h' !! r = Some w) ∧
        (∀ r s w, wfs h !! self = Some w →
                  list_getitem (syllables w) (-1) ≠ Ok r →
                  syls h !! r = Some s → syls h' !! r = Some s).
Proof.
  intros Hrep Hc Ho Hx Hn Hd.
  destruct (append_merge_represents _ _ _ _ _ _ _ Hrep Hc Ho Hx Hn Hd)
    as (w & w' & pre & last & Hw & Hsyl & Hlast & E & Hrep').
  eexists. split; [exact E|]. split; [exact Hrep'|]. split; [done|]. split.
  - intros r w0 Hne Hw0. simpl. by rewrite list_lookup_insert_ne.
  - intros r s w0 Hw0 Hnot Hs.
    assert (w0 = w) as -> by congruence.
    rewrite Hsyl, list_getitem_last_snoc in Hnot.
    simpl. apply lookup_app_l_Some.
    rewrite list_lookup_insert_ne; [done|]. congruence.
Qed.

Lemma append_merge_adds_final_witness :
  let h := (run (WordForm.__init__ (u "가"))).2 in
  u "가" = [] ++ [44032] ∧
  [] ++ [44032 + Z.of_nat 17] ++ u "니다" = u "갑니다" ∧
  ∃ h', WordForm.append 0 (12610 :: u "니다") true h = (Ok 0%nat, h') ∧
        represents h' 0 ([] ++ [44032 + Z.of_nat 17] ++ u "니다") ∧
        words h' = words h ∧
        (∀ r w, r ≠ 0%nat → wfs h !! r = Some w → wfs h' !! r = Some w) ∧
        (∀ r s w, wfs h !! 0%nat = Some w →
                  list_getitem (syllables w) (-1) ≠ Ok r →
                  syls h !! r = Some s → syls h' !! r = Some s).
Proof.
  intros h. split; [reflexivity|]. split; [reflexivity|].
  apply (append_merge_adds_final 0 [] 44032 12610 17 (u "니다") h);
    try reflexivity.
  - apply (represents_wf_store (u "가") empty_heap).
  - unfold in_block. lia.
  - apply (bool_decide_unpack _). by vm_compute.
Defined.

(** X9.  [copy] returns a new word form in the same state, built on syllable
    objects of its own; the store it starts from is unchanged. *)
Theorem WordForm_copy_duplicates (self : nat) (text : str) (h : heap) :
  represents h self text → forallb decodes text = true →
  ∃ h', WordForm.copy self h = (Ok (length (wfs h)), h') ∧
        heap_prefix h h' ∧
        represents h' self text ∧
        represents h' (length (wfs h)) text ∧
        ∀ w', wfs h' !! length (wfs h) = Some w' →
              Forall (λ r : nat, (length (syls h) ≤ r)%nat) (syllables w').
Proof.
  intros Hrep Hd. pose proof Hrep as (w & Hw & Hs & _). subst text.
  eexists. split; [apply (WordForm_copy_ok _ _ _ Hw Hd)|].
  split; [apply heap_prefix_wf_store|].
  split; [eapply represents_prefix, Hrep; apply heap_prefix_wf_store|].
  split; [apply represents_wf_store|].
  intros w'. rewrite wfs_wf_store_new. intros [= <-].
  cbn [built syllables]. apply list.Forall_forall.
  intros r Hr%elem_of_seq. lia.
Qed.

Lemma WordForm_copy_duplicates_witness :
  let h := (run (WordForm.__init__ (u "먹"))).2 in
  ∃ h', WordForm.copy 0 h = (Ok (length (wfs h)), h') ∧
        heap_prefix h h' ∧
        represents h' 0 (u "먹") ∧
        represents h' (length (wfs h)) (u "먹") ∧
        ∀ w', wfs h' !! length (wfs h) = Some w' →
              Forall (λ r : nat, (length (syls h) ≤ r)%nat) (syllables w').
Proof.
  intros h. apply (WordForm_copy_duplicates 0 (u "먹") h); [|reflexivity].
  apply (represents_wf_store (u "먹") empty_heap).
Defined.

(** ** The jamo sequence *)

Lemma flat_jamos_cons s ss :
  flat_jamos (s :: ss) = concat (syllable_jamos s) ++ flat_jamos ss.
Proof.
  unfold flat_jamos, join.
  change (concat (map syllable_jamos (s :: ss)))
    with (syllable_jamos s ++ concat (map syllable_jamos ss)).
  apply concat_app.
Qed.

Lemma flat_jamos_decoded_cons c text :
  decodes c = true →
  ∃ i m f,
    i ∈ Syllable.INITIAL_JAMOS ∧ m ∈ Syllable.MEDIAL_JAMOS ∧
    f ∈ final_consonants ∧
    flat_jamos (map decoded (c :: text)) =
    i :: m :: (if open_syllable c then [] else [f])
      ++ flat_jamos (map decoded text).
Proof.
  intros Hd. pose proof (decoded_open c Hd) as Hopen.
  destruct (decoded_jamos c Hd) as (i & m & f & Hdec & Hi & Hm & Hf).
  simpl map. rewrite flat_jamos_cons, Hdec in *.
  unfold syllable_jamos. cbn [jamo_initial jamo_medial jamo_final] in *.
  destruct (open_syllable c).
  - exists i, m, 12593. split; [done|]. split; [done|].
    split; [apply (bool_decide_unpack _); by vm_compute|].
    rewrite bool_decide_eq_false_2; [done|].
    intros Hne. apply Hne. by apply Hopen.
  - exists i, m, f. split; [done|]. split; [done|].
    assert (f ≠ 32) as Hne.
    { intros ->. by assert (false = true) by (by apply Hopen). }
    split.
    { rewrite FINAL_JAMOS_split in Hf. by apply elem_of_cons in Hf as [|]. }
    rewrite bool_decide_eq_true_2; [done|]. intros [= ?]. done.
Qed.

Lemma sentinel_not_jamo :
  32 ∉ Syllable.INITIAL_JAMOS ++ Syllable.MEDIAL_JAMOS ++ final_consonants.
Proof. apply (bool_decide_unpack _). by vm_compute. Qed.

(** X10.  The jamo sequence of a word form in the state its constructor builds
    has two jamos for each character without final and three for each of
    the others; every one of them is an entry of a catalogue and none is
    the sentinel.  The string has one character per syllable object. *)
Theorem jamo_sequence_shape (h : heap) (self : nat) (text : str)
    (w : WordFormObj) :
  represents h self text → wfs h !! self = Some w →
  forallb decodes text = true →
  length (jamos w) =
    (2 * length text
     + length (List.filter (λ c, negb (open_syllable c)) text))%nat ∧
  Forall (λ j, j ∈ Syllable.INITIAL_JAMOS ++ Syllable.MEDIAL_JAMOS
                   ++ final_consonants) (jamos w) ∧
  (32 ∉ jamos w) ∧
  length (string w) = length (syllables w).
Proof.
  intros Hrep Hw Hd.
  destruct (represents_derived _ _ _ _ Hrep Hw) as (Hder & _ & Hlen & _).
  assert (jamos w = flat_jamos (map decoded text)) as Hj by (by rewrite Hder).
  assert (string w = text) as Hs
    by (rewrite Hder; apply surface_of_decoded).
  rewrite Hj, Hs, Hlen. clear -Hd.
  assert (length (flat_jamos (map decoded text)) =
            (2 * length text
             + length (List.filter (λ c, negb (open_syllable c)) text))%nat ∧
          Forall (λ j, j ∈ Syllable.INITIAL_JAMOS ++ Syllable.MEDIAL_JAMOS
                           ++ final_consonants)
            (flat_jamos (map decoded text))) as [Hlen Hall].
  { induction text as [|c text IH]; [by split|].
    apply andb_true_iff in Hd as [Hc Hd]. destruct (IH Hd) as [IH1 IH2].
    destruct (flat_jamos_decoded_cons c text Hc) as (i & m & f & Hi & Hm & Hf & ->).
    split.
    - cbn [List.filter]. destruct (open_syllable c); simpl; rewrite IH1; lia.
    - constructor; [apply elem_of_app; by left|].
      constructor; [apply elem_of_app; right; apply elem_of_app; by left|].
      destruct (open_syllable c); cbn [app]; [done|].
      constructor; [|done]. apply elem_of_app; right; apply elem_of_app; by right. }
  split; [done|]. split; [done|]. split; [|done].
  intros Hin. rewrite list.Forall_forall in Hall.
  by apply sentinel_not_jamo, Hall.
Qed.

Lemma jamo_sequence_shape_witness :
  let h := (run (WordForm.__init__ (u "학교"))).2 in
  let w := built 0 (u "학교") in
  jamos w = u "ㅎㅏㄱㄱㅛ" ∧
  length (jamos w) =
    (2 * length (u "학교")
     + length (List.filter (λ c, negb (open_syllable c)) (u "학교")))%nat ∧
  Forall (λ j, j ∈ Syllable.INITIAL_JAMOS ++ Syllable.MEDIAL_JAMOS
                   ++ final_consonants) (jamos w) ∧
  (32 ∉ jamos w) ∧
  length (string w) = length (syllables w).
Proof.
  intros h w. split; [reflexivity|].
  apply (jamo_sequence_shape h 0 (u "학교") w); try reflexivity.
  apply (represents_wf_store (u "학교") empty_heap).
Defined.

(** ** The two classifiers *)

Lemma endswith_any_snoc_elem (a : str) x units :
  x ∈ units → endswith_any (a ++ [x]) (map (λ c, [c]) units) = true.
Proof.
  unfold endswith_any. induction units as [|y units IH]; [by intros ?%elem_of_nil|].
  simpl. rewrite str_endswith_snoc_char.
  intros [->|H]%elem_of_cons; [by rewrite Z.eqb_refl|].
  rewrite (IH H). apply orb_true_r.
Qed.

Lemma endswith_any_snoc_not_elem (a : str) x units :
  x ∉ units → endswith_any (a ++ [x]) (map (λ c, [c]) units) = false.
Proof.
  intros Hx. destruct (endswith_any _ _) eqn:E; [|done].
  by apply endswith_any_snoc in E.
Qed.

Lemma hangul_consonants_chars :
  hangul_consonants = map (λ c, [c]) final_consonants.
Proof. reflexivity. Qed.

Lemma vowel_not_final m :
  m ∈ Syllable.MEDIAL_JAMOS → m ∉ final_consonants.
Proof.
  revert m. apply list.Forall_forall. apply (bool_decide_unpack _). by vm_compute.
Qed.

Lemma ends_open_snoc a c : ends_open (a ++ [c]) = open_syllable c.
Proof. unfold ends_open. by rewrite reverse_snoc. Qed.

Lemma flat_jamos_decoded_last a c :
  decodes c = true →
  ∃ js e, flat_jamos (map decoded (a ++ [c])) = js ++ [e] ∧
          if open_syllable c then e ∈ Syllable.MEDIAL_JAMOS
          else e ∈ final_consonants.
Proof.
  intros Hd. pose proof (decoded_open c Hd) as Hopen.
  destruct (decoded_jamos c Hd) as (i & m & f & Hdec & Hi & Hm & Hf).
  rewrite map_app. simpl map. rewrite flat_jamos_snoc, Hdec in *.
  cbn [jamo_initial jamo_medial jamo_final] in *.
  destruct (open_syllable c).
  - rewrite bool_decide_eq_false_2
      by (intros Hne; apply Hne; by apply Hopen).
    exists (flat_jamos (map decoded a) ++ [i]), m.
    split; [by rewrite app_nil_r, <- app_assoc|done].
  - assert (f ≠ 32) as Hne.
    { intros ->. by assert (false = true) by (by apply Hopen). }
    rewrite bool_decide_eq_true_2 by (intros [= ?]; done).
    exists (flat_jamos (map decoded a) ++ [i; m]), f.
    split; [by rewrite <- app_assoc|].
    rewrite FINAL_JAMOS_split in Hf. by apply elem_of_cons in Hf as [|].
Qed.

Lemma classifier_tests (text : str) :
  forallb decodes text = true →
  endswith_any (flat_jamos (map decoded text)) hangul_vowels = ends_open text ∧
  endswith_any (flat_jamos (map decoded text)) hangul_consonants =
    (if ends_open text then false else bool_decide (text ≠ [])).
Proof.
  intros Hd. destruct text as [|c a _] using rev_ind; [by split|].
  rewrite forallb_app in Hd. apply andb_true_iff in Hd as [_ Hc].
  simpl in Hc. rewrite andb_true_r in Hc.
  destruct (flat_jamos_decoded_last a c Hc) as (js & e & -> & He).
  rewrite ends_open_snoc, hangul_vowels_chars, hangul_consonants_chars.
  rewrite (bool_decide_eq_true_2 (a ++ [c] ≠ []))
    by (intros [_ [=]]%app_eq_nil).
  destruct (open_syllable c).
  - split; [by apply endswith_any_snoc_elem|].
    by apply endswith_any_snoc_not_elem, vowel_not_final.
  - split; [|by apply endswith_any_snoc_elem].
    apply endswith_any_snoc_not_elem. intros Hm.
    apply (final_not_vowel e); [|done].
    rewrite FINAL_JAMOS_split. by right.
Qed.

(** X11.  On the jamo sequence of a word form in the state its constructor
    builds, the test against [hangul_vowels] says whether the last
    character is one without final, and the test against
    [hangul_consonants] says the opposite, except for the empty word form,
    for which both are false. *)
Theorem classifiers_complementary (h : heap) (self : nat) (text : str)
    (w : WordFormObj) :
  represents h self text → wfs h !! self = Some w →
  forallb decodes text = true →
  endswith_any (jamos w) hangul_vowels = ends_open text ∧
  endswith_any (jamos w) hangul_consonants =
    (if ends_open text then false else bool_decide (text ≠ [])).
Proof.
  intros Hrep Hw Hd.
  destruct (represents_derived _ _ _ _ Hrep Hw) as (Hder & _).
  assert (jamos w = flat_jamos (map decoded text)) as -> by (by rewrite Hder).
  by apply classifier_tests.
Qed.

Lemma classifiers_complementary_witness :
  let h := (run (WordForm.__init__ (u "의자"))).2 in
  let w := built 0 (u "의자") in
  ends_open (u "의자") = true ∧
  endswith_any (jamos w) hangul_vowels = ends_open (u "의자") ∧
  endswith_any (jamos w) hangul_consonants =
    (if ends_open (u "의자") then false else bool_decide (u "의자" ≠ [])).
Proof.
  intros h w. split; [reflexivity|].
  apply (classifiers_complementary h 0 (u "의자") w); try reflexivity.
  apply (represents_wf_store (u "의자") empty_heap).
Defined.

(** * Words and their copies *)

Lemma heap_prefix_wf_store_word_store lemma h :
  heap_prefix (wf_store lemma h) (word_store lemma h).
Proof.
  unfold word_store.
  eapply heap_prefix_trans; [apply heap_prefix_wf_store|].
  eapply heap_prefix_trans; [apply heap_prefix_wf_store|].
  apply heap_prefix_new_word.
Qed.

Lemma heap_prefix_wf_store2_word_store lemma h :
  heap_prefix (wf_store lemma (wf_store lemma h)) (word_store lemma h).
Proof.
  unfold word_store.
  eapply heap_prefix_trans; [apply heap_prefix_wf_store|].
  apply heap_prefix_new_word.
Qed.

Lemma represents_word_store lemma h :
  let l := length (wfs h) in
  represents (word_store lemma h) l lemma ∧
  represents (word_store lemma h) (S l) lemma ∧
  represents (word_store lemma h) (S (S l)) lemma ∧
  words (word_store lemma h) !! length (words h)
    = Some (mkWord l (S l) (S (S l))) ∧
  length (wfs (word_store lemma h)) = S (S (S l)).
Proof.
  intros l. subst l. split; [|split; [|split; [|split]]].
  - eapply represents_prefix; [apply heap_prefix_wf_store_word_store|].
    apply represents_wf_store.
  - eapply represents_prefix; [apply heap_prefix_wf_store2_word_store|].
    rewrite <- (length_wfs_wf_store lemma h). apply represents_wf_store.
  - rewrite <- (length_wfs_wf_store lemma h).
    rewrite <- (length_wfs_wf_store lemma (wf_store lemma h)).
    apply (represents_wf_store lemma (wf_store lemma (wf_store lemma h))).
  - rewrite words_word_store. by rewrite !length_wfs_wf_store.
  - unfold word_store. cbn [new_word wfs]. by rewrite !length_wfs_wf_store.
Qed.

(** The syllable objects of a word form that represents a text are those
    the store had when the form was built. *)
Lemma represents_syllables_bound h self text w :
  represents h self text → wfs h !! self = Some w →
  Forall (λ r : nat, (r < length (syls h))%nat) (syllables w).
Proof.
  intros Hrep Hw.
  destruct (represents_derived _ _ _ _ Hrep Hw) as (_ & Hr & _).
  by eapply read_syls_bound.
Qed.

(** X12.  [Word(lemma)], and so [Noun(lemma)], returns exactly when every
    character of the lemma is accepted.  The new word then has three
    different word forms, lemma, root and inflection, each in the state
    [WordForm(lemma)] builds, and no syllable object belongs to two of
    them: a change made in place to one form cannot reach another.
    Otherwise [IndexError] is raised and neither a word nor a word form
    comes into being. *)
Theorem Word_init_builds (lemma : str) (h : heap) :
  let r := Word.__init__ lemma h in
  Noun.__init__ lemma h = r ∧
  if forallb decodes lemma then
    ∃ l ro i wl wr wi,
      r.1 = Ok (length (words h)) ∧ heap_prefix h r.2 ∧
      words r.2 !! length (words h) = Some (mkWord l ro i) ∧
      l ≠ ro ∧ l ≠ i ∧ ro ≠ i ∧
      represents r.2 l lemma ∧ represents r.2 ro lemma ∧
      represents r.2 i lemma ∧
      wfs r.2 !! l = Some wl ∧ wfs r.2 !! ro = Some wr ∧
      wfs r.2 !! i = Some wi ∧
      (∀ x, x ∈ syllables wl → (x ∉ syllables wr) ∧ (x ∉ syllables wi)) ∧
      (∀ x, x ∈ syllables wr → x ∉ syllables wi)
  else
    r.1 = Raise IndexError ∧ syls h `prefix_of` syls r.2 ∧
    wfs r.2 = wfs h ∧ words r.2 = words h.
Proof.
  intros r. subst r. split; [done|].
  rewrite Word_init_spec. destruct (forallb decodes lemma) eqn:Hd.
  2:{ cbn [fst snd]. split; [done|]. split; [by apply prefix_app_r|done]. }
  cbn [fst snd].
  set (s0 := length (syls h)). set (n := length lemma).
  exists (length (wfs h)), (S (length (wfs h))), (S (S (length (wfs h)))),
    (built s0 lemma), (built (s0 + n) lemma), (built (s0 + n + n) lemma).
  destruct (represents_word_store lemma h) as (Hl & Hr & Hi & Hw & _).
  split; [done|]. split; [apply heap_prefix_word_store|].
  split; [done|]. split; [lia|]. split; [lia|]. split; [lia|].
  split; [done|]. split; [done|]. split; [done|].
  assert (length (syls (wf_store lemma h)) = (s0 + n)%nat) as E1
    by (simpl; by rewrite length_app, length_map).
  assert (length (syls (wf_store lemma (wf_store lemma h))) = (s0 + n + n)%nat)
    as E2 by (simpl; rewrite !length_app, !length_map; subst s0 n; lia).
  split; [apply wfs_word_store_lemma|].
  split.
  { rewrite <- E1, <- (length_wfs_wf_store lemma h). apply wfs_word_store_root. }
  split.
  { rewrite <- E2, <- (length_wfs_wf_store lemma h),
      <- (length_wfs_wf_store lemma (wf_store lemma h)).
    apply wfs_word_store_inflection. }
  cbn [built syllables]. split.
  - intros x Hx%elem_of_seq. rewrite !elem_of_seq. lia.
  - intros x Hx%elem_of_seq. rewrite !elem_of_seq. lia.
Qed.

(** In a store given in full, that a word form represents a text is
    checked by evaluation. *)
Ltac represents_here :=
  eexists;
  split; [vm_compute; reflexivity|];
  split; [vm_compute; reflexivity|];
  split; [vm_compute; reflexivity|];
  split; [apply (bool_decide_unpack _); vm_compute; reflexivity
         |vm_compute; reflexivity].

Lemma forallb_in_block text : Forall in_block text → forallb decodes text = true.
Proof.
  induction 1 as [|c text Hc _ IH]; [done|].
  simpl. by rewrite (in_block_decodes c Hc).
Qed.

Lemma Word_copy_represents w h me tl tr ti :
  words h !! w = Some me →
  represents h (lemma me) tl → represents h (root me) tr →
  represents h (inflection me) ti →
  forallb decodes tl = true → forallb decodes tr = true →
  forallb decodes ti = true →
  ∃ h' l r i,
    Word.copy w h = (Ok (length (words h)), h') ∧ heap_prefix h h' ∧
    words h' !! length (words h) = Some (mkWord l r i) ∧
    length (words h') = S (length (words h)) ∧
    (length (wfs h) ≤ l)%nat ∧ (length (wfs h) ≤ r)%nat ∧
    (length (wfs h) ≤ i)%nat ∧
    l ≠ r ∧ l ≠ i ∧ r ≠ i ∧
    represents h' l tl ∧ represents h' r tr ∧ represents h' i ti.
Proof.
  intros Hme Hl Hr Hi Hdl Hdr Hdi.
  pose proof Hl as (wl & Hwl & Hsl & _).
  pose proof Hr as (wr & Hwr & Hsr & _).
  pose proof Hi as (wi & Hwi & Hsi & _).
  unfold Word.copy.
  rewrite (bind_ok _ _ _ _ _ (get_word_run _ _ _ Hme)).
  rewrite (bind_ok _ _ _ _ _ (get_wf_run _ _ _ Hwl)).
  rewrite bind_run, Word_init_spec, Hsl, Hdl.
  set (h2 := word_store tl h). set (c := length (words h)).
  set (kl := length (wfs h)).
  destruct (represents_word_store tl h) as (Rl2 & _ & _ & Hc2 & Hlen2).
  fold h2 c kl in Rl2, Hc2, Hlen2.
  assert (heap_prefix h h2) as Hp2 by apply heap_prefix_word_store.
  assert (forallb decodes (string wr) = true) as Hdr' by (by rewrite Hsr).
  rewrite (bind_ok _ _ _ _ _ (WordForm_copy_ok _ _ _
             (heap_prefix_lookup_wf _ _ _ _ Hp2 Hwr) Hdr')).
  rewrite Hsr. set (h3 := wf_store tr h2). set (kr := length (wfs h2)).
  assert (heap_prefix h2 h3) as Hp3 by apply heap_prefix_wf_store.
  assert (words h3 !! c = Some (mkWord kl (S kl) (S (S kl)))) as Hc3 by exact Hc2.
  rewrite (bind_ok _ _ _ _ _ (mod_word_run _ _ _ _ Hc3)).
  cbn [set_root lemma inflection].
  set (h4 := put_word c (mkWord kl kr (S (S kl))) h3).
  assert (wfs h4 !! inflection me = Some wi) as Hwi4.
  { apply (heap_prefix_lookup_wf h h3); [|done]. by eapply heap_prefix_trans. }
  assert (forallb decodes (string wi) = true) as Hdi' by (by rewrite Hsi).
  rewrite (bind_ok _ _ _ _ _ (WordForm_copy_ok _ _ _ Hwi4 Hdi')).
  rewrite Hsi. set (h5 := wf_store ti h4). set (ki := length (wfs h4)).
  assert (words h5 !! c = Some (mkWord kl kr (S (S kl)))) as Hc5.
  { change (words h5) with (words h4). eapply words_put_word_eq, Hc3. }
  rewrite (bind_ok _ _ _ _ _ (mod_word_run _ _ _ _ Hc5)).
  cbn [set_inflection lemma root]. rewrite ret_run.
  set (h6 := put_word c (mkWord kl kr ki) h5).
  assert (kr = S (S (S kl))) as Ekr by exact Hlen2.
  assert (ki = S kr) as Eki by (subst ki; apply (length_wfs_wf_store tr h2)).
  exists h6, kl, kr, ki. split; [done|].
  split.
  { apply heap_prefix_put_word_new; [|done].
    eapply heap_prefix_trans; [|apply heap_prefix_wf_store].
    apply heap_prefix_put_word_new; [|done]. by eapply heap_prefix_trans. }
  split; [eapply words_put_word_eq, Hc5|].
  split.
  { subst h6 h5 h4 h3 h2. simpl. rewrite !length_insert, length_app. simpl. lia. }
  split; [done|]. split; [lia|]. split; [lia|].
  split; [lia|]. split; [lia|]. split; [lia|].
  split; [|split].
  - apply represents_put_word. eapply represents_prefix; [apply heap_prefix_wf_store|].
    apply represents_put_word. by eapply represents_prefix.
  - apply represents_put_word. eapply represents_prefix; [apply heap_prefix_wf_store|].
    apply represents_put_word. apply represents_wf_store.
  - apply represents_put_word. apply (represents_wf_store ti h4).
Qed.

(** X13.  [Word.copy] returns a new word whose lemma, root and inflection are
    three new word forms in the same states as those of the original,
    whatever appends the original has been through; the store it starts
    from is unchanged.  [PresentTense(word)] and [PastTense(word)] are
    conjugations around such a copy. *)
Theorem Word_copy_duplicates (w : nat) (h : heap) (me : WordObj)
    (tl tr ti : str) :
  words h !! w = Some me →
  represents h (lemma me) tl → represents h (root me) tr →
  represents h (inflection me) ti →
  forallb decodes tl = true → forallb decodes tr = true →
  forallb decodes ti = true →
  ∃ h' l r i,
    Word.copy w h = (Ok (length (words h)), h') ∧
    PresentTense.__init__ w h = (Ok (mkConjugation (length (words h))), h') ∧
    PastTense.__init__ w h = (Ok (mkConjugation (length (words h))), h') ∧
    heap_prefix h h' ∧
    words h' !! length (words h) = Some (mkWord l r i) ∧
    (length (wfs h) ≤ l)%nat ∧ (length (wfs h) ≤ r)%nat ∧
    (length (wfs h) ≤ i)%nat ∧
    represents h' l tl ∧ represents h' r tr ∧ represents h' i ti.
Proof.
  intros Hme Hl Hr Hi Hdl Hdr Hdi.
  destruct (Word_copy_represents _ _ _ _ _ _ Hme Hl Hr Hi Hdl Hdr Hdi)
    as (h' & l & r & i & E & Hp & Hw & _ & Fl & Fr & Fi & _ & _ & _ & Rl & Rr & Ri).
  exists h', l, r, i. split; [exact E|].
  split; [unfold PresentTense.__init__; by rewrite (bind_ok _ _ _ _ _ E)|].
  split; [unfold PastTense.__init__; by rewrite (bind_ok _ _ _ _ _ E)|].
  repeat (split; [done|]). done.
Qed.

Lemma Word_copy_duplicates_witness :
  let h := (run (n ← Noun.__init__ (u "책"); Subject.__init__ n)).2 in
  words h !! 1%nat = Some (mkWord 3 4 5) ∧
  ∃ h' l r i,
    Word.copy 1 h = (Ok (length (words h)), h') ∧
    PresentTense.__init__ 1 h = (Ok (mkConjugation (length (words h))), h') ∧
    PastTense.__init__ 1 h = (Ok (mkConjugation (length (words h))), h') ∧
    heap_prefix h h' ∧
    words h' !! length (words h) = Some (mkWord l r i) ∧
    (length (wfs h) ≤ l)%nat ∧ (length (wfs h) ≤ r)%nat ∧
    (length (wfs h) ≤ i)%nat ∧
    represents h' l (u "책") ∧ represents h' r (u "책") ∧
    represents h' i (u "책이").
Proof.
  intros h. split; [vm_compute; reflexivity|].
  apply (Word_copy_duplicates 1 h (mkWord 3 4 5));
    [vm_compute; reflexivity|represents_here..|reflexivity|reflexivity|reflexivity].
Defined.

(** * The present conjugations in closed form *)

Lemma add_final_snoc n a c : add_final n (a ++ [c]) = a ++ [c + n].
Proof. unfold add_final. by rewrite reverse_snoc, reverse_involutive. Qed.

Lemma append_merge_no_syllable self h c0 rest :
  represents h self [] → c0 ∈ Syllable.INITIAL_JAMOS →
  WordForm.append self (c0 :: rest) true h = (Raise IndexError, h).
Proof.
  intros Hrep Hc0. pose proof Hrep as (w & Hw & _).
  destruct (represents_derived _ _ _ _ Hrep Hw) as (_ & _ & Hlen & _).
  rewrite append_merge_spec.
  apply str_contains_char in Hc0. rewrite Hc0. simpl negb. cbv iota.
  rewrite Hw. destruct (syllables w); [done|discriminate Hlen].
Qed.

(** The last syllable object of the word form [WordForm(text)] has just
    built is a new object. *)
Lemma wf_store_last_fresh text h w pre last :
  wfs (wf_store text h) !! length (wfs h) = Some w →
  syllables w = pre ++ [last] → (length (syls h) ≤ last)%nat.
Proof.
  rewrite wfs_wf_store_new. intros [= <-]. cbn [built syllables]. intros E.
  assert (last ∈ seq (length (syls h)) (length text)) as Hin
    by (rewrite E; apply elem_of_app; right; by left).
  apply elem_of_seq in Hin. lia.
Qed.

Lemma informalLow_spec self h me tr :
  words h !! word self = Some me → represents h (root me) tr →
  Forall in_block tr →
  let i' := length (wfs h) in
  ∃ h', heap_prefix (mkHeap (syls h) (wfs h) []) h' ∧
        words h' = <[word self := set_inflection i' me]> (words h) ∧
        if bool_decide (tr = []) then
          PresentTense.informalLow self h = (Raise IndexError, h') ∧
          represents h' i' []
        else
          PresentTense.informalLow self h = (Ok tt, h') ∧
          represents h' i' (informal_low_text tr).
Proof.
  intros Hme Hr Hb i'. pose proof (forallb_in_block _ Hb) as Hd.
  pose proof Hr as (wr & Hwr & Hsr & _).
  destruct (represents_derived _ _ _ _ Hr Hwr) as (Hder & _).
  assert (jamos wr = flat_jamos (map decoded tr)) as Hj by (by rewrite Hder).
  unfold PresentTense.informalLow.
  rewrite (bind_ok _ _ _ _ _ (get_word_run _ _ _ Hme)).
  assert (forallb decodes (string wr) = true) as Hd' by (by rewrite Hsr).
  rewrite (bind_ok _ _ _ _ _ (WordForm_copy_ok _ _ _ Hwr Hd')).
  rewrite Hsr. fold i'. set (h1 := wf_store tr h).
  assert (words h1 !! word self = Some me) as Hme1 by exact Hme.
  rewrite (bind_ok _ _ _ _ _ (mod_word_run _ _ _ _ Hme1)).
  set (h2 := put_word (word self) (set_inflection i' me) h1).
  assert (words h2 !! word self = Some (set_inflection i' me)) as Hme2
    by (eapply words_put_word_eq, Hme1).
  rewrite (bind_ok _ _ _ _ _ (get_word_run _ _ _ Hme2)).
  cbn [set_inflection root inflection].
  assert (wfs h2 !! root me = Some wr) as Hwr2
    by (by apply (wfs_wf_store_old tr h)).
  rewrite (bind_ok _ _ _ _ _ (get_wf_run _ _ _ Hwr2)).
  assert (represents h2 i' tr) as Ri2 by apply (represents_wf_store tr h).
  assert (heap_prefix (mkHeap (syls h) (wfs h) []) h2) as Hp2.
  { assert (heap_prefix h h1) as (Hs & Hw & _) by apply heap_prefix_wf_store.
    split; [exact Hs|]. split; [exact Hw|apply prefix_nil]. }
  destruct (classifier_tests tr Hd) as [_ Hcons]. rewrite Hj, Hcons.
  destruct tr as [|c a _] using rev_ind.
  - cbn [ends_open reverse]. simpl bool_decide. cbv iota.
    exists h2. split; [done|]. split; [done|].
    rewrite (bind_raise _ _ _ _ _
               (append_merge_no_syllable i' h2 12596 (u "다") Ri2
                  ltac:(apply (bool_decide_unpack _); by vm_compute))).
    done.
  - rewrite (bool_decide_eq_false_2 (a ++ [c] = []))
      by (intros [_ [=]]%app_eq_nil).
    rewrite (bool_decide_eq_true_2 (a ++ [c] ≠ []))
      by (intros [_ [=]]%app_eq_nil).
    unfold informal_low_text. rewrite ends_open_snoc.
    apply Forall_app in Hb as [_ Hc]. apply Forall_inv in Hc.
    destruct (open_syllable c) eqn:Ho.
    + destruct (append_merge_represents i' a c 12596 4 (u "다") h2 Ri2 Hc Ho)
        as (w & w' & pre & last & Hw & Hsyl & Hlast & E & Rep);
        [apply (bool_decide_unpack _); by vm_compute|reflexivity|reflexivity|].
      cbv zeta in E, Rep. rewrite (bind_ok _ _ _ _ _ E), ret_run.
      eexists. split; [|split; [|split; [reflexivity|]]].
      * apply heap_prefix_put_wf_new; [|done].
        eapply heap_prefix_trans; [|apply heap_prefix_new_syls].
        apply heap_prefix_put_syl_new; [done|].
        apply (wf_store_last_fresh _ _ _ _ _ Hw Hsyl).
      * done.
      * rewrite add_final_snoc, <- app_assoc. exact Rep.
    + destruct (append_plain_represents i' (a ++ [c]) (u "는다") h2 Ri2 eq_refl)
        as (w' & E & Rep).
      rewrite (bind_ok _ _ _ _ _ E), ret_run.
      eexists. split; [|split; [|split; [reflexivity|]]].
      * apply heap_prefix_put_wf_new; [|done].
        eapply heap_prefix_trans; [|apply heap_prefix_new_syls]. done.
      * done.
      * exact Rep.
Qed.

(** X14.  [informalLow] on a conjugation whose word has a root of characters of
    the block.  The inflection of the word becomes a new word form: the root
    followed by U+B294 U+B2E4 when the last character of the root has a
    final, and otherwise the root with 4 added to its last code point, which
    gives it the final U+3134, followed by U+B2E4.  An empty root, that of
    the lemma U+B2E4 alone, makes the call raise [IndexError], the word left
    with an empty inflection.  Nothing else changes: the other attributes
    of the word, the other words, and the word forms and syllable objects
    that were there. *)
Theorem informalLow_conjugates (self : Conjugation) (h : heap) (me : WordObj)
    (tr : str) :
  words h !! word self = Some me → represents h (root me) tr →
  Forall in_block tr →
  ∃ h' i,
    (length (wfs h) ≤ i)%nat ∧
    words h' = <[word self := set_inflection i me]> (words h) ∧
    syls h `prefix_of` syls h' ∧ wfs h `prefix_of` wfs h' ∧
    if bool_decide (tr = []) then
      PresentTense.informalLow self h = (Raise IndexError, h') ∧
      inflection_surface h' (word self) = Some []
    else
      PresentTense.informalLow self h = (Ok tt, h') ∧
      inflection_surface h' (word self) = Some (informal_low_text tr) ∧
      represents h' i (informal_low_text tr).
Proof.
  intros Hme Hr Hb.
  destruct (informalLow_spec _ _ _ _ Hme Hr Hb) as (h' & (Hs & Hw & _) & Hwords & Hres).
  exists h', (length (wfs h)). split; [done|]. split; [done|].
  split; [done|]. split; [done|].
  assert (∀ t, represents h' (length (wfs h)) t →
               inflection_surface h' (word self) = Some t) as Hsurf.
  { intros t (w & Hw' & Hstr & _). unfold inflection_surface, surface.
    rewrite Hwords, list_lookup_insert_eq by (by eapply lookup_lt_Some).
    simpl. by rewrite Hw', <- Hstr. }
  destruct (bool_decide (tr = [])).
  - destruct Hres as [E R]. split; [done|]. by apply Hsurf.
  - destruct Hres as [E R]. split; [done|]. split; [by apply Hsurf|done].
Qed.

Lemma informalLow_conjugates_witness :
  let h := (run (v ← Verb.__init__ (u "가다"); PresentTense.__init__ v)).2 in
  informal_low_text (u "가") = u "간다" ∧
  ∃ h' i,
    (length (wfs h) ≤ i)%nat ∧
    words h' = <[1%nat := set_inflection i (mkWord 4 7 8)]> (words h) ∧
    syls h `prefix_of` syls h' ∧ wfs h `prefix_of` wfs h' ∧
    if bool_decide (u "가" = []) then
      PresentTense.informalLow (mkConjugation 1) h = (Raise IndexError, h') ∧
      inflection_surface h' 1 = Some []
    else
      PresentTense.informalLow (mkConjugation 1) h = (Ok tt, h') ∧
      inflection_surface h' 1 = Some (informal_low_text (u "가")) ∧
      represents h' i (informal_low_text (u "가")).
Proof.
  intros h. split; [vm_compute; reflexivity|].
  apply (informalLow_conjugates (mkConjugation 1) h (mkWord 4 7 8) (u "가"));
    [vm_compute; reflexivity|represents_here|].
  replace (u "가") with [44032] by (vm_compute; reflexivity).
  constructor; [unfold in_block; lia|constructor].
Defined.

(** X15.  [informalLow] can be called again: each call builds the inflection
    anew from the root, in a new word form, and the word form of the call
    before is left as it was. *)
Theorem informalLow_repeatable (self : Conjugation) (h : heap) (me : WordObj)
    (tr : str) :
  words h !! word self = Some me → represents h (root me) tr →
  Forall in_block tr → tr ≠ [] →
  ∃ h1 h2 i1 i2,
    PresentTense.informalLow self h = (Ok tt, h1) ∧
    PresentTense.informalLow self h1 = (Ok tt, h2) ∧
    words h1 !! word self = Some (set_inflection i1 me) ∧
    words h2 !! word self = Some (set_inflection i2 me) ∧
    i1 ≠ i2 ∧
    represents h1 i1 (informal_low_text tr) ∧
    represents h2 i1 (informal_low_text tr) ∧
    represents h2 i2 (informal_low_text tr).
Proof.
  intros Hme Hr Hb Hne.
  destruct (informalLow_spec _ _ _ _ Hme Hr Hb) as (h1 & Hp1 & Hw1 & Hres1).
  rewrite (bool_decide_eq_false_2 _ Hne) in Hres1. destruct Hres1 as [E1 R1].
  assert (words h1 !! word self = Some (set_inflection (length (wfs h)) me))
    as Hme1.
  { rewrite Hw1. apply list_lookup_insert_eq. by eapply lookup_lt_Some. }
  assert (represents h1 (root me) tr) as Hr1
    by (apply (represents_prefix (mkHeap (syls h) (wfs h) []) h1); done).
  destruct (informalLow_spec _ _ _ _ Hme1 Hr1 Hb) as (h2 & Hp2 & Hw2 & Hres2).
  rewrite (bool_decide_eq_false_2 _ Hne) in Hres2. destruct Hres2 as [E2 R2].
  exists h1, h2, (length (wfs h)), (length (wfs h1)).
  split; [done|]. split; [done|]. split; [done|]. split.
  { rewrite Hw2. apply list_lookup_insert_eq. by eapply lookup_lt_Some. }
  pose proof R1 as (w1 & Hlook & _). apply lookup_lt_Some in Hlook.
  split; [lia|]. split; [done|]. split; [|done].
  apply (represents_prefix (mkHeap (syls h1) (wfs h1) []) h2); done.
Qed.

Lemma informalLow_repeatable_witness :
  let h := (run (v ← Verb.__init__ (u "가다"); PresentTense.__init__ v)).2 in
  ∃ h1 h2 i1 i2,
    PresentTense.informalLow (mkConjugation 1) h = (Ok tt, h1) ∧
    PresentTense.informalLow (mkConjugation 1) h1 = (Ok tt, h2) ∧
    words h1 !! 1%nat = Some (set_inflection i1 (mkWord 4 7 8)) ∧
    words h2 !! 1%nat = Some (set_inflection i2 (mkWord 4 7 8)) ∧
    i1 ≠ i2 ∧
    represents h1 i1 (informal_low_text (u "가")) ∧
    represents h2 i1 (informal_low_text (u "가")) ∧
    represents h2 i2 (informal_low_text (u "가")).
Proof.
  intros h.
  apply (informalLow_repeatable (mkConjugation 1) h (mkWord 4 7 8) (u "가"));
    [vm_compute; reflexivity|represents_here| |discriminate].
  replace (u "가") with [44032] by (vm_compute; reflexivity).
  constructor; [unfold in_block; lia|constructor].
Defined.

Lemma PresentPolite_represents w h me tl tr ti :
  words h !! w = Some me →
  represents h (lemma me) tl → represents h (root me) tr →
  represents h (inflection me) ti →
  forallb decodes tl = true → Forall in_block tr →
  forallb decodes ti = true →
  ∃ h' l r i,
    PresentPolite.__init__ w h = (Ok (mkConjugation (length (words h))), h') ∧
    heap_prefix h h' ∧
    words h' !! length (words h) = Some (mkWord l r i) ∧
    represents h' l tl ∧ represents h' r tr ∧
    represents h' i (polite_text tr).
Proof.
  intros Hme Hl Hr Hi Hdl Hb Hdi. pose proof (forallb_in_block _ Hb) as Hdr.
  destruct (Word_copy_represents _ _ _ _ _ _ Hme Hl Hr Hi Hdl Hdr Hdi)
    as (h6 & kl & kr & ki & Ecopy & Hp6 & Hc6 & Hlen6 & Fl & Fr & Fi
        & _ & _ & _ & Rl & Rr & _).
  set (c := length (words h)) in *.
  pose proof Rr as (wr & Hwr & Hsr & _).
  destruct (represents_derived _ _ _ _ Rr Hwr) as (Hder & _).
  assert (jamos wr = flat_jamos (map decoded tr)) as Hj by (by rewrite Hder).
  unfold PresentPolite.__init__.
  rewrite (bind_ok _ _ _ _ _ Ecopy).
  rewrite (bind_ok _ _ _ _ _ (get_word_run _ _ _ Hc6)). cbn [root].
  assert (forallb decodes (string wr) = true) as Hd' by (by rewrite Hsr).
  rewrite (bind_ok _ _ _ _ _ (WordForm_copy_ok _ _ _ Hwr Hd')).
  rewrite Hsr. set (i' := length (wfs h6)). set (h7 := wf_store tr h6).
  assert (words h7 !! c = Some (mkWord kl kr ki)) as Hc7 by exact Hc6.
  rewrite (bind_ok _ _ _ _ _ (mod_word_run _ _ _ _ Hc7)).
  cbn [set_inflection lemma root].
  set (h8 := put_word c (mkWord kl kr i') h7).
  assert (words h8 !! c = Some (mkWord kl kr i')) as Hc8
    by (eapply words_put_word_eq, Hc7).
  rewrite (bind_ok _ _ _ _ _ (get_word_run _ _ _ Hc8)). cbn [root inflection].
  assert (wfs h8 !! kr = Some wr) as Hwr8 by (by apply (wfs_wf_store_old tr h6)).
  rewrite (bind_ok _ _ _ _ _ (get_wf_run _ _ _ Hwr8)).
  assert (represents h8 i' tr) as Ri8 by apply (represents_wf_store tr h6).
  assert (heap_prefix h h8) as Hp8.
  { apply heap_prefix_put_word_new; [|done].
    eapply heap_prefix_trans; [exact Hp6|apply heap_prefix_wf_store]. }
  assert (heap_prefix (mkHeap (syls h6) (wfs h6) []) h8) as Hq8.
  { assert (heap_prefix h6 h7) as (Hs & Hw & _) by apply heap_prefix_wf_store.
    split; [exact Hs|]. split; [exact Hw|apply prefix_nil]. }
  assert ((length (wfs h) ≤ i')%nat) as Hfresh.
  { subst i'. destruct Hp6 as (_ & Hpw & _). by apply prefix_length. }
  assert ((length (syls h) ≤ length (syls h6))%nat) as Hsyls.
  { destruct Hp6 as (Hps & _). by apply prefix_length. }
  destruct (classifier_tests tr Hdr) as [Hvow _]. rewrite Hj, Hvow.
  unfold polite_text.
  destruct (ends_open tr) eqn:Hopen.
  - destruct tr as [|c0 a _] using rev_ind; [discriminate Hopen|].
    rewrite ends_open_snoc in Hopen.
    apply Forall_app in Hb as [_ Hc0]. apply Forall_inv in Hc0.
    destruct (append_merge_represents i' a c0 12610 17 (u "니다") h8 Ri8 Hc0 Hopen)
      as (w0 & w' & pre & last & Hw0 & Hsyl & Hlast & E & Rep);
      [apply (bool_decide_unpack _); by vm_compute|reflexivity|reflexivity|].
    cbv zeta in E, Rep. rewrite (bind_ok _ _ _ _ _ E), ret_run.
    pose proof (wf_store_last_fresh _ _ _ _ _ Hw0 Hsyl) as Hlastfresh.
    eexists _, kl, kr, i'. split; [reflexivity|].
    assert (heap_prefix (mkHeap (syls h6) (wfs h6) [])
              (put_wf i' w' (new_syls (map decoded (u "니다"))
                 (put_syl last (decoded (c0 + Z.of_nat 17)) h8)))) as Hq9.
    { apply heap_prefix_put_wf_new; [|done].
      eapply heap_prefix_trans; [|apply heap_prefix_new_syls].
      by apply heap_prefix_put_syl_new. }
    split.
    { apply heap_prefix_put_wf_new; [|done].
      eapply heap_prefix_trans; [|apply heap_prefix_new_syls].
      apply heap_prefix_put_syl_new; [done|]. lia. }
    split; [exact Hc8|].
    split; [by apply (represents_prefix (mkHeap (syls h6) (wfs h6) []))|].
    split; [by apply (represents_prefix (mkHeap (syls h6) (wfs h6) []))|].
    rewrite add_final_snoc, <- app_assoc. exact Rep.
  - destruct (append_plain_represents i' tr (u "습니다") h8 Ri8 eq_refl)
      as (w' & E & Rep).
    rewrite (bind_ok _ _ _ _ _ E), ret_run.
    eexists _, kl, kr, i'. split; [reflexivity|].
    assert (heap_prefix (mkHeap (syls h6) (wfs h6) [])
              (put_wf i' w' (new_syls (map decoded (u "습니다")) h8))) as Hq9.
    { apply heap_prefix_put_wf_new; [|done].
      eapply heap_prefix_trans; [|apply heap_prefix_new_syls]. done. }
    split.
    { apply heap_prefix_put_wf_new; [|done].
      eapply heap_prefix_trans; [|apply heap_prefix_new_syls]. done. }
    split; [exact Hc8|].
    split; [by apply (represents_prefix (mkHeap (syls h6) (wfs h6) []))|].
    split; [by apply (represents_prefix (mkHeap (syls h6) (wfs h6) []))|].
    exact Rep.
Qed.

(** X16.  [PresentPolite(word)] never raises on a word whose forms hold accepted
    text and whose root is made of characters of the block, the empty root
    included.  The word of the conjugation is a new word with the same
    lemma and root; its inflection is the root followed by U+C2B5 U+B2C8
    U+B2E4, or, when the last character of the root has no final, the root
    with 17 added to its last code point, which gives it the final U+3142,
    followed by U+B2C8 U+B2E4.  The store it starts from is unchanged. *)
Theorem PresentPolite_in_closed_form (w : nat) (h : heap) (me : WordObj)
    (tl tr ti : str) :
  words h !! w = Some me →
  represents h (lemma me) tl → represents h (root me) tr →
  represents h (inflection me) ti →
  forallb decodes tl = true → Forall in_block tr →
  forallb decodes ti = true →
  ∃ p h',
    PresentPolite.__init__ w h = (Ok p, h') ∧ heap_prefix h h' ∧
    (length (words h) ≤ word p)%nat ∧
    lemma_surface h' (word p) = Some tl ∧
    root_surface h' (word p) = Some tr ∧
    inflection_surface h' (word p) = Some (polite_text tr).
Proof.
  intros Hme Hl Hr Hi Hdl Hb Hdi.
  destruct (PresentPolite_represents _ _ _ _ _ _ Hme Hl Hr Hi Hdl Hb Hdi)
    as (h' & l & r & i & E & Hp & Hw & (wl & Hwl & Hsl & _)
        & (wr & Hwr & Hsr & _) & (wi & Hwi & Hsi & _)).
  exists (mkConjugation (length (words h))), h'.
  split; [done|]. split; [done|]. split; [done|].
  unfold lemma_surface, root_surface, inflection_surface, surface. cbn [word].
  rewrite Hw. simpl. rewrite Hwl, Hwr, Hwi. simpl. by rewrite Hsl, Hsr, Hsi.
Qed.

Lemma PresentPolite_in_closed_form_witness :
  let h := (run (Verb.__init__ (u "이다"))).2 in
  polite_text (u "이") = u "입니다" ∧
  ∃ p h',
    PresentPolite.__init__ 0 h = (Ok p, h') ∧ heap_prefix h h' ∧
    (length (words h) ≤ word p)%nat ∧
    lemma_surface h' (word p) = Some (u "이다") ∧
    root_surface h' (word p) = Some (u "이") ∧
    inflection_surface h' (word p) = Some (polite_text (u "이")).
Proof.
  intros h. split; [vm_compute; reflexivity|].
  apply (PresentPolite_in_closed_form 0 h (mkWord 0 3 2) (u "이다") (u "이")
           (u "이다"));
    [vm_compute; reflexivity|represents_here..|reflexivity| |reflexivity].
  replace (u "이") with [51060] by (vm_compute; reflexivity).
  constructor; [unfold in_block; lia|constructor].
Defined.

(** * The scripts *)

Lemma read_inflection h w X :
  inflection_surface h w = Some X →
  ∃ me wf, words h !! w = Some me ∧ wfs h !! inflection me = Some wf ∧
           string wf = X.
Proof.
  unfold inflection_surface, surface.
  destruct (words h !! w) as [me|]; [|done]. simpl.
  destruct (wfs h !! inflection me) as [wf|] eqn:E; [|done]. simpl.
  intros [= <-]. by exists me, wf.
Qed.

Lemma particle_init_marked word after_vowel otherwise h arg l :
  words h !! word = Some arg → wfs h !! lemma arg = Some l →
  forallb decodes (string l) = true →
  forallb decodes after_vowel = true → forallb decodes otherwise = true →
  ∃ w h', particle_init word after_vowel otherwise h = (Ok w, h') ∧
    heap_prefix h h' ∧
    inflection_surface h' w = Some (marked after_vowel otherwise (string l)).
Proof.
  intros Harg Hl Hd Ha Ho.
  destruct (particle_init_surface _ _ _ _ _ _ Harg Hl Hd Ha Ho)
    as (w & h' & E & Hp & _ & _ & Hi).
  exists w, h'. split; [done|]. split; [done|].
  rewrite Hi. unfold marked.
  by destruct (classifier_tests (string l) Hd) as [-> _].
Qed.

(** X17.  [x_has_y(x, y)] returns the sentence made of the lemma of [x] with its
    topic particle, the lemma of [y] with its subject particle and the
    polite present of [have], separated by single spaces.  It reads the
    lemmas of [x] and [y] only, and leaves the three words, and everything
    else in the store, as they were. *)
Theorem x_has_y_sentence (have x y : nat) (h : heap) (mx my mh : WordObj)
    (lx ly : WordFormObj) (tl tr ti : str) :
  words h !! x = Some mx → wfs h !! lemma mx = Some lx →
  forallb decodes (string lx) = true →
  words h !! y = Some my → wfs h !! lemma my = Some ly →
  forallb decodes (string ly) = true →
  words h !! have = Some mh →
  represents h (lemma mh) tl → represents h (root mh) tr →
  represents h (inflection mh) ti →
  forallb decodes tl = true → Forall in_block tr →
  forallb decodes ti = true →
  ∃ h', x_has_y have x y h =
          (Ok (marked (u "는") (u "은") (string lx) ++ u " "
               ++ marked (u "가") (u "이") (string ly) ++ u " "
               ++ polite_text tr), h') ∧
        heap_prefix h h'.
Proof.
  intros Hx Hlx Hdx Hy Hly Hdy Hh Rl Rr Ri Hdl Hb Hdi.
  unfold x_has_y, Topic.__init__, Subject.__init__.
  destruct (particle_init_marked x (u "는") (u "은") h mx lx Hx Hlx Hdx
              eq_refl eq_refl) as (t & h1 & E1 & Hp1 & Hi1).
  rewrite (bind_ok _ _ _ _ _ E1).
  destruct (read_inflection _ _ _ Hi1) as (tw & ti' & Htw & Hti & <-).
  rewrite (bind_ok _ _ _ _ _ (get_word_run _ _ _ Htw)).
  rewrite (bind_ok _ _ _ _ _ (get_wf_run _ _ _ Hti)).
  destruct (particle_init_marked y (u "가") (u "이") h1 my ly
              (heap_prefix_lookup_word _ _ _ _ Hp1 Hy)
              (heap_prefix_lookup_wf _ _ _ _ Hp1 Hly) Hdy eq_refl eq_refl)
    as (s & h2 & E2 & Hp2 & Hi2).
  rewrite (bind_ok _ _ _ _ _ E2).
  destruct (read_inflection _ _ _ Hi2) as (sw & si & Hsw & Hsi & <-).
  rewrite (bind_ok _ _ _ _ _ (get_word_run _ _ _ Hsw)).
  rewrite (bind_ok _ _ _ _ _ (get_wf_run _ _ _ Hsi)).
  assert (heap_prefix h h2) as Hp02 by (by eapply heap_prefix_trans).
  destruct (PresentPolite_represents have h2 mh tl tr ti
              (heap_prefix_lookup_word _ _ _ _ Hp02 Hh)
              (represents_prefix _ _ _ _ Hp02 Rl)
              (represents_prefix _ _ _ _ Hp02 Rr)
              (represents_prefix _ _ _ _ Hp02 Ri) Hdl Hb Hdi)
    as (h3 & l & r & i & E3 & Hp3 & Hw3 & _ & _ & (wi & Hwi & Hswi & _)).
  rewrite (bind_ok _ _ _ _ _ E3). cbn [word].
  rewrite (bind_ok _ _ _ _ _ (get_word_run _ _ _ Hw3)). cbn [inflection].
  rewrite (bind_ok _ _ _ _ _ (get_wf_run _ _ _ Hwi)).
  rewrite ret_run, Hswi. exists h3. split; [reflexivity|].
  by eapply heap_prefix_trans.
Qed.

Lemma x_has_y_sentence_witness :
  let h := (run (student ← Noun.__init__ (u "학생");
                 book ← Noun.__init__ (u "책");
                 Verb.__init__ (u "있다"))).2 in
  marked (u "는") (u "은") (u "학생") ++ u " "
    ++ marked (u "가") (u "이") (u "책") ++ u " " ++ polite_text (u "있")
  = u "학생은 책이 있습니다" ∧
  ∃ h', x_has_y 2 0 1 h =
          (Ok (marked (u "는") (u "은") (string (built 0 (u "학생"))) ++ u " "
               ++ marked (u "가") (u "이") (string (built 6 (u "책"))) ++ u " "
               ++ polite_text (u "있")), h') ∧
        heap_prefix h h'.
Proof.
  intros h. split; [vm_compute; reflexivity|].
  apply (x_has_y_sentence 2 0 1 h (mkWord 0 1 2) (mkWord 3 4 5) (mkWord 6 9 8)
           (built 0 (u "학생")) (built 6 (u "책")) (u "있다") (u "있") (u "있다"));
    [vm_compute; reflexivity|vm_compute; reflexivity|reflexivity
    |vm_compute; reflexivity|vm_compute; reflexivity|reflexivity
    |vm_compute; reflexivity|represents_here..|reflexivity| |reflexivity].
  replace (u "있") with [51080] by (vm_compute; reflexivity).
  constructor; [unfold in_block; lia|constructor].
Defined.

Lemma prefix_insert_beyond {A} (l l' : list A) (i : nat) (x : A) :
  l `prefix_of` l' → (length l ≤ i)%nat → l `prefix_of` <[i := x]> l'.
Proof.
  intros [k ->] Hi. exists (<[(i - length l)%nat := x]> k).
  by rewrite insert_app_r_alt.
Qed.

Lemma predicate_of_prefix h h' v tl tr :
  heap_prefix h h' → predicate_of h v tl tr → predicate_of h' v tl tr.
Proof.
  intros Hp (me & ti & Hme & Rl & Rr & Ri & Hd).
  exists me, ti. split; [by eapply heap_prefix_lookup_word|].
  split; [by eapply represents_prefix|]. split; [by eapply represents_prefix|].
  split; [by eapply represents_prefix|]. done.
Qed.

Lemma conjugate_and_show_spec v h tl tr :
  predicate_of h v tl tr →
  ∃ h', heap_prefix h h' ∧
        conjugate_and_show v h =
        (if bool_decide (tr = []) then Raise IndexError
         else Ok (shown (u "PresentTense") (informal_low_text tr) tl), h').
Proof.
  intros (me & ti & Hme & Rl & Rr & Ri & Hdl & Hb & Hdi).
  pose proof (forallb_in_block _ Hb) as Hdr.
  destruct (Word_copy_represents _ _ _ _ _ _ Hme Rl Rr Ri Hdl Hdr Hdi)
    as (h6 & l & r & i & Ecopy & Hp6 & Hc6 & Hlen6 & Fl & Fr & Fi
        & _ & _ & _ & Rl6 & Rr6 & _).
  set (c := length (words h)) in *.
  assert (PresentTense.__init__ v h = (Ok (mkConjugation c), h6)) as Einit
    by (unfold PresentTense.__init__; by rewrite (bind_ok _ _ _ _ _ Ecopy)).
  unfold conjugate_and_show. rewrite (bind_ok _ _ _ _ _ Einit).
  destruct (informalLow_spec (mkConjugation c) h6 (mkWord l r i) tr Hc6 Rr6 Hb)
    as (h7 & Hq7 & Hw7 & Hres). cbn [word] in Hw7.
  assert (heap_prefix h h7) as Hp7.
  { destruct Hp6 as (Hs6 & Hwf6 & Hwd6). destruct Hq7 as (Hs7 & Hwf7 & _).
    split; [by etrans|]. split; [by etrans|].
    rewrite Hw7. by apply prefix_insert_beyond. }
  exists h7. split; [done|].
  destruct (bool_decide (tr = [])).
  - destruct Hres as [E _]. by rewrite (bind_raise _ _ _ _ _ E).
  - destruct Hres as [E (wi & Hwi & Hsi & _)].
    rewrite (bind_ok _ _ _ _ _ E). unfold Conjugation.__repr__. cbn [word].
    assert (words h7 !! c = Some (set_inflection (length (wfs h6)) (mkWord l r i)))
      as Hc7.
    { rewrite Hw7. apply list_lookup_insert_eq. by eapply lookup_lt_Some. }
    rewrite (bind_ok _ _ _ _ _ (get_word_run _ _ _ Hc7)).
    cbn [set_inflection inflection lemma].
    rewrite (bind_ok _ _ _ _ _ (get_wf_run _ _ _ Hwi)).
    destruct (represents_prefix (mkHeap (syls h6) (wfs h6) []) h7 l tl Hq7 Rl6)
      as (wl & Hwl & Hsl & _).
    rewrite (bind_ok _ _ _ _ _ (get_wf_run _ _ _ Hwl)).
    by rewrite ret_run, Hsi, Hsl.
Qed.

(** X18.  The loop of the script prints, for each verb of the list, one line
    that shows its informal low present and its lemma, in the order of the
    list.  A verb with an empty root stops the loop with [IndexError]; the
    lines printed before it stay printed.  Run as a script, the module
    prints two lines, for U+BA39 U+B2E4 and U+BCA0 U+C6B0 U+B2E4. *)
Theorem script_loop_prints (verbs : list nat) (texts : list (str * str))
    (out : list str) (h : heap) :
  Forall2 (λ v t, predicate_of h v t.1 t.2 ∧ t.2 ≠ []) verbs texts →
  let lines :=
    map (λ t, shown (u "PresentTense") (informal_low_text t.2) t.1) texts in
  (∃ h', script_loop verbs out h = (Ok tt, out ++ lines, h') ∧
         heap_prefix h h') ∧
  (∀ v tl verbs', predicate_of h v tl [] →
     ∃ h', script_loop (verbs ++ v :: verbs') out h =
           (Raise IndexError, out ++ lines, h')) ∧
  script.1 = (Ok tt, [u "<PresentTense 먹는다 lemma(먹다)>";
                      u "<PresentTense 베운다 lemma(베우다)>"]).
Proof.
  intros Hall lines. subst lines.
  split; [|split; [|vm_compute; reflexivity]].
  - revert texts out h Hall.
    induction verbs as [|v verbs IH]; intros texts out h Hall.
    + apply Forall2_nil_inv_l in Hall as ->. exists h.
      split; [by rewrite app_nil_r|apply heap_prefix_refl].
    + apply Forall2_cons_inv_l in Hall as ([tl tr] & texts' & [Hv Hne] & Hall & ->).
      cbn [fst snd] in *.
      destruct (conjugate_and_show_spec v h tl tr Hv) as (h1 & Hp1 & E).
      rewrite (bool_decide_eq_false_2 _ Hne) in E.
      cbn [script_loop]. rewrite E.
      destruct (IH texts' (out ++ [shown (u "PresentTense") (informal_low_text tr) tl])
                  h1) as (h' & E' & Hp').
      { eapply list.Forall2_impl; [exact Hall|]. intros v' t' [Hv' Hne'].
        split; [by eapply predicate_of_prefix|done]. }
      exists h'. split; [|by eapply heap_prefix_trans].
      rewrite E'. cbn [map fst snd]. by rewrite <- app_assoc.
  - intros v0 tl0 verbs'. revert texts out h Hall.
    induction verbs as [|v verbs IH]; intros texts out h Hall Hv0.
    + apply Forall2_nil_inv_l in Hall as ->.
      destruct (conjugate_and_show_spec v0 h tl0 [] Hv0) as (h1 & _ & E).
      cbn [app script_loop]. rewrite E. simpl. rewrite app_nil_r. eauto.
    + apply Forall2_cons_inv_l in Hall as ([tl tr] & texts' & [Hv Hne] & Hall & ->).
      cbn [fst snd] in *.
      destruct (conjugate_and_show_spec v h tl tr Hv) as (h1 & Hp1 & E).
      rewrite (bool_decide_eq_false_2 _ Hne) in E.
      cbn [app script_loop]. rewrite E.
      destruct (IH texts' (out ++ [shown (u "PresentTense") (informal_low_text tr) tl])
                  h1) as (h' & E').
      { eapply list.Forall2_impl; [exact Hall|]. intros v' t' [Hv' Hne'].
        split; [by eapply predicate_of_prefix|done]. }
      { by eapply predicate_of_prefix. }
      exists h'. rewrite E'. cbn [map fst snd]. by rewrite <- app_assoc.
Qed.

Lemma script_loop_prints_witness :
  let h := (run (eat ← Verb.__init__ (u "먹다"); Verb.__init__ (u "가다"))).2 in
  let texts := [(u "먹다", u "먹"); (u "가다", u "가")] in
  let lines :=
    map (λ t, shown (u "PresentTense") (informal_low_text t.2) t.1) texts in
  lines = [u "<PresentTense 먹는다 lemma(먹다)>";
           u "<PresentTense 간다 lemma(가다)>"] ∧
  (∃ h', script_loop [0; 1]%nat [] h = (Ok tt, [] ++ lines, h') ∧
         heap_prefix h h') ∧
  (∀ v tl verbs', predicate_of h v tl [] →
     ∃ h', script_loop ([0; 1]%nat ++ v :: verbs') [] h =
           (Raise IndexError, [] ++ lines, h')) ∧
  script.1 = (Ok tt, [u "<PresentTense 먹는다 lemma(먹다)>";
                      u "<PresentTense 베운다 lemma(베우다)>"]).
Proof.
  intros h texts lines. split; [vm_compute; reflexivity|].
  apply (script_loop_prints [0; 1]%nat texts [] h).
  constructor; [|constructor; [|constructor]].
  - split; [|discriminate].
    exists (mkWord 0 3 2), (u "먹다").
    split; [vm_compute; reflexivity|].
    split; [represents_here|]. split; [represents_here|].
    split; [represents_here|]. split; [reflexivity|]. split; [|reflexivity].
    cbn [snd]. replace (u "먹") with [47673] by (vm_compute; reflexivity).
    constructor; [unfold in_block; lia|constructor].
  - split; [|discriminate].
    exists (mkWord 4 7 6), (u "가다").
    split; [vm_compute; reflexivity|].
    split; [represents_here|]. split; [represents_here|].
    split; [represents_here|]. split; [reflexivity|]. split; [|reflexivity].
    cbn [snd]. replace (u "가") with [44032] by (vm_compute; reflexivity).
    constructor; [unfold in_block; lia|constructor].
Defined.

(** * Nouns and predicates, from constructor to inflection *)

Lemma represents_new_syls h self text D :
  represents h self text → represents (new_syls D h) self text.
Proof. apply represents_prefix, heap_prefix_new_syls. Qed.

Lemma particle_init_represents word after_vowel otherwise h arg l :
  words h !! word = Some arg → wfs h !! lemma arg = Some l →
  forallb decodes (string l) = true →
  forallb decodes after_vowel = true → forallb decodes otherwise = true →
  ∃ h' me,
    particle_init word after_vowel otherwise h = (Ok (length (words h)), h') ∧
    heap_prefix h h' ∧
    words h' !! length (words h) = Some me ∧
    represents h' (lemma me) (string l) ∧
    represents h' (root me) (string l) ∧
    represents h' (inflection me) (marked after_vowel otherwise (string l)).
Proof.
  intros Harg Hl Hd Hd1 Hd2. unfold particle_init, Noun.__init__.
  rewrite (bind_ok _ _ _ _ _ (get_word_run _ _ _ Harg)).
  rewrite (bind_ok _ _ _ _ _ (get_wf_run _ _ _ Hl)).
  rewrite bind_run, Word_init_spec, Hd.
  set (text := string l). set (h1 := word_store text h).
  set (kl := length (wfs h)).
  destruct (represents_word_store text h) as (Rl & Rr & Ri & Hw & Hlen).
  fold h1 kl in Rl, Rr, Ri, Hw, Hlen.
  rewrite (bind_ok _ _ _ _ _ (get_word_run _ _ _ Hw)). cbn [root inflection].
  pose proof Rr as (wr & Hwr & _).
  destruct (represents_derived _ _ _ _ Rr Hwr) as (Hder & _).
  rewrite (bind_ok _ _ _ _ _ (get_wf_run _ _ _ Hwr)).
  assert (jamos wr = flat_jamos (map decoded text)) as -> by (by rewrite Hder).
  destruct (classifier_tests text Hd) as [-> _].
  pose proof Rl as (wl & Hwl & _).
  assert (∀ particle, forallb decodes particle = true →
            ∃ h' me,
              (WordForm.append (S (S kl)) particle false ≫=
                 λ _, mret (length (words h))) h1 = (Ok (length (words h)), h') ∧
              heap_prefix h h' ∧
              words h' !! length (words h) = Some me ∧
              represents h' (lemma me) text ∧ represents h' (root me) text ∧
              represents h' (inflection me) (text ++ particle)) as Hboth.
  { intros particle Hdp.
    destruct (append_plain_represents (S (S kl)) text particle h1 Ri Hdp)
      as (w' & E & Rep).
    rewrite (bind_ok _ _ _ _ _ E), ret_run.
    eexists _, (mkWord kl (S kl) (S (S kl))). split; [reflexivity|].
    split.
    { apply heap_prefix_put_wf_new; [|lia].
      eapply heap_prefix_trans; [apply heap_prefix_word_store|].
      apply heap_prefix_new_syls. }
    split; [exact Hw|]. cbn [lemma root inflection].
    split.
    { eapply (represents_put_wf_other _ _ _ _ _ wl); [lia|exact Hwl|].
      by apply represents_new_syls. }
    split; [|exact Rep].
    eapply (represents_put_wf_other _ _ _ _ _ wr); [lia|exact Hwr|].
    by apply represents_new_syls. }
  unfold marked. destruct (ends_open text); by apply Hboth.
Qed.

Lemma particle_class_spec cls :
  cls ∈ particle_classes →
  cls.1.1 = (λ w, particle_init w cls.1.2 cls.2) ∧
  forallb decodes cls.1.2 = true ∧ forallb decodes cls.2 = true.
Proof.
  unfold particle_classes.
  intros H. repeat (apply elem_of_cons in H as [->|H]); try done.
  by apply elem_of_nil in H.
Qed.

Lemma surfaces_of_represented h w me tl tr ti :
  words h !! w = Some me →
  represents h (lemma me) tl → represents h (root me) tr →
  represents h (inflection me) ti →
  lemma_surface h w = Some tl ∧ root_surface h w = Some tr ∧
  inflection_surface h w = Some ti.
Proof.
  intros Hw (wl & Hwl & Hsl & _) (wr & Hwr & Hsr & _) (wi & Hwi & Hsi & _).
  unfold lemma_surface, root_surface, inflection_surface, surface.
  rewrite Hw. simpl. rewrite Hwl, Hwr, Hwi. simpl. by rewrite Hsl, Hsr, Hsi.
Qed.

(** X19.  Particles do not stack.  A particle class reads the lemma of the noun
    it is given and nothing else, so marking a noun that is already marked
    starts again from the lemma: the inflection of the result carries the
    second particle only, and lemma and root are those of the first noun.
    The store the calls start from is unchanged. *)
Theorem particles_do_not_stack (first second : (nat → M nat) * str * str)
    (n : nat) (h : heap) (arg : WordObj) (l : WordFormObj) :
  first ∈ particle_classes → second ∈ particle_classes →
  words h !! n = Some arg → wfs h !! lemma arg = Some l →
  forallb decodes (string l) = true →
  ∃ w h',
    (s ← first.1.1 n; second.1.1 s) h = (Ok w, h') ∧ heap_prefix h h' ∧
    lemma_surface h' w = Some (string l) ∧
    root_surface h' w = Some (string l) ∧
    inflection_surface h' w = Some (marked second.1.2 second.2 (string l)).
Proof.
  intros (-> & Ha1 & Ho1)%particle_class_spec (-> & Ha2 & Ho2)%particle_class_spec
    Harg Hl Hd.
  destruct (particle_init_represents n _ _ h arg l Harg Hl Hd Ha1 Ho1)
    as (h1 & me1 & E1 & Hp1 & Hw1 & (wl1 & Hwl1 & Hsl1 & _) & _ & _).
  rewrite (bind_ok _ _ _ _ _ E1).
  assert (forallb decodes (string wl1) = true) as Hd1 by (by rewrite Hsl1).
  destruct (particle_init_represents _ _ _ h1 me1 wl1 Hw1 Hwl1 Hd1 Ha2 Ho2)
    as (h2 & me2 & E2 & Hp2 & Hw2 & Rl & Rr & Ri).
  rewrite Hsl1 in Rl, Rr, Ri.
  exists (length (words h1)), h2. split; [exact E2|].
  split; [by eapply heap_prefix_trans|].
  by apply (surfaces_of_represented _ _ me2).
Qed.

Lemma particles_do_not_stack_witness :
  let h := (run (Noun.__init__ (u "책"))).2 in
  marked (u "는") (u "은") (u "책") = u "책은" ∧
  ∃ w h',
    (s ← Subject.__init__ 0%nat; Topic.__init__ s) h = (Ok w, h') ∧
    heap_prefix h h' ∧
    lemma_surface h' w = Some (u "책") ∧
    root_surface h' w = Some (u "책") ∧
    inflection_surface h' w = Some (marked (u "는") (u "은") (u "책")).
Proof.
  intros h. split; [vm_compute; reflexivity|].
  apply (particles_do_not_stack (Subject.__init__, u "가", u "이")
           (Topic.__init__, u "는", u "은") 0 h (mkWord 0 1 2) (built 0 (u "책")));
    [right; left|left|vm_compute; reflexivity|vm_compute; reflexivity|reflexivity].
Defined.

Lemma predicate_init_represents stem h :
  forallb decodes stem = true →
  ∃ h1, predicate_init (stem ++ u "다") h = (Ok (length (words h)), h1) ∧
        heap_prefix h h1 ∧
        ∃ me, words h1 !! length (words h) = Some me ∧
              represents h1 (lemma me) (stem ++ u "다") ∧
              represents h1 (root me) stem ∧
              represents h1 (inflection me) (stem ++ u "다").
Proof.
  intros Hd. rewrite predicate_init_spec.
  assert (forallb decodes (stem ++ u "다") = true) as ->
    by (rewrite forallb_app, Hd; reflexivity).
  change (u "다") with [45796].
  rewrite str_endswith_snoc_char, Z.eqb_refl. cbv zeta.
  replace (take (length (stem ++ [45796]) - 1) (stem ++ [45796])) with stem.
  2:{ rewrite length_app. simpl length.
      replace (length stem + 1 - 1)%nat with (length stem) by lia.
      by rewrite take_app_length. }
  set (lemma := stem ++ [45796]). set (h1 := word_store lemma h).
  destruct (represents_word_store lemma h) as (Rl & _ & Ri & Hw & Hlen).
  fold h1 in Rl, Ri, Hw, Hlen.
  rewrite !length_wfs_wf_store.
  eexists. split; [reflexivity|]. split.
  { apply heap_prefix_put_word_new; [|done].
    eapply heap_prefix_trans; [apply heap_prefix_word_store|].
    apply heap_prefix_wf_store. }
  eexists. split.
  { eapply (words_put_word_eq _ _ (wf_store stem h1)). exact Hw. }
  cbn [Obj.lemma root inflection].
  split; [|split].
  - apply represents_put_word.
    eapply represents_prefix; [apply heap_prefix_wf_store|exact Rl].
  - apply represents_put_word. apply represents_wf_store.
  - apply represents_put_word.
    eapply represents_prefix; [apply heap_prefix_wf_store|exact Ri].
Qed.

(** X20.  From a lemma to its conjugations.  For every stem made of characters
    of the block, [Verb(stem + U+B2E4)] returns a verb whose root is the
    stem; [PresentPolite] of it always returns, with the polite present of
    the stem as inflection; [PresentTense] of it followed by [informalLow]
    leaves the informal low present of the stem as inflection, except for
    the empty stem, on which [informalLow] raises [IndexError].
    [Adjective] behaves as [Verb]. *)
Theorem conjugation_of_lemma (stem : str) (h : heap) :
  Forall in_block stem →
  ∃ v h1,
    Verb.__init__ (stem ++ u "다") h = (Ok v, h1) ∧
    Adjective.__init__ (stem ++ u "다") h = (Ok v, h1) ∧
    heap_prefix h h1 ∧
    root_surface h1 v = Some stem ∧
    (∃ p h2, PresentPolite.__init__ v h1 = (Ok p, h2) ∧
             inflection_surface h2 (word p) = Some (polite_text stem) ∧
             inflection_surface h2 v = Some (stem ++ u "다")) ∧
    (∃ c h2 h3,
       PresentTense.__init__ v h1 = (Ok c, h2) ∧
       if bool_decide (stem = []) then
         PresentTense.informalLow c h2 = (Raise IndexError, h3)
       else
         PresentTense.informalLow c h2 = (Ok tt, h3) ∧
         inflection_surface h3 (word c) = Some (informal_low_text stem) ∧
         inflection_surface h3 v = Some (stem ++ u "다")).
Proof.
  intros Hb. pose proof (forallb_in_block _ Hb) as Hd.
  destruct (predicate_init_represents stem h Hd)
    as (h1 & E & Hp1 & me & Hme & Rl & Rr & Ri).
  assert (forallb decodes (stem ++ u "다") = true) as Hdl
    by (rewrite forallb_app, Hd; reflexivity).
  destruct (surfaces_of_represented _ _ _ _ _ _ Hme Rl Rr Ri) as (_ & Hrs & His).
  exists (length (words h)), h1. split; [exact E|]. split; [exact E|].
  split; [done|]. split; [done|]. split.
  - destruct (PresentPolite_represents _ _ _ _ _ _ Hme Rl Rr Ri Hdl Hb Hdl)
      as (h2 & l & r & i & E2 & Hp2 & Hw2 & Rl2 & Rr2 & Ri2).
    exists (mkConjugation (length (words h1))), h2. split; [done|].
    cbn [word].
    split; [by destruct (surfaces_of_represented _ _ _ _ _ _ Hw2 Rl2 Rr2 Ri2)
                as (_ & _ & ?)|].
    apply (surfaces_of_represented _ _ me (stem ++ u "다") stem).
    + by eapply heap_prefix_lookup_word.
    + by eapply represents_prefix.
    + by eapply represents_prefix.
    + by eapply represents_prefix.
  - destruct (Word_copy_represents _ _ _ _ _ _ Hme Rl Rr Ri Hdl Hd Hdl)
      as (h2 & l & r & i & Ecopy & Hp2 & Hc2 & _ & _ & _ & Fi & _ & _ & _
          & Rl2 & Rr2 & _).
    destruct (informalLow_spec (mkConjugation (length (words h1))) h2
                (mkWord l r i) stem Hc2 Rr2 Hb) as (h3 & Hq3 & Hw3 & Hres).
    cbn [word] in Hw3.
    exists (mkConjugation (length (words h1))), h2, h3.
    split; [unfold PresentTense.__init__; by rewrite (bind_ok _ _ _ _ _ Ecopy)|].
    destruct (bool_decide (stem = [])); [by destruct Hres|].
    destruct Hres as [E3 (wi & Hwi & Hsi & _)]. split; [done|].
    cbn [word]. split.
    + unfold inflection_surface, surface.
      rewrite Hw3, list_lookup_insert_eq by (by eapply lookup_lt_Some).
      simpl. by rewrite Hwi, <- Hsi.
    + assert (length (words h) < length (words h1))%nat as Hlt
        by (by eapply lookup_lt_Some).
      apply (surfaces_of_represented _ _ me (stem ++ u "다") stem).
      * rewrite Hw3, list_lookup_insert_ne by lia.
        by eapply heap_prefix_lookup_word.
      * apply (represents_prefix (mkHeap (syls h2) (wfs h2) []) h3); [done|].
        by eapply (represents_prefix h1 h2).
      * apply (represents_prefix (mkHeap (syls h2) (wfs h2) []) h3); [done|].
        by eapply (represents_prefix h1 h2).
      * apply (represents_prefix (mkHeap (syls h2) (wfs h2) []) h3); [done|].
        by eapply (represents_prefix h1 h2).
Qed.

Lemma conjugation_of_lemma_witness :
  polite_text (u "베우") = u "베웁니다" ∧
  informal_low_text (u "베우") = u "베운다" ∧
  ∃ v h1,
    Verb.__init__ (u "베우" ++ u "다") empty_heap = (Ok v, h1) ∧
    Adjective.__init__ (u "베우" ++ u "다") empty_heap = (Ok v, h1) ∧
    heap_prefix empty_heap h1 ∧
    root_surface h1 v = Some (u "베우") ∧
    (∃ p h2, PresentPolite.__init__ v h1 = (Ok p, h2) ∧
             inflection_surface h2 (word p) = Some (polite_text (u "베우")) ∧
             inflection_surface h2 v = Some (u "베우" ++ u "다")) ∧
    (∃ c h2 h3,
       PresentTense.__init__ v h1 = (Ok c, h2) ∧
       if bool_decide (u "베우" = []) then
         PresentTense.informalLow c h2 = (Raise IndexError, h3)
       else
         PresentTense.informalLow c h2 = (Ok tt, h3) ∧
         inflection_surface h3 (word c) = Some (informal_low_text (u "베우")) ∧
         inflection_surface h3 v = Some (u "베우" ++ u "다")).
Proof.
  split; [vm_compute; reflexivity|]. split; [vm_compute; reflexivity|].
  apply (conjugation_of_lemma (u "베우") empty_heap).
  replace (u "베우") with [48288; 50864] by (vm_compute; reflexivity).
  repeat constructor; unfold in_block; lia.
Defined.

(** * Printed representations *)

Lemma WordForm_repr_spec cls self text h :
  represents h self text →
  WordForm.__repr__ cls self h =
  (Ok (u "<" ++ cls ++ u " " ++ [34] ++ text ++ [34] ++ u " "
       ++ flat_jamos (map decoded text) ++ u ">"), h).
Proof.
  intros (w & Hw & Hs & Hj & _). unfold WordForm.__repr__.
  rewrite (bind_ok _ _ _ _ _ (get_wf_run _ _ _ Hw)).
  by rewrite ret_run, Hs, Hj.
Qed.

(** X21.  What the objects print as.  A word form in the state its constructor
    builds shows its text between double quotes and its jamo sequence; a
    verb or an adjective built from a lemma shows the lemma and the stem; a
    noun marked by a particle class shows the word form of its lemma and
    that of its marked inflection; a decoded character shows its three
    jamos.  Printing an existing object leaves the store as it is. *)
Theorem printed_representations (cls : str) (h : heap) :
  (∀ self text, represents h self text →
     WordForm.__repr__ cls self h =
       (Ok (u "<" ++ cls ++ u " " ++ [34] ++ text ++ [34] ++ u " "
            ++ flat_jamos (map decoded text) ++ u ">"), h) ∧
     WordForm._repr_word cls self h =
       (Ok (u "<" ++ cls ++ u " " ++ text ++ u ">"), h) ∧
     WordForm._repr_jamo_sequence cls self h =
       (Ok (u "<" ++ cls ++ u " " ++ flat_jamos (map decoded text) ++ u ">"),
        h)) ∧
  (∀ r c, syls h !! r = Some (decoded c) → decodes c = true →
     ∃ i m f, i ∈ Syllable.INITIAL_JAMOS ∧ m ∈ Syllable.MEDIAL_JAMOS ∧
       f ∈ Syllable.FINAL_JAMOS ∧
       Syllable.__repr__ cls r h =
       (Ok (u "<" ++ cls ++ u " " ++ [c] ++ u " (" ++ [i] ++ u "," ++ [m]
            ++ u "," ++ [f] ++ u ")>"), h)) ∧
  (∀ stem, forallb decodes stem = true →
     (v ← Verb.__init__ (stem ++ u "다"); Verb.__repr__ cls v) h =
     (v ← Adjective.__init__ (stem ++ u "다"); Adjective.__repr__ cls v) h ∧
     ((v ← Verb.__init__ (stem ++ u "다"); Verb.__repr__ cls v) h).1 =
     Ok (u "<" ++ cls ++ u " " ++ (stem ++ u "다") ++ u " root(" ++ stem
         ++ u ")>")) ∧
  (∀ particle n arg l,
     particle ∈ particle_classes →
     words h !! n = Some arg → wfs h !! lemma arg = Some l →
     forallb decodes (string l) = true →
     let text := string l in
     let inflected := marked particle.1.2 particle.2 text in
     ((t ← particle.1.1 n; Noun.__repr__ cls t) h).1 =
     Ok (u "<" ++ cls ++ u " "
         ++ (u "<WordForm " ++ [34] ++ text ++ [34] ++ u " "
             ++ flat_jamos (map decoded text) ++ u ">")
         ++ u " = "
         ++ (u "<WordForm " ++ [34] ++ inflected ++ [34] ++ u " "
             ++ flat_jamos (map decoded inflected) ++ u ">")
         ++ u ">")).
Proof.
  split; [|split; [|split]].
  - intros self text Hrep. split; [by apply WordForm_repr_spec|].
    destruct Hrep as (w & Hw & Hs & Hj & _).
    unfold WordForm._repr_word, WordForm._repr_jamo_sequence.
    rewrite !(bind_ok _ _ _ _ _ (get_wf_run _ _ _ Hw)).
    by rewrite !ret_run, Hs, Hj.
  - intros r c Hr Hd.
    destruct (decoded_jamos c Hd) as (i & m & f & Hdec & Hi & Hm & Hf).
    exists i, m, f. split; [done|]. split; [done|]. split; [done|].
    unfold Syllable.__repr__.
    rewrite (bind_ok _ _ _ _ _ (get_syl_run _ _ _ Hr)).
    by rewrite ret_run, Hdec.
  - intros stem Hd. split; [done|].
    unfold Verb.__init__, Verb.__repr__, predicate_repr.
    destruct (predicate_init_represents stem h Hd)
      as (h1 & E & _ & me & Hme & (wl & Hwl & Hsl & _) & (wr & Hwr & Hsr & _) & _).
    rewrite (bind_ok _ _ _ _ _ E).
    rewrite (bind_ok _ _ _ _ _ (get_word_run _ _ _ Hme)).
    rewrite (bind_ok _ _ _ _ _ (get_wf_run _ _ _ Hwl)).
    rewrite (bind_ok _ _ _ _ _ (get_wf_run _ _ _ Hwr)).
    by rewrite ret_run, Hsl, Hsr.
  - intros particle n arg l (-> & Ha & Ho)%particle_class_spec Harg Hl Hd.
    cbv zeta.
    destruct (particle_init_represents n _ _ h arg l Harg Hl Hd Ha Ho)
      as (h1 & me & E & _ & Hme & Rl & _ & Ri).
    rewrite (bind_ok _ _ _ _ _ E). unfold Noun.__repr__.
    rewrite (bind_ok _ _ _ _ _ (get_word_run _ _ _ Hme)).
    rewrite (bind_ok _ _ _ _ _ (WordForm_repr_spec _ _ _ _ Rl)).
    rewrite (bind_ok _ _ _ _ _ (WordForm_repr_spec _ _ _ _ Ri)).
    by rewrite ret_run.
Qed.

(** * The table of contents of a document *)

Lemma str_find_first (s sub : str) (n : nat) :
  str_find s sub = Some n →
  (n ≤ length s)%nat ∧ sub `prefix_of` drop n s ∧
  ∀ m, (m < n)%nat → ¬ sub `prefix_of` drop m s.
Proof.
  revert n. induction s as [|x s IH]; intros n; rewrite str_find_unfold;
    destruct (startswith _ sub) eqn:E.
  - intros [= <-]. apply startswith_prefix in E.
    split; [done|]. split; [done|]. intros m Hm. lia.
  - done.
  - intros [= <-]. apply startswith_prefix in E.
    split; [simpl; lia|]. split; [done|]. intros m Hm. lia.
  - destruct (str_find s sub) as [n'|] eqn:E'; [|done]. intros [= <-].
    destruct (IH n' eq_refl) as (Hle & Hpre & Hmin).
    split; [simpl; lia|]. split; [done|].
    intros [|m] Hm.
    + simpl. intros Hp%startswith_prefix. congruence.
    + simpl. apply Hmin. lia.
Qed.

Lemma str_find_nowhere (s sub : str) :
  str_find s sub = None →
  ∀ m, (m ≤ length s)%nat → ¬ sub `prefix_of` drop m s.
Proof.
  induction s as [|x s IH]; rewrite str_find_unfold;
    destruct (startswith _ sub) eqn:E; try done.
  - intros _ m Hm. simpl in Hm. replace m with 0%nat by lia.
    simpl. intros Hp%startswith_prefix. congruence.
  - destruct (str_find s sub) as [n'|] eqn:E'; [done|]. intros _.
    intros [|m] Hm.
    + simpl. intros Hp%startswith_prefix. congruence.
    + simpl. apply IH; [done|]. simpl in Hm. lia.
Qed.

Lemma str_index_from_spec (h p : str) (start : nat) :
  match str_index_from h p start with
  | Ok n => (start ≤ n)%nat ∧ occurs_at h p n ∧
            ∀ m, (start ≤ m)%nat → occurs_at h p m → (n ≤ m)%nat
  | Raise e => e = ValueError ∧ ∀ m, (start ≤ m)%nat → ¬ occurs_at h p m
  end.
Proof.
  unfold str_index_from, occurs_at.
  destruct (Nat.ltb_spec (length h) start) as [Hlt|Hle].
  { split; [done|]. intros m Hm [Hm' _]. lia. }
  destruct (str_find (drop start h) p) as [k|] eqn:E.
  - destruct (str_find_first _ _ _ E) as (Hk & Hpre & Hmin).
    rewrite length_drop in Hk. rewrite drop_drop in Hpre.
    split; [lia|]. split; [split; [lia|done]|].
    intros m Hm [Hm' Hp]. destruct (decide (start + k ≤ m)%nat); [done|].
    exfalso. apply (Hmin (m - start)%nat); [lia|].
    rewrite drop_drop. by replace (start + (m - start))%nat with m by lia.
  - split; [done|]. intros m Hm [Hm' Hp].
    apply (str_find_nowhere _ _ E (m - start)%nat).
    + rewrite length_drop. lia.
    + rewrite drop_drop. by replace (start + (m - start))%nat with m by lia.
Qed.

Lemma in_order_from_earlier h parts n n' :
  in_order_from h parts n → (n' ≤ n)%nat → in_order_from h parts n'.
Proof.
  destruct parts as [|p parts]; [done|].
  intros (k & Hk & Hrest) Hle. exists k. split; [lia|done].
Qed.

(** Taking the first occurrence of each part is enough: the inner loop
    succeeds exactly when the parts occur in order. *)
Lemma index_parts_spec h parts start :
  match Document.index_parts h parts start with
  | Ok _ => in_order_from h parts start
  | Raise e => e = ValueError ∧ ¬ in_order_from h parts start
  end.
Proof.
  revert start. induction parts as [|p parts IH]; intros start; simpl; [done|].
  pose proof (str_index_from_spec h p start) as Hp.
  destruct (str_index_from h p start) as [n|e].
  - destruct Hp as (Hn & Hocc & Hmin). specialize (IH n).
    destruct (Document.index_parts h parts n) as [r|e].
    + by exists n.
    + destruct IH as [-> IH]. split; [done|].
      intros (m & Hm & Hoccm & Hrest). apply IH.
      eapply in_order_from_earlier; [exact Hrest|]. by apply Hmin.
  - destruct Hp as [-> Hp]. split; [done|].
    intros (m & Hm & Hoccm & _). by apply (Hp m).
Qed.

Lemma in_order_from_contains h parts start :
  in_order_from h parts start → Forall (λ p, ∃ a b, h = a ++ p ++ b) parts.
Proof.
  revert start. induction parts as [|p parts IH]; intros start; [constructor|].
  intros (n & _ & [_ [k Hk]] & Hrest). constructor; [|by eapply IH].
  exists (take n h), k. by rewrite <- Hk, take_drop.
Qed.

Lemma find_in_spec keys parts :
  match Document.find_in keys parts with
  | Ok h => ∃ pre post, keys = pre ++ h :: post ∧ in_order_from h parts 0 ∧
                        Forall (λ k, ¬ in_order_from k parts 0) pre
  | Raise e => e = ValueError ∧ Forall (λ k, ¬ in_order_from k parts 0) keys
  end.
Proof.
  induction keys as [|h keys IH]; simpl; [by split|].
  pose proof (index_parts_spec h parts 0) as Hh.
  destruct (Document.index_parts h parts 0) as [n|e].
  - exists [], keys. by split.
  - destruct Hh as [-> Hh].
    destruct (Document.find_in keys parts) as [h'|e].
    + destruct IH as (pre & post & -> & Hin & Hpre).
      exists (h :: pre), post. split; [done|]. split; [done|]. by constructor.
    + destruct IH as [-> IH]. split; [done|]. by constructor.
Qed.

(** X22.  [find_heading] returns the first heading of the table of contents in
    which the parts occur one after the other, each starting at or after
    the start of the one before (they may overlap); that heading contains
    every part.  When no heading is such, and so when there is no heading,
    it raises [ValueError]; with no part at all it returns the first
    heading. *)
Theorem find_heading_first_match {node : Type} (self : Document.DocumentObj node)
    (parts : list str) :
  match Document.find_heading self parts with
  | Ok h =>
    ∃ pre post,
      Document.get_toc self = pre ++ h :: post ∧
      in_order_from h parts 0 ∧
      Forall (λ p, ∃ a b, h = a ++ p ++ b) parts ∧
      Forall (λ k, ¬ in_order_from k parts 0) pre ∧
      (parts = [] → pre = [])
  | Raise e =>
    e = ValueError ∧
    Forall (λ k, ¬ in_order_from k parts 0) (Document.get_toc self)
  end.
Proof.
  unfold Document.find_heading.
  pose proof (find_in_spec (Document.get_toc self) parts) as H.
  destruct (Document.find_in _ parts) as [h|e]; [|done].
  destruct H as (pre & post & E & Hin & Hpre).
  exists pre, post. split; [done|]. split; [done|].
  split; [by eapply in_order_from_contains|]. split; [done|].
  intros ->. destruct pre as [|k pre]; [done|].
  apply Forall_inv in Hpre. by destruct Hpre.
Qed.

Section TableOfContents.

Context {node : Type}.
Implicit Types (nodes : list (str * node)) (stack : list str).

Lemma setitem_keys path (h : node) nodes x :
  x ∈ map fst (Document.setitem path h nodes) ↔ x = path ∨ x ∈ map fst nodes.
Proof.
  induction nodes as [|[k v] nodes IH]; simpl.
  - rewrite list_elem_of_singleton, elem_of_nil. tauto.
  - case_bool_decide as Hk; simpl; rewrite !elem_of_cons; [subst; tauto|].
    rewrite IH. tauto.
Qed.

Lemma setitem_NoDup path (h : node) nodes :
  NoDup (map fst nodes) → NoDup (map fst (Document.setitem path h nodes)).
Proof.
  induction nodes as [|[k v] nodes IH]; simpl.
  - intros _. apply NoDup_singleton.
  - intros Hnd. inversion Hnd as [|? ? Hnot Hnd']; subst.
    case_bool_decide as Hk; simpl; [subst; by constructor|].
    constructor; [|by apply IH].
    rewrite setitem_keys. intros [?|?]; [congruence|done].
Qed.

Lemma setitem_length path (h : node) nodes :
  (length (Document.setitem path h nodes) ≤ S (length nodes))%nat.
Proof.
  induction nodes as [|[k v] nodes IH]; simpl; [lia|].
  case_bool_decide; simpl; lia.
Qed.

Lemma list_pop_spec {A} (l : list A) :
  match list_pop l with
  | Ok l' => l ≠ [] ∧ l' = take (length l - 1) l ∧
             length l' = (length l - 1)%nat
  | Raise e => e = IndexError ∧ l = []
  end.
Proof.
  destruct l as [|a l]; [by split|]. unfold list_pop.
  split; [done|]. split; [done|]. rewrite length_take. lia.
Qed.

Lemma build_loop_spec (headings : list (Document.Heading node)) stack
    (last_level : Z) nodes :
  let ds := depths (map Document.level headings) last_level
              (Z.of_nat (length stack)) in
  match Document.build_loop headings stack last_level nodes with
  | Ok nodes' =>
    Forall (λ d, 1 ≤ d) ds ∧
    (NoDup (map fst nodes) → NoDup (map fst nodes')) ∧
    (length nodes' ≤ length nodes + length headings)%nat ∧
    ∃ stacks,
      Forall2 (λ st d, Z.of_nat (length st) = d) stacks ds ∧
      Forall2 (λ st h, ∃ below, st = below ++ [Document.text h]) stacks headings ∧
      ∀ k, k ∈ map fst nodes' ↔
           k ∈ map fst nodes ∨
           k ∈ map (str_join Document.LEVEL_SEPARATOR) stacks
  | Raise e => e = IndexError ∧ ¬ Forall (λ d, 1 ≤ d) ds
  end.
Proof.
  revert stack last_level nodes.
  induction headings as [|h headings IH]; intros stack last_level nodes.
  { simpl. split; [constructor|]. split; [done|]. split; [lia|].
    exists []. split; [constructor|]. split; [constructor|].
    intros k. simpl. rewrite elem_of_nil. tauto. }
  cbn [Document.build_loop map depths]. cbv zeta.
  set (l := Document.level h).
  assert (∀ stack3 d',
    (∃ below, stack3 = below ++ [Document.text h]) →
    d' = Z.of_nat (length stack3) → 1 ≤ d' →
    match Document.build_loop headings stack3 l
            (Document.setitem (str_join Document.LEVEL_SEPARATOR stack3)
               (Document.tag h) nodes) with
    | Ok nodes' =>
      Forall (λ d, 1 ≤ d) (d' :: depths (map Document.level headings) l d') ∧
      (NoDup (map fst nodes) → NoDup (map fst nodes')) ∧
      (length nodes' ≤ length nodes + S (length headings))%nat ∧
      ∃ stacks,
        Forall2 (λ st d, Z.of_nat (length st) = d) stacks
          (d' :: depths (map Document.level headings) l d') ∧
        Forall2 (λ st h, ∃ below, st = below ++ [Document.text h]) stacks
          (h :: headings) ∧
        ∀ k, k ∈ map fst nodes' ↔
             k ∈ map fst nodes ∨
             k ∈ map (str_join Document.LEVEL_SEPARATOR) stacks
    | Raise e =>
      e = IndexError ∧
      ¬ Forall (λ d, 1 ≤ d) (d' :: depths (map Document.level headings) l d')
    end) as Hstep.
  { intros stack3 d' Hbelow -> Hd'. specialize (IH stack3 l
      (Document.setitem (str_join Document.LEVEL_SEPARATOR stack3)
         (Document.tag h) nodes)).
    cbv zeta in IH.
    destruct (Document.build_loop headings stack3 l _) as [nodes'|e].
    - destruct IH as (Hall & Hnd & Hlen & stacks & Hst1 & Hst2 & Hkeys).
      split; [by constructor|].
      split; [intros H; by apply Hnd, setitem_NoDup|].
      split.
      { pose proof (setitem_length (str_join Document.LEVEL_SEPARATOR stack3)
                      (Document.tag h) nodes). lia. }
      exists (stack3 :: stacks). split; [by constructor|].
      split; [by constructor|].
      intros k. rewrite Hkeys, setitem_keys. simpl. rewrite elem_of_cons. tauto.
    - destruct IH as [-> IH]. split; [done|].
      intros Hall. apply IH. by inversion Hall. }
  destruct (Z.eqb_spec l last_level) as [Heq|Hneq].
  - pose proof (list_pop_spec stack) as Hpop.
    destruct (list_pop stack) as [stack1|e].
    + destruct Hpop as (Hne & -> & Hlen).
      destruct (Z.ltb_spec l last_level) as [?|_]; [lia|].
      assert (length stack ≠ 0%nat) by (by destruct stack).
      apply Hstep; [by eexists| |]; rewrite ?length_app, ?length_take; simpl; lia.
    + destruct Hpop as [-> ->]. split; [done|].
      intros Hall. inversion Hall; subst. simpl in *. lia.
  - destruct (Z.ltb_spec l last_level) as [Hlt|Hge].
    + pose proof (list_pop_spec stack) as Hpop.
      destruct (list_pop stack) as [stack1|e].
      2:{ destruct Hpop as [-> ->]. split; [done|].
          intros Hall. inversion Hall; subst. simpl in *. lia. }
      destruct Hpop as (Hne1 & -> & Hlen1).
      pose proof (list_pop_spec (take (length stack - 1) stack)) as Hpop.
      destruct (list_pop (take (length stack - 1) stack)) as [stack2|e].
      2:{ destruct Hpop as [-> Hnil]. split; [done|].
          apply (f_equal length) in Hnil. rewrite Hlen1 in Hnil. simpl in Hnil.
          intros Hall. inversion Hall; subst. lia. }
      destruct Hpop as (Hne2 & -> & Hlen2).
      assert (length (take (length stack - 1) stack) ≠ 0%nat)
        by (by destruct (take (length stack - 1) stack)).
      apply Hstep; [by eexists| |]; rewrite ?length_app, ?Hlen2, ?Hlen1; simpl; lia.
    + apply Hstep; [by eexists| |]; rewrite ?length_app; simpl; lia.
Qed.

End TableOfContents.

(** X23.  [build_nodes_by_toc] keeps a stack of heading texts whose depth goes
    up by one at a heading deeper than the one before it, stays for one as
    deep, and goes down by one for one less deep, however many levels that
    heading goes up.  The call raises [IndexError], from [pop], exactly when
    this depth would fall below one, as it does when the second heading is
    less deep than the first; the document then keeps the table it had.
    Otherwise the table has one key for each different path, at most one per
    heading, each the texts of a stack of that depth joined by the
    separator, the text of the heading last. *)
Theorem build_nodes_by_toc_depth {node : Type}
    (self : Document.DocumentObj node) :
  let ds := depths (map Document.level (Document.soup self)) 0 0 in
  match Document.build_nodes_by_toc self with
  | Ok doc =>
    Document.soup doc = Document.soup self ∧
    Forall (λ d, 1 ≤ d) ds ∧
    NoDup (Document.get_toc doc) ∧
    (length (Document.get_toc doc) ≤ length (Document.soup self))%nat ∧
    ∃ stacks,
      Forall2 (λ st d, Z.of_nat (length st) = d) stacks ds ∧
      Forall2 (λ st h, ∃ below, st = below ++ [Document.text h]) stacks
        (Document.soup self) ∧
      ∀ k, k ∈ Document.get_toc doc ↔
           k ∈ map (str_join Document.LEVEL_SEPARATOR) stacks
  | Raise e => e = IndexError ∧ ¬ Forall (λ d, 1 ≤ d) ds
  end ∧
  (∀ h1 h2 rest,
     Document.soup self = h1 :: h2 :: rest →
     Document.level h2 < Document.level h1 →
     Document.build_nodes_by_toc self = Raise IndexError).
Proof.
  intros ds. subst ds. unfold Document.build_nodes_by_toc.
  pose proof (build_loop_spec (Document.soup self) [] 0 []) as H.
  cbv zeta in H. change (Z.of_nat (length (@nil str))) with 0 in H.
  split.
  - destruct (Document.build_loop _ _ _ _) as [nodes'|e].
    + destruct H as (Hall & Hnd & Hlen & stacks & H1 & H2 & Hkeys).
      unfold Document.get_toc. cbn [Document.soup Document.nodes_by_toc].
      split; [done|]. split; [done|].
      split; [apply Hnd; constructor|].
      split; [rewrite length_map; simpl in Hlen; lia|].
      exists stacks. split; [done|]. split; [done|].
      intros k. rewrite Hkeys. simpl. rewrite elem_of_nil. tauto.
    + destruct H as [-> H]. done.
  - intros h1 h2 rest Esoup Hlt. rewrite Esoup in *.
    destruct (Document.build_loop _ _ _ _) as [nodes'|e].
    + destruct H as (Hall & _). exfalso. simpl in Hall.
      inversion Hall as [|? ? Hd1 Hall1]; subst.
      inversion Hall1 as [|? ? Hd2 _]; subst.
      destruct (Z.eqb_spec (Document.level h1) 0);
        destruct (Z.ltb_spec (Document.level h1) 0);
        destruct (Z.eqb_spec (Document.level h2) (Document.level h1));
        destruct (Z.ltb_spec (Document.level h2) (Document.level h1)); lia.
    + by destruct H as [-> _].
Qed.

(** * After a merge that failed *)




(** * Conjugating what is conjugated *)

Lemma add_final_in_block n text :
  Forall in_block text → ends_open text = true → (0 ≤ n < 28) →
  Forall in_block (add_final n text).
Proof.
  intros Hb Ho Hn. destruct text as [|c a _] using rev_ind; [done|].
  rewrite ends_open_snoc in Ho. rewrite add_final_snoc.
  apply Forall_app in Hb as [Ha Hc]. apply Forall_inv in Hc.
  apply Forall_app. split; [done|]. constructor; [|constructor].
  unfold open_syllable, Syllable.UNICODE_HANGUL_SYLLABLE_OFFSET,
    Syllable.UNICODE_MEDIAL_JAMO_FACTOR in Ho. apply Z.eqb_eq in Ho.
  unfold in_block in *. Z.div_mod_to_equations. lia.
Qed.

Lemma polite_text_in_block tr : Forall in_block tr → Forall in_block (polite_text tr).
Proof.
  intros Hb. unfold polite_text. destruct (ends_open tr) eqn:Ho.
  - apply Forall_app. split; [apply add_final_in_block; [done|done|lia]|].
    unfold in_block. apply (bool_decide_unpack _). by vm_compute.
  - apply Forall_app. split; [done|].
    unfold in_block. apply (bool_decide_unpack _). by vm_compute.
Qed.

(** X25.  Conjugations do not stack either.  [PresentPolite] reads the root
    of the word it is given, not its inflection: the polite present of the
    word of a polite present is the polite present of the same root again,
    in a new word, the first conjugation left as it was. *)
Theorem conjugations_start_from_the_root (w : nat) (h : heap) (me : WordObj)
    (tl tr ti : str) :
  words h !! w = Some me →
  represents h (lemma me) tl → represents h (root me) tr →
  represents h (inflection me) ti →
  forallb decodes tl = true → Forall in_block tr →
  forallb decodes ti = true →
  ∃ p h1 q h2,
    PresentPolite.__init__ w h = (Ok p, h1) ∧
    PresentPolite.__init__ (word p) h1 = (Ok q, h2) ∧
    word q ≠ word p ∧ heap_prefix h h2 ∧
    inflection_surface h2 (word q) = Some (polite_text tr) ∧
    inflection_surface h2 (word p) = Some (polite_text tr) ∧
    root_surface h2 (word q) = Some tr ∧ lemma_surface h2 (word q) = Some tl.
Proof.
  intros Hme Hl Hr Hi Hdl Hb Hdi.
  destruct (PresentPolite_represents _ _ _ _ _ _ Hme Hl Hr Hi Hdl Hb Hdi)
    as (h1 & l & r & i & E1 & Hp1 & Hw1 & Rl1 & Rr1 & Ri1).
  pose proof (forallb_in_block _ (polite_text_in_block _ Hb)) as Hdp.
  destruct (PresentPolite_represents _ _ _ _ _ _ Hw1 Rl1 Rr1 Ri1 Hdl Hb Hdp)
    as (h2 & l2 & r2 & i2 & E2 & Hp2 & Hw2 & Rl2 & Rr2 & Ri2).
  exists (mkConjugation (length (words h))), h1,
    (mkConjugation (length (words h1))), h2.
  split; [done|]. split; [done|]. cbn [word].
  apply lookup_lt_Some in Hw1 as Hlt.
  split; [lia|]. split; [by eapply heap_prefix_trans|].
  destruct (surfaces_of_represented _ _ _ _ _ _ Hw2 Rl2 Rr2 Ri2) as (? & ? & ?).
  destruct (surfaces_of_represented h2 (length (words h)) (mkWord l r i) tl tr
              (polite_text tr)) as (_ & _ & ?); [|by eapply represents_prefix..|].
  { by eapply heap_prefix_lookup_word. }
  done.
Qed.

Lemma conjugations_start_from_the_root_witness :
  let h := (run (Verb.__init__ (u "가다"))).2 in
  polite_text (u "가") = u "갑니다" ∧
  ∃ p h1 q h2,
    PresentPolite.__init__ 0 h = (Ok p, h1) ∧
    PresentPolite.__init__ (word p) h1 = (Ok q, h2) ∧
    word q ≠ word p ∧ heap_prefix h h2 ∧
    inflection_surface h2 (word q) = Some (polite_text (u "가")) ∧
    inflection_surface h2 (word p) = Some (polite_text (u "가")) ∧
    root_surface h2 (word q) = Some (u "가") ∧
    lemma_surface h2 (word q) = Some (u "가다").
Proof.
  intros h. split; [vm_compute; reflexivity|].
  apply (conjugations_start_from_the_root 0 h (mkWord 0 3 2) (u "가다") (u "가")
           (u "가다"));
    [vm_compute; reflexivity|represents_here..|reflexivity| |reflexivity].
  replace (u "가") with [44032] by (vm_compute; reflexivity).
  constructor; [unfold in_block; lia|constructor].
Defined.
